(** * json-for-cpp: the tagged union, the parser and the serializer of [json.hpp]

    A shallow embedding of [src/json.hpp] (class [smartUnion], class [json])
    and of the places where the other revision of the header differs,
    followed by the properties of the value model, of [json::parse] and of
    [json::to_string].

    Conventions of the embedding.
    - [std::string] is a list of characters; [txt[i]] is defined for
      [i <= txt.length()] (the terminating NUL sits at [i = length]) and is
      undefined behaviour beyond, which the embedding keeps as the outcome
      [Undefined].
    - [size_t] cursors are natural numbers: a text long enough to wrap a
      64-bit cursor cannot be stored.
    - a C++ exception is the outcome [Throw]; the three classes the header
      and the library calls raise are kept apart, with their [what()] text.
    - [std::unordered_map<std::string, json>] is a finite map with
      extensional equality; the order in which it is iterated is left open
      ([Iteration]): some order of its entries, each once.
    - the mutually recursive descent of [parseArray]/[parseObject] is driven
      by a recursion budget; [parse] starts it with more than the text can
      use ([call_enough_fuel], [parse_total]).
    - the [int] that [to_string] indents by is an integer; its arithmetic
      goes wrong in one place, the [++indent] of a container entered with
      [INT_MAX], which [overflows] finds and [to_string_int] reports as
      [Undefined].
    - a [double] is a [spec_float], which has a single NaN: the sign bit
      and the payload of a NaN are not kept, and no statement depends on
      them. *)

From Stdlib Require Import ZArith Ascii String List Lia.
From Stdlib Require Import SpecFloat DecimalString.
From stdpp Require Import gmap strings list fin_maps.

Set Warnings "-register-all".
Local Open Scope Z_scope.

(** ** Characters and strings *)

Abbreviation std_string := (list ascii).

(** A C++ string literal. *)
Definition str (s : string) : std_string := String.list_ascii_of_string s.

Definition dquote : ascii := "034"%char.
Definition NUL : ascii := "000"%char.
Definition tab : ascii := "009"%char.
Definition newline : ascii := "010"%char.

(** JSON texts are written with ['] where the text has a double quote. *)
Definition json_text (s : string) : std_string :=
  map (fun c => if Ascii.eqb c "'" then dquote else c) (str s).

(** [std::isspace] in the C locale. *)
Definition isspace (c : ascii) : bool :=
  match c with
  | "009" | "010" | "011" | "012" | "013" | " " => true
  | _ => false
  end%char.

Fixpoint take_while {A} (p : A -> bool) (l : list A) : list A :=
  match l with
  | x :: l' => if p x then x :: take_while p l' else []
  | [] => []
  end.

(** ** Exceptions and outcomes *)

Inductive exception : Type :=
| runtime_error (what : std_string)
| invalid_argument (what : std_string)
| out_of_range (what : std_string).

Inductive outcome (A : Type) : Type :=
| Ok (a : A)
| Throw (e : exception)
| Undefined
| OutOfFuel.
Arguments Ok {A} a.
Arguments Throw {A} e.
Arguments Undefined {A}.
Arguments OutOfFuel {A}.

Global Instance outcome_bind : MBind outcome := fun A B f m =>
  match m with
  | Ok a => f a
  | Throw e => Throw e
  | Undefined => Undefined
  | OutOfFuel => OutOfFuel
  end.
Global Instance outcome_ret : MRet outcome := fun A a => Ok a.
Global Instance outcome_fmap : FMap outcome := fun A B f m =>
  match m with
  | Ok a => Ok (f a)
  | Throw e => Throw e
  | Undefined => Undefined
  | OutOfFuel => OutOfFuel
  end.

(** [txt[index]]. *)
Definition at_ (txt : std_string) (index : nat) : outcome ascii :=
  match txt !! index with
  | Some c => Ok c
  | None => if (index =? length txt)%nat then Ok NUL else Undefined
  end.

(** ** The library calls the header makes

    [std::stod] and [std::to_string] are library code.  They are modelled
    after the GNU implementation (libstdc++ over glibc, C locale):
    [double] is IEEE 754 binary64, [std::stod] is [strtod] with its
    [ERANGE] report turned into [std::out_of_range], and
    [std::to_string(double)] is [printf("%f")].  Both round to nearest,
    ties to even.  [spec_float] has one NaN, with no sign bit and no
    payload: [to_string] writes it as [printf] writes a NaN whose sign
    bit is clear, which is [nan]; a NaN whose sign bit is set is written
    [-nan] by the library and has no counterpart here, so that nothing
    below is stated of the text of a NaN but what holds of both. *)

Module std.

Definition double : Type := spec_float.
Definition prec : Z := 53.
Definition emax : Z := 1024.

Definition code (c : ascii) : Z := Z.of_N (N_of_ascii c).
Definition between (lo hi c : ascii) : bool :=
  (code lo <=? code c) && (code c <=? code hi).
Definition isdigit (c : ascii) : bool := between "0" "9" c.
Definition tolower (c : ascii) : ascii :=
  if between "A" "Z" c then ascii_of_N (N_of_ascii c + 32) else c.
Definition isxdigit (c : ascii) : bool :=
  isdigit c || between "a" "f" (tolower c).
Definition isalnum (c : ascii) : bool :=
  isdigit c || between "a" "z" (tolower c).
Definition digit_value (c : ascii) : Z :=
  if isdigit c then code c - 48 else code (tolower c) - 87.

Definition number_of (base : Z) (ds : std_string) : Z :=
  fold_left (fun acc c => acc * base + digit_value c) ds 0.

Definition starts_with (p s : std_string) : bool :=
  bool_decide (take (length p) s = p).

(** What a floating literal denotes: an infinity, a NaN, or
    [m * base ^ e]. *)
Inductive magnitude : Type :=
| mag_inf
| mag_nan
| mag_scaled (m base e : Z).

(** The digits before and after the point, and how many characters they
    take; at least one digit is required. *)
Definition scan_mantissa (isd : ascii -> bool) (s : std_string)
  : option (std_string * std_string * nat) :=
  let ip := take_while isd s in
  match drop (length ip) s with
  | "."%char :: s2 =>
      let fp := take_while isd s2 in
      match ip ++ fp with
      | [] => None
      | _ => Some (ip, fp, (length ip + 1 + length fp)%nat)
      end
  | _ =>
      match ip with
      | [] => None
      | _ => Some (ip, [], length ip)
      end
  end.

(** An exponent part ([e+12], [p-3]); it is taken only when it has a
    digit. *)
Definition scan_exponent (marker : ascii) (s : std_string) : Z * nat :=
  match s with
  | c :: s1 =>
      if Ascii.eqb (tolower c) marker then
        let '(neg, s2, k) :=
          match s1 with
          | "-"%char :: t => (true, t, 1%nat)
          | "+"%char :: t => (false, t, 1%nat)
          | _ => (false, s1, 0%nat)
          end in
        let ds := take_while isdigit s2 in
        match ds with
        | [] => (0, 0%nat)
        | _ => (if neg then - number_of 10 ds else number_of 10 ds,
                (1 + k + length ds)%nat)
        end
      else (0, 0%nat)
  | [] => (0, 0%nat)
  end.

(** The optional [(n-char-sequence)] after [nan]. *)
Definition scan_nan_payload (s : std_string) : nat :=
  match s with
  | "("%char :: s1 =>
      let w := take_while (fun c => isalnum c || Ascii.eqb c "_") s1 in
      match drop (length w) s1 with
      | ")"%char :: _ => (length w + 2)%nat
      | _ => 0%nat
      end
  | _ => 0%nat
  end.

Definition scan_hex (s : std_string) : option (magnitude * nat) :=
  match s with
  | "0"%char :: x :: s1 =>
      if Ascii.eqb (tolower x) "x" then
        '(ip, fp, n) ← scan_mantissa isxdigit s1;
        let '(e, ne) := scan_exponent "p" (drop n s1) in
        Some (mag_scaled (number_of 16 (ip ++ fp)) 2 (e - 4 * Z.of_nat (length fp)),
              (2 + n + ne)%nat)
      else None
  | _ => None
  end.

Definition scan_decimal (s : std_string) : option (magnitude * nat) :=
  '(ip, fp, n) ← scan_mantissa isdigit s;
  let '(e, ne) := scan_exponent "e" (drop n s) in
  Some (mag_scaled (number_of 10 (ip ++ fp)) 10 (e - Z.of_nat (length fp)),
        (n + ne)%nat).

(** The subject sequence of [strtod] after white space and sign. *)
Definition scan_literal (s : std_string) : option (magnitude * nat) :=
  let low := map tolower s in
  if starts_with (str "infinity") low then Some (mag_inf, 8%nat)
  else if starts_with (str "inf") low then Some (mag_inf, 3%nat)
  else if starts_with (str "nan") low then
    Some (mag_nan, (3 + scan_nan_payload (drop 3 s))%nat)
  else
    match scan_hex s with
    | Some r => Some r
    | None => scan_decimal s
    end.

(** The double nearest to [num / den]. *)
Definition nearest (neg : bool) (num den : positive) : double :=
  SFdiv prec emax (S754_finite neg num 0) (S754_finite false den 0).

Definition exact (d : double) (num den : positive) : bool :=
  match d with
  | S754_finite _ m e =>
      if 0 <=? e then Zpos m * 2 ^ e * Zpos den =? Zpos num
      else Zpos m * Zpos den =? Zpos num * 2 ^ (- e)
  | _ => false
  end.

Definition subnormal (d : double) : bool :=
  match d with
  | S754_finite _ m _ => Zpos (digits2_pos m) <? prec
  | S754_zero _ => true
  | _ => false
  end.

(** The value of a literal and whether [strtod] reports [ERANGE]: on
    overflow, and on a tiny result that is not exact. *)
Definition convert (neg : bool) (mag : magnitude) : double * bool :=
  match mag with
  | mag_inf => (S754_infinity neg, false)
  | mag_nan => (S754_nan, false)
  | mag_scaled m base e =>
      match (if 0 <=? e then m * base ^ e else m),
            (if 0 <=? e then 1 else base ^ (- e)) with
      | Zpos num, Zpos den =>
          let d := nearest neg num den in
          (d, match d with
              | S754_infinity _ => true
              | _ => subnormal d && negb (exact d num den)
              end)
      | _, _ => (S754_zero neg, false)
      end
  end.

(** Every character [strtod] can use is white space or one of these;
    it never looks past the leading run of them. *)
Definition literal_char (c : ascii) : bool :=
  isspace c || isalnum c
  || bool_decide (c ∈ ["+"; "-"; "."; "("; ")"; "_"]%char).

(** [strtod] on the run [w] of literal characters: white space, a sign,
    the literal. *)
Definition strtod_run (w : std_string) : outcome (double * nat) :=
  let ws := length (take_while isspace w) in
  let '(neg, body, k) :=
    match drop ws w with
    | "-"%char :: t => (true, t, 1%nat)
    | "+"%char :: t => (false, t, 1%nat)
    | t => (false, t, 0%nat)
    end in
  match scan_literal body with
  | None => Throw (invalid_argument (str "stod"))
  | Some (mag, n) =>
      let '(d, erange) := convert neg mag in
      if erange then Throw (out_of_range (str "stod"))
      else Ok (d, (ws + k + n)%nat)
  end.

(** [std::stod(str, &parsedChars)]: the value and [parsedChars]. *)
Definition stod (s : std_string) : outcome (double * nat) :=
  strtod_run (take_while literal_char s).

(** [std::to_string] of an integer. *)
Definition to_string_int (n : Z) : std_string :=
  str (NilZero.string_of_int (Z.to_int n)).

Definition round_half_even (num den : Z) : Z :=
  let q := num / den in
  match 2 * (num mod den) ?= den with
  | Lt => q
  | Gt => q + 1
  | Eq => if Z.even q then q else q + 1
  end.

(** [m * 2 ^ e] in millionths, rounded. *)
Definition millionths (m : positive) (e : Z) : Z :=
  if 0 <=? e then Zpos m * 2 ^ e * 10 ^ 6
  else round_half_even (Zpos m * 10 ^ 6) (2 ^ (- e)).

Definition sign (s : bool) : std_string := if s then str "-" else [].

(** [std::to_string(double)]: [%f], six digits after the point. *)
Definition to_string (d : double) : std_string :=
  match d with
  | S754_nan => str "nan"
  | S754_infinity s => sign s ++ str "inf"
  | S754_zero s => sign s ++ str "0.000000"
  | S754_finite s m e =>
      let n := millionths m e in
      sign s ++ to_string_int (n / 10 ^ 6)
        ++ "."%char :: drop 1 (to_string_int (10 ^ 6 + n mod 10 ^ 6))
  end.

End std.

(** ** The enum of dynamic types *)

Module json_type.
Inductive t : Type := null | boolean | number | string | array | object.

Global Instance eq_dec : EqDecision t.
Proof. solve_decision. Defined.

(** The enumerators' values ([enum class json_type : uint8_t]). *)
Definition to_int (x : t) : Z :=
  match x with
  | null => 0 | boolean => 1 | number => 2
  | string => 3 | array => 4 | object => 5
  end.

Definition of_int (n : Z) : option t :=
  match n with
  | 0 => Some null | 1 => Some boolean | 2 => Some number
  | 3 => Some string | 4 => Some array | 5 => Some object
  | _ => None
  end.
End json_type.

Definition typeToString (type : json_type.t) : std_string :=
  match type with
  | json_type.null => str "null"
  | json_type.boolean => str "boolean"
  | json_type.number => str "number"
  | json_type.string => str "string"
  | json_type.array => str "array"
  | json_type.object => str "object"
  end.

(** ** The value: [class json] over [smartUnion]

    A [json] holds one [smartUnion<json_type, json_type::null, Boolean,
    Number, String, Array, Object>]: the tag [type] and the word [data],
    which is the payload itself or the address of its box.  The embedding
    keeps the tag as the constructor and the payload as its argument. *)

Inductive json : Type :=
| Null
| Boolean (b : bool)
| Number (d : std.double)
| String (s : std_string)
| Array (a : list json)
| Object (o : gmap std_string json).

Definition getType (v : json) : json_type.t :=
  match v with
  | Null => json_type.null
  | Boolean _ => json_type.boolean
  | Number _ => json_type.number
  | String _ => json_type.string
  | Array _ => json_type.array
  | Object _ => json_type.object
  end.

(** The template arguments [Ts...] of the union. *)
Inductive data_type : Type :=
  T_Boolean | T_Number | T_String | T_Array | T_Object.

Global Instance data_type_eq_dec : EqDecision data_type.
Proof. solve_decision. Defined.

Definition Ts : list data_type :=
  [T_Boolean; T_Number; T_String; T_Array; T_Object].

Definition payload (T : data_type) : Type :=
  match T with
  | T_Boolean => bool
  | T_Number => std.double
  | T_String => std_string
  | T_Array => list json
  | T_Object => gmap std_string json
  end.

(** [find_index<T>()]: the position of [T] in [Ts...]; [-1] when absent and
    [-2] when it occurs twice. *)
Definition find_index (T : data_type) : Z :=
  (fix loop (ts : list data_type) (i index : Z) : Z :=
     match ts with
     | [] => index
     | t :: ts' =>
         if bool_decide (T = t) then
           if bool_decide (index ≠ -1) then -2 else loop ts' (i + 1) i
         else loop ts' (i + 1) index
     end) Ts 0 (-1).

(** [find_type<T>()]: [(E) (idx + 1)]. *)
Definition find_type (T : data_type) : json_type.t :=
  default json_type.null (json_type.of_int (find_index T + 1)).

(** [sizeof] on the LP64 ABI with libstdc++. *)
Definition sizeof (T : data_type) : Z :=
  match T with
  | T_Boolean => 1
  | T_Number => 8
  | T_String => 32
  | T_Array => 24
  | T_Object => 56
  end.
Definition sizeof_pointer : Z := 8.

(** [using_pointer(t)]: whether the payload of tag [t] lives in a box. *)
Definition using_pointer (t : json_type.t) : bool :=
  if bool_decide (t = json_type.null) then false
  else
    default false
      (((fun T => sizeof_pointer <? sizeof T) <$> Ts)
         !! Z.to_nat (json_type.to_int t - 1)).

(** What [data], read as a [T], holds: nothing when the word is not a
    [T]. *)
Definition stored (T : data_type) (v : json) : option (payload T) :=
  match T as T' return option (payload T') with
  | T_Boolean => match v with Boolean b => Some b | _ => None end
  | T_Number => match v with Number d => Some d | _ => None end
  | T_String => match v with String s => Some s | _ => None end
  | T_Array => match v with Array a => Some a | _ => None end
  | T_Object => match v with Object o => Some o | _ => None end
  end.

(** [smartUnion::get<T>()], both overloads. *)
Definition get (T : data_type) (v : json) : outcome (payload T) :=
  let tType := find_type T in
  if bool_decide (tType ≠ getType v) then
    Throw (invalid_argument
             (str "wrong type T: " ++ std.to_string_int (json_type.to_int tType)
              ++ str " type: " ++ std.to_string_int (json_type.to_int (getType v))))
  else
    match stored T v with
    | Some p => Ok p
    | None => Undefined
    end.

(** The converting constructors [json(const T&)] and [json(T&&)]. *)
Definition json_of (T : data_type) : payload T -> json :=
  match T as T' return payload T' -> json with
  | T_Boolean => Boolean
  | T_Number => Number
  | T_String => String
  | T_Array => Array
  | T_Object => Object
  end.

(** The move constructor [smartUnion(smartUnion&& otherUnion)]: the new
    union and what is left in [otherUnion]. *)
Definition move_construct (otherUnion : json) : json * json :=
  let this := otherUnion in
  if using_pointer (getType this) then (this, Null) else (this, otherUnion).

(** The move assignment [operator=(smartUnion&& otherUnion)]: the assigned
    union and what is left in [otherUnion]. *)
Definition move_assign (this otherUnion : json) : json * json :=
  (otherUnion, Null).

(** ** Errors *)

Definition castError (v : json) (t : json_type.t) : exception :=
  runtime_error
    (str "Tried to cast json value of type '" ++ typeToString (getType v)
     ++ str "' to '" ++ typeToString t ++ str "'").

Definition parsingError {A} (txt : std_string) (index : nat) : outcome A :=
  c ← at_ txt index;
  Throw (runtime_error
           (str "Invalid symbole '" ++ c :: str "' at index "
            ++ std.to_string_int (Z.of_nat index) ++ str "'")).

(** ** Accessors *)

(** [operator[](const size_t index)], both overloads. *)
Definition operator_index (v : json) (index : nat) : outcome json :=
  if bool_decide (getType v = json_type.array) then
    a ← get T_Array v;
    let length := length a in
    if (index <? length)%nat then
      match a !! index with
      | Some x => Ok x
      | None => Undefined
      end
    else
      Throw (out_of_range
               (str "index: " ++ std.to_string_int (Z.of_nat index)
                ++ str " length: " ++ std.to_string_int (Z.of_nat length)))
  else Throw (castError v json_type.array).

(** [size()]. *)
Definition size_ (v : json) : outcome nat :=
  match getType v with
  | json_type.array => a ← get T_Array v; Ok (length a)
  | json_type.object => o ← get T_Object v; Ok (size o)
  | _ => Throw (castError v json_type.array)
  end.

(** [length()]. *)
Definition length_ (v : json) : outcome nat :=
  if bool_decide (getType v = json_type.string) then
    s ← get T_String v; Ok (length s)
  else Throw (castError v json_type.string).

(** ** The order of iteration

    [to_string] walks an [Object] from [begin()] to [end()].  The order in
    which a [std::unordered_map] hands out its entries is the library's
    own; all that is known of it is that every entry comes once. *)

Class Iteration : Type := {
  iterate : forall A : Type, gmap std_string A -> list (std_string * A);
  iterate_perm :
    forall (A : Type) (m : gmap std_string A), iterate A m ≡ₚ map_to_list m
}.
Arguments iterate {_ A} m.

(** One such order, for the texts that are computed below: that of the
    listing of the finite map. *)
Definition listing_order : Iteration :=
  {| iterate := fun A => map_to_list;
     iterate_perm := fun A m => reflexivity (map_to_list m) |}.

(** ** The serializer *)

Definition tabs (n : Z) : std_string := repeat tab (Z.to_nat n).

(** The loop over the elements of an array, each already rendered. *)
Fixpoint array_items (indentTabs lineBreak : std_string)
    (items : list std_string) : std_string :=
  match items with
  | [] => []
  | x :: rest =>
      indentTabs ++ x
      ++ match rest with
         | [] => lineBreak
         | _ => ","%char :: lineBreak ++ array_items indentTabs lineBreak rest
         end
  end.

(** The loop over the entries of an object, each value already rendered. *)
Fixpoint object_items (indentTabs lineBreak : std_string)
    (items : list (std_string * std_string)) : std_string :=
  match items with
  | [] => []
  | (first, second) :: rest =>
      indentTabs ++ dquote :: first ++ dquote :: str ": " ++ second
      ++ match rest with
         | [] => lineBreak
         | _ => ","%char :: lineBreak ++ object_items indentTabs lineBreak rest
         end
  end.

(** [to_string(out, indent)]: the characters written to [out].  [indent]
    is kept as an integer without bound: the text is that of every run in
    which no [++indent] overflows, which is every run with [indent < 0];
    [overflows] and [to_string_int] below tell the other runs apart. *)
Fixpoint to_string {It : Iteration} (v : json) (indent : Z) {struct v}
  : std_string :=
  match v with
  | Null => str "null"
  | Boolean b => if b then str "true" else str "false"
  | Number d => std.to_string d
  | String s => dquote :: s ++ [dquote]
  | Array a =>
      let indent' := if indent <? 0 then indent else indent + 1 in
      let indentTabs := if indent <? 0 then [] else tabs indent' in
      let lineBreak := if indent' <? 0 then [] else [newline] in
      "["%char :: lineBreak
      ++ array_items indentTabs lineBreak ((fun x => to_string x indent') <$> a)
      ++ (if indent' <? 0 then [] else tabs (indent' - 1)) ++ str "]"
  | Object o =>
      let indent' := if indent <? 0 then indent else indent + 1 in
      let indentTabs := if indent <? 0 then [] else tabs indent' in
      let lineBreak := if indent' <? 0 then [] else [newline] in
      "{"%char :: lineBreak
      ++ object_items indentTabs lineBreak
           (iterate ((fun x => to_string x indent') <$> o))
      ++ (if indent' <? 0 then [] else tabs (indent' - 1)) ++ str "}"
  end.

(** [operator<<]. *)
Definition operator_shl {It : Iteration} (v : json) : std_string :=
  to_string v 0.

(** ** The parser *)

(** [skipSpaces(txt, index)]: the cursor it leaves.  [rest] is the text
    from [index] on. *)
Fixpoint skipSpaces_from (rest : std_string) (index : nat) : nat :=
  match rest with
  | [] => index
  | c :: rest' => if isspace c then skipSpaces_from rest' (S index) else index
  end.

Definition skipSpaces (txt : std_string) (index : nat) : nat :=
  skipSpaces_from (drop (S index) txt) (S index).

(** The targets of the function pointer type [parser]. *)
Inductive parser : Type :=
| p_parseObject
| p_parseArray
| p_parseString
| p_parseBoolean
| p_parseNumber
| p_parseNull.

Global Instance parser_eq_dec : EqDecision parser.
Proof. solve_decision. Defined.

Definition getParser (begin : ascii) : outcome parser :=
  if Ascii.eqb begin "{" then Ok p_parseObject
  else if Ascii.eqb begin "[" then Ok p_parseArray
  else if Ascii.eqb begin dquote then Ok p_parseString
  else if Ascii.eqb begin "t" || Ascii.eqb begin "f" then Ok p_parseBoolean
  else if std.isdigit begin then Ok p_parseNumber
  else if Ascii.eqb begin "n" then Ok p_parseNull
  else Throw (runtime_error (str "Invalid symbole begin: " ++ [begin])).

(** [strncmp(s1, s2, n)] on C strings: the sign of the first difference. *)
Fixpoint strncmp (s1 s2 : std_string) (n : nat) : Z :=
  match n with
  | O => 0
  | S n' =>
      let c1 := hd NUL s1 in
      let c2 := hd NUL s2 in
      if std.code c1 <? std.code c2 then -1
      else if std.code c2 <? std.code c1 then 1
      else if Ascii.eqb c1 NUL then 0
      else strncmp (tl s1) (tl s2) n'
  end.

Definition parseNull (txt : std_string) (index : nat) : outcome (json * nat) :=
  if (index + 3 <? length txt)%nat
     && (strncmp (drop index txt) (str "null") 4 =? 0)
  then Ok (Null, (index + 3)%nat)
  else parsingError txt index.

Definition parseBoolean (txt : std_string) (index : nat)
  : outcome (json * nat) :=
  if (index <? length txt)%nat
     && (strncmp (drop index txt) (str "false") 5 =? 0)
  then Ok (Boolean false, (index + 4)%nat)
  else if (index <? length txt)%nat
          && (strncmp (drop index txt) (str "true") 4 =? 0)
  then Ok (Boolean true, (index + 3)%nat)
  else parsingError txt index.

(** [txt.substr(index)]. *)
Definition substr (txt : std_string) (index : nat) : outcome std_string :=
  if (length txt <? index)%nat then
    Throw (out_of_range
             (str "basic_string::substr: __pos (which is "
              ++ std.to_string_int (Z.of_nat index)
              ++ str ") > this->size() (which is "
              ++ std.to_string_int (Z.of_nat (length txt)) ++ str ")"))
  else Ok (drop index txt).

Definition parseNumber (txt : std_string) (index : nat)
  : outcome (json * nat) :=
  s ← substr txt index;
  '(data, parsedChars) ← std.stod s;
  Ok (Number data, (index + (parsedChars - 1))%nat).

(** The loop of [parseString]: [index] is the last character read and
    [rest] the text after it. *)
Fixpoint parseString_loop (txt rest : std_string) (index : nat)
    (data : std_string) : outcome (json * nat) :=
  let index := S index in
  match rest with
  | [] =>
      (* [txt[index]] is the terminator, which is not a quote *)
      parsingError txt index
  | c :: rest' =>
      if Ascii.eqb c dquote then Ok (String data, index)
      else
        let data := data ++ [c] in
        if (length txt <=? index + 2)%nat then parsingError txt index
        else parseString_loop txt rest' index data
  end.

Definition parseString (txt : std_string) (index : nat)
  : outcome (json * nat) :=
  if (length txt <? S index)%nat then Undefined
  else parseString_loop txt (drop (S index) txt) index [].

(** The key loop of [parseObject]: [index] is the cursor and [rest] the
    text from it on. *)
Fixpoint scan_name (rest : std_string) (index : nat) (name : std_string)
  : std_string * nat :=
  match rest with
  | [] => (name, index)
  | c :: rest' =>
      if Ascii.eqb c dquote then (name, index)
      else scan_name rest' (S index) (name ++ [c])
  end.

(** [Object::insert]: a key that is present keeps its value. *)
Definition insert_pair (name : std_string) (value : json)
    (data : gmap std_string json) : gmap std_string json :=
  match data !! name with
  | Some _ => data
  | None => <[name := value]> data
  end.

Section descent.
(** The call [f(txt, index)] through the function pointer. *)
Variable call : parser -> std_string -> nat -> outcome (json * nat).

(** The [do ... while] of [parseArray]; [n] bounds its rounds. *)
Fixpoint parseArray_loop (n : nat) (f : parser) (txt : std_string)
    (index : nat) (data : list json) : outcome (json * nat) :=
  match n with
  | O => OutOfFuel
  | S n' =>
      let index := skipSpaces txt index in
      '(x, index) ← call f txt index;
      let data := data ++ [x] in
      let index := skipSpaces txt index in
      c ← at_ txt index;
      if Ascii.eqb c "," && (index <? length txt)%nat
      then parseArray_loop n' f txt index data
      else Ok (Array data, index)
  end.

Definition parseArray (n : nat) (txt : std_string) (index : nat)
  : outcome (json * nat) :=
  let index := skipSpaces txt index in
  c ← at_ txt index;
  f ← getParser c;
  let index := (index - 1)%nat in
  parseArray_loop n f txt index [].

(** The [do ... while] of [parseObject]; [n] bounds its rounds. *)
Fixpoint parseObject_loop (n : nat) (txt : std_string) (index : nat)
    (data : gmap std_string json) : outcome (json * nat) :=
  match n with
  | O => OutOfFuel
  | S n' =>
      let index := skipSpaces txt index in
      c ← at_ txt index;
      if Ascii.eqb c "}" then Ok (Object data, index)
      else
        let '(name, index) := scan_name (drop (S index) txt) (S index) [] in
        let index := skipSpaces txt index in
        let index := skipSpaces txt index in
        c ← at_ txt index;
        f ← getParser c;
        '(value, index) ← call f txt index;
        let data := insert_pair name value data in
        let index := skipSpaces txt index in
        c ← at_ txt index;
        if Ascii.eqb c "," && (index <? length txt)%nat
        then parseObject_loop n' txt index data
        else Ok (Object data, index)
  end.

Definition parseObject (n : nat) (txt : std_string) (index : nat)
  : outcome (json * nat) :=
  parseObject_loop n txt index ∅.
End descent.

(** A call of one of the six parsers, [fuel] deep. *)
Fixpoint call (fuel : nat) (f : parser) (txt : std_string) (index : nat)
    {struct fuel} : outcome (json * nat) :=
  match fuel with
  | O => OutOfFuel
  | S fuel' =>
      match f with
      | p_parseObject => parseObject (call fuel') fuel' txt index
      | p_parseArray => parseArray (call fuel') fuel' txt index
      | p_parseString => parseString txt index
      | p_parseBoolean => parseBoolean txt index
      | p_parseNumber => parseNumber txt index
      | p_parseNull => parseNull txt index
      end
  end.

(** [json::parse], with the cursor it ends on. *)
Definition parse_cursor (txt : std_string) : outcome (json * nat) :=
  if (length txt <? 2)%nat then
    Throw (runtime_error (str "Invalid json (empty string)"))
  else
    c0 ← at_ txt 0;
    let index :=
      if negb (Ascii.eqb c0 "{") && negb (Ascii.eqb c0 "[")
      then skipSpaces txt 0 else 0%nat in
    c ← at_ txt index;
    if Ascii.eqb c "{" then call (length txt + 2) p_parseObject txt index
    else if Ascii.eqb c "[" then call (length txt + 2) p_parseArray txt index
    else Throw (runtime_error (str "Invalid json")).

Definition parse (txt : std_string) : outcome json :=
  fst <$> parse_cursor txt.

(** ** The other revision of the header ([src/unnamed/part_000])

    It differs from [json.hpp] in the text of the error of [get<T>()],
    which names the two types, and in [operator[](size_t)], which does not
    look at the length. *)

Module part_000.

(** [__PRETTY_FUNCTION__] inside [enum_to_string<json_type, V>()], as GCC
    spells it. *)
Definition pretty_function (V : json_type.t) : std_string :=
  str "constexpr auto enum_to_string() [with E = json::json_type; E V = json::json_type::"
  ++ typeToString V ++ str "]".

(** [extractName]: what follows the last [':'] of the view. *)
Fixpoint extractName (s : std_string) : std_string :=
  match s with
  | [] => []
  | c :: s' =>
      if bool_decide (":"%char ∈ s') then extractName s'
      else if Ascii.eqb c ":" then s' else c :: s'
  end.

(** [enum_to_string<E, V>()]: the view drops the closing bracket. *)
Definition enum_to_string (V : json_type.t) : std_string :=
  let f := pretty_function V in
  extractName (take (length f - 1) f).

Definition enum_type_to_string (v : json_type.t) : std_string :=
  let names := (fun T => enum_to_string (find_type T)) <$> Ts in
  let idx := Z.to_nat (json_type.to_int v - 1) in
  if bool_decide (v = json_type.null) then str "null"
  else default (str "unknown") (names !! idx).

Definition get (T : data_type) (v : json) : outcome (payload T) :=
  let tType := find_type T in
  if bool_decide (tType ≠ getType v) then
    Throw (invalid_argument
             (str "Tried to access " ++ enum_type_to_string tType
              ++ str " but dynamic type was "
              ++ enum_type_to_string (getType v)))
  else
    match stored T v with
    | Some p => Ok p
    | None => Undefined
    end.

(** [operator[](const size_t index)]: [data.get<Array>()[index]]. *)
Definition operator_index (v : json) (index : nat) : outcome json :=
  a ← get T_Array v;
  match a !! index with
  | Some x => Ok x
  | None => Undefined
  end.

(** [size()]: on a value that is neither an array nor an object the
    [default] case calls [data.get<Array>()] for its exception; the
    [return 0] after the [switch] is what comes then. *)
Definition size_ (v : json) : outcome nat :=
  match getType v with
  | json_type.array => a ← get T_Array v; Ok (length a)
  | json_type.object => o ← get T_Object v; Ok (size o)
  | _ => _ ← get T_Array v; Ok 0%nat
  end.

(** [length()]: [data.get<String>().length()]. *)
Definition length_ (v : json) : outcome nat :=
  s ← get T_String v; Ok (length s).

End part_000.

(** ** Values used in the statements *)

(** The double nearest to [num / den]. *)
Definition dbl (num den : positive) : std.double := std.nearest false num den.

(** Whether [needle] occurs in [s]. *)
Fixpoint occurs (needle s : std_string) : bool :=
  std.starts_with needle s
  || match s with
     | [] => false
     | _ :: s' => occurs needle s'
     end.

(** The size of a tree, for induction on values. *)
Fixpoint json_size (v : json) : nat :=
  match v with
  | Array a => S (foldr (fun x n => (json_size x + n)%nat) O a)
  | Object o => S (map_fold (fun _ x n => (json_size x + n)%nat) O o)
  | _ => 1%nat
  end.

(** ** The compact text in the words of the specification

    Tokens follow each other with nothing between them but a comma between
    the elements of a container; [colon] is what separates a key from its
    value. *)

Definition join (items : list std_string) : std_string :=
  match items with
  | [] => []
  | x :: rest => x ++ flat_map (fun y => ","%char :: y) rest
  end.

Definition entry (colon : std_string) (kv : std_string * std_string)
  : std_string :=
  dquote :: kv.1 ++ dquote :: colon ++ kv.2.

Fixpoint render {It : Iteration} (colon : std_string) (v : json) {struct v}
  : std_string :=
  match v with
  | Null => str "null"
  | Boolean b => if b then str "true" else str "false"
  | Number d => std.to_string d
  | String s => dquote :: s ++ [dquote]
  | Array a => "["%char :: join (render colon <$> a) ++ str "]"
  | Object o =>
      "{"%char :: join (entry colon <$> iterate (render colon <$> o))
      ++ str "}"
  end.

(** The string payloads and the keys of a tree. *)
Fixpoint texts (v : json) : list std_string :=
  match v with
  | String s => [s]
  | Array a => flat_map texts a
  | Object o => map_fold (fun k x acc => k :: texts x ++ acc) [] o
  | _ => []
  end.

(** ** The values that survive [parse] after [to_string] *)

(** The parser [getParser] selects on the first character of the text of
    a value. *)
Definition lead (v : json) : parser :=
  match v with
  | Null => p_parseNull
  | Boolean _ => p_parseBoolean
  | Number _ => p_parseNumber
  | String _ => p_parseString
  | Array _ => p_parseArray
  | Object _ => p_parseObject
  end.

Global Instance double_eq_dec : EqDecision std.double.
Proof. unfold std.double. solve_decision. Defined.

(** A number whose [%f] text starts with a digit and is read back by
    [std::stod] as the same double. *)
Definition number_roundtrips (d : std.double) : bool :=
  let s := std.to_string d in
  match s with
  | c :: _ => std.isdigit c
  | [] => false
  end
  && forallb std.literal_char s
  && match std.stod s with
     | Ok (d', n) => bool_decide (d' = d) && (n =? length s)%nat
     | _ => false
     end.

Definition no_dquote (s : std_string) : bool :=
  forallb (fun c => negb (Ascii.eqb c dquote)) s.

(** No array is empty, the elements of an array are of one variant, no
    key and no string has a double quote, and every number is one that
    [number_roundtrips]. *)
Fixpoint roundtrips (v : json) : bool :=
  match v with
  | Null | Boolean _ => true
  | Number d => number_roundtrips d
  | String s => no_dquote s
  | Array a =>
      match a with
      | [] => false
      | x :: _ =>
          forallb (fun y => roundtrips y && bool_decide (lead y = lead x)) a
      end
  | Object o =>
      forallb (fun kb : std_string * bool => no_dquote kb.1 && kb.2)
        (map_to_list (roundtrips <$> o))
  end.

Definition is_container (v : json) : bool :=
  match v with
  | Array _ | Object _ => true
  | _ => false
  end.

(** The text of an object that holds the pairs [es] in the order of the
    list, each value in its compact text; a key may come more than
    once. *)
Definition object_text {It : Iteration} (es : list (std_string * json))
  : std_string :=
  "{"%char
  :: join ((fun kx : std_string * json =>
              dquote :: kx.1 ++ dquote :: str ": " ++ to_string kx.2 (-1))
           <$> es)
  ++ str "}".

(** No key has a double quote and every value is one that [roundtrips]. *)
Definition pairs_roundtrip (es : list (std_string * json)) : bool :=
  forallb (fun kx : std_string * json => no_dquote kx.1 && roundtrips kx.2) es.

(** What follows a value inside a container. *)
Definition delimited (post : std_string) : Prop :=
  exists c rest, post = c :: rest /\ (c = "," \/ c = "]" \/ c = "}")%char.

(** What the loops of the container rules need of the call of an element
    rule: on the compact text of the element it returns the element and
    stops on its last character. *)
Definition reads {It : Iteration}
    (callf : parser -> std_string -> nat -> outcome (json * nat))
    (txt : std_string) (f : parser) (y : json) : Prop :=
  (exists c s,
     render (str ": ") y = c :: s /\ isspace c = false
     /\ getParser c = Ok f)
  /\ forall i post,
       drop i txt = render (str ": ") y ++ post -> delimited post ->
       callf f txt i
       = Ok (y, Nat.pred (i + length (render (str ": ") y))%nat).

(** The value of the demonstration program, with a list beside it:
    [{"test": {"number": 45.5, "string": "hi there!"}, "list": [1, 2],
      "boolean": true, "none": [null]}]. *)
Definition demo : json :=
  Object
    (<[ str "test" :=
          Object (<[ str "string" := String (str "hi there!") ]>
                    {[ str "number" := Number (dbl 91 2) ]}) ]>
       (<[ str "list" := Array [Number (dbl 1 1); Number (dbl 2 1)] ]>
          (<[ str "boolean" := Boolean true ]>
             {[ str "none" := Array [Null] ]}))).

(** A closing bracket at [k] in the text. *)
Definition closes (p : std_string) (k : nat) : Prop :=
  p !! k = Some "]"%char \/ p !! k = Some "}"%char.

(** The call [callf] on [p] and the call [callf'] on [p ++ rest] agree on
    every success that stops at or before a closing bracket of [p]. *)
Definition extends (p rest : std_string)
    (callf callf' : parser -> std_string -> nat -> outcome (json * nat))
  : Prop :=
  forall f i v j,
    callf f p i = Ok (v, j) ->
    (i <= j)%nat
    /\ forall k, (j <= k)%nat -> closes p k ->
                 callf' f (p ++ rest) i = Ok (v, j).

(** ** Copies

    [json(const json&)] and [operator=(const json&)] go through
    [copy_json_data], which picks [copy<T>()] by the tag; [copy<T>()]
    copy-constructs the payload, and the copy constructors of [Array] and
    [Object] copy every element with [json(const json&)] again.  The
    recursion is driven by a budget, as in the parser. *)

Section copying.
Context {It : Iteration}.
(** [json(const json&)] on an element. *)
Variable copy_json : json -> outcome json.

(** [T(get<T>())]: the copy constructor of the payload.  The elements are
    copied one after the other and the first exception ends the copy. *)
Definition copy_payload (T : data_type) : payload T -> outcome (payload T) :=
  match T as T' return payload T' -> outcome (payload T') with
  | T_Boolean => Ok
  | T_Number => Ok
  | T_String => Ok
  | T_Array => mapM copy_json
  | T_Object => fun o =>
      es ← mapM (fun kx : std_string * json =>
                   x ← copy_json kx.2; Ok (kx.1, x)) (iterate o);
      Ok (list_to_map es)
  end.

(** [smartUnion::copy<T>()]. *)
Definition copy (T : data_type) (v : json) : outcome json :=
  let tType := find_type T in
  if bool_decide (tType ≠ getType v) then
    Throw (invalid_argument
             (str "wrong type T: "
              ++ std.to_string_int (json_type.to_int tType)
              ++ str " type: "
              ++ std.to_string_int (json_type.to_int (getType v))))
  else
    p ← get T v;
    p' ← copy_payload T p;
    Ok (json_of T p').
End copying.

(** [copy_json_data(data)], [fuel] deep. *)
Fixpoint copy_json_data {It : Iteration} (fuel : nat) (data : json)
  : outcome json :=
  match fuel with
  | O => OutOfFuel
  | S fuel' =>
      match getType data with
      | json_type.boolean => copy (copy_json_data fuel') T_Boolean data
      | json_type.number => copy (copy_json_data fuel') T_Number data
      | json_type.string => copy (copy_json_data fuel') T_String data
      | json_type.array => copy (copy_json_data fuel') T_Array data
      | json_type.object => copy (copy_json_data fuel') T_Object data
      | json_type.null => Ok Null
      end
  end.

(** The copy constructor [json(const json& otherJSON)]. *)
Definition copy_construct {It : Iteration} (otherJSON : json) : outcome json :=
  copy_json_data (json_size otherJSON) otherJSON.

(** The copy assignment [operator=(const json& otherJSON)]: the copy is
    made first and then moved into [this]. *)
Definition copy_assign {It : Iteration} (this otherJSON : json)
  : outcome json :=
  tmp ← copy_json_data (json_size otherJSON) otherJSON;
  Ok (move_assign this tmp).1.

(** ** Access by key *)

(** [Object::at(s)]; the text of the exception is the library's. *)
Definition at_key (o : gmap std_string json) (s : std_string) : outcome json :=
  match o !! s with
  | Some x => Ok x
  | None => Throw (out_of_range (str "unordered_map::at"))
  end.

(** [operator[](const std::string& s) const] and its [const char*] twin. *)
Definition operator_index_key (v : json) (s : std_string) : outcome json :=
  o ← get T_Object v;
  at_key o s.

(** [operator[](const std::string& s)] and its [const char*] twin on a
    value that is not [const]: [Object::operator[]] default-constructs the
    value of a key that is absent.  The element, and the value after the
    call. *)
Definition operator_index_key_mut (v : json) (s : std_string)
  : outcome (json * json) :=
  o ← get T_Object v;
  match o !! s with
  | Some x => Ok (x, Object o)
  | None => Ok (Null, Object (<[s := Null]> o))
  end.

(** ** The values [parse] can return *)

(** No array is empty, the elements of every array are of one variant,
    and no string and no key has a double quote. *)
Fixpoint readable (v : json) : bool :=
  match v with
  | String s => no_dquote s
  | Array a =>
      match a with
      | [] => false
      | x :: _ =>
          forallb (fun y => readable y && bool_decide (lead y = lead x)) a
      end
  | Object o =>
      forallb (fun kb : std_string * bool => no_dquote kb.1 && kb.2)
        (map_to_list (readable <$> o))
  | _ => true
  end.

(** Every number of the tree is one that [number_roundtrips]. *)
Fixpoint numbers_survive (v : json) : bool :=
  match v with
  | Number d => number_roundtrips d
  | Array a => forallb numbers_survive a
  | Object o =>
      forallb (fun kb : std_string * bool => kb.2)
        (map_to_list (numbers_survive <$> o))
  | _ => true
  end.

(** ** The indented text *)

(** What comes after the first of the [items] that [array_items] and
    [object_items] write, up to [close]. *)
Fixpoint items_tail (indentTabs lineBreak : std_string)
    (items : list std_string) (close : std_string) : std_string :=
  match items with
  | [] => lineBreak ++ close
  | x :: rest =>
      ","%char :: lineBreak ++ indentTabs ++ x
      ++ items_tail indentTabs lineBreak rest close
  end.

(** What follows a value inside a container of an indented text: white
    space, then a comma or a closing bracket. *)
Definition follows (post : std_string) : Prop :=
  exists ws rest,
    post = ws ++ rest /\ forallb isspace ws = true /\ delimited rest.

(** What the loops of the container rules need of the call of an element
    rule at or after [base]: on the text [T y] of the element it returns
    the element and stops on the last character of that text. *)
Definition reads_at
    (callf : parser -> std_string -> nat -> outcome (json * nat))
    (txt : std_string) (T : json -> std_string) (base : nat)
    (f : parser) (y : json) : Prop :=
  (exists c s, T y = c :: s /\ isspace c = false /\ getParser c = Ok f)
  /\ forall i post,
       (base <= i)%nat -> drop i txt = T y ++ post -> follows post ->
       callf f txt i = Ok (y, (length txt - S (length post))%nat).

(** The characters that only the indentation writes. *)
Definition layout (c : ascii) : bool := Ascii.eqb c tab || Ascii.eqb c newline.

(** The text without them. *)
Definition unindent (s : std_string) : std_string :=
  List.filter (fun c => negb (layout c)) s.

(** An order of iteration that the values of a map have no part in, as
    that of a hash table by its keys. *)
Class KeyOrder (It : Iteration) : Prop :=
  iterate_fmap :
    forall (A B : Type) (f : A -> B) (m : gmap std_string A),
      iterate (f <$> m) = prod_map id f <$> iterate m.

(** The sign bit of a double; that of a NaN is not kept. *)
Definition signbit (d : std.double) : bool :=
  match d with
  | S754_zero s | S754_infinity s | S754_finite s _ _ => s
  | S754_nan => false
  end.

(** ** The [int] of [to_string]

    [indent] is an [int].  A container that [to_string] enters with
    [indent >= 0] executes [++indent] before it writes anything, and hands
    the incremented value to its elements; on [INT_MAX] the increment is a
    signed overflow, which is undefined behaviour.  The [--indent] that
    closes the container undoes it and cannot overflow. *)

Definition INT_MAX : Z := 2147483647.

(** Whether one of the [++indent] of the run [to_string(out, indent)]
    overflows. *)
Fixpoint overflows (v : json) (indent : Z) {struct v} : bool :=
  match v with
  | Array a =>
      (0 <=? indent)
      && ((INT_MAX <=? indent)
          || existsb (fun x => overflows x (indent + 1)) a)
  | Object o =>
      (0 <=? indent)
      && ((INT_MAX <=? indent)
          || existsb snd
               (map_to_list ((fun x => overflows x (indent + 1)) <$> o)))
  | _ => false
  end.

(** [to_string(out, indent)] with the [int] of the source: the run is
    undefined when a [++indent] overflows and writes the text of
    [to_string] when none does. *)
Definition to_string_int {It : Iteration} (v : json) (indent : Z)
  : outcome std_string :=
  if overflows v indent then Undefined else Ok (to_string v indent).

(** [operator<<]: [json.to_string(os, 0)]. *)
Definition operator_shl_int {It : Iteration} (v : json)
  : outcome std_string :=
  to_string_int v 0.

(** How deep the containers of a value are nested: 0 for a scalar, 1 for
    a container of scalars. *)
Fixpoint nesting (v : json) : nat :=
  match v with
  | Array a => S (max_list_with nesting a)
  | Object o => S (max_list (map_to_list (nesting <$> o)).*2)
  | _ => O
  end.

(* ================================================================= *)
(** * Properties *)

(** ** Typed access *)

Lemma find_type_getType (T : data_type) (v : json) :
  find_type T = getType v <-> is_Some (stored T v).
Proof.
  destruct T, v; cbn; split; intros H;
    first [ discriminate H | by eexists | by destruct H as [? [=]] | done ].
Qed.

Lemma stored_json_of (T : data_type) (v : json) (p : payload T) :
  stored T v = Some p <-> v = json_of T p.
Proof.
  destruct T, v; cbn in *; split; intros H; by inversion H.
Qed.

Lemma get_Ok (T : data_type) (v : json) (p : payload T) :
  get T v = Ok p <-> v = json_of T p.
Proof.
  rewrite <- stored_json_of. unfold get. case_bool_decide as Hne.
  - split; [done|]. intros Hs. exfalso. apply Hne.
    apply find_type_getType. by eexists.
  - destruct (stored T v) eqn:Hs; [split; congruence|].
    apply find_type_getType in Hne as [? ?]. congruence.
Qed.

Lemma part_000_get_Ok (T : data_type) (v : json) (p : payload T) :
  part_000.get T v = Ok p <-> v = json_of T p.
Proof.
  rewrite <- stored_json_of. unfold part_000.get. case_bool_decide as Hne.
  - split; [done|]. intros Hs. exfalso. apply Hne.
    apply find_type_getType. by eexists.
  - destruct (stored T v) eqn:Hs; [split; congruence|].
    apply find_type_getType in Hne as [? ?]. congruence.
Qed.

Lemma getType_json_of (T : data_type) (p : payload T) :
  getType (json_of T p) = find_type T.
Proof. by destruct T. Qed.

Lemma part_000_names (t : json_type.t) :
  part_000.enum_type_to_string t = typeToString t.
Proof. by destruct t; vm_compute. Qed.

Lemma tag_digit (t : json_type.t) :
  std.to_string_int (json_type.to_int t)
  = [ascii_of_N (48 + Z.to_N (json_type.to_int t))].
Proof. by destruct t. Qed.

Lemma json_type_to_int_inj (t t' : json_type.t) :
  ascii_of_N (48 + Z.to_N (json_type.to_int t))
  = ascii_of_N (48 + Z.to_N (json_type.to_int t')) -> t = t'.
Proof. by destruct t, t'. Qed.

(** The text of the error of [get] tells both tags apart. *)
Lemma get_error_tells_tags (T T' : data_type) (v v' : json) (e : exception) :
  get T v = Throw e -> get T' v' = Throw e ->
  find_type T = find_type T' /\ getType v = getType v'.
Proof.
  unfold get.
  case_bool_decide as Hv; [|by destruct (stored T v)].
  case_bool_decide as Hv'; [|by destruct (stored T' v')].
  intros [= <-]. rewrite !tag_digit. cbn. intros [= H1 H2].
  split; by apply json_type_to_int_inj.
Qed.

(** C2, amended.  [get<T>()] returns the payload exactly when [T] is the
    active variant, it is never undefined, and on a mismatch it throws
    [std::invalid_argument]; the text of that error carries the requested
    and the actual variant as their enumerator values in [json.hpp] and as
    their names in the other revision of the header. *)
Theorem get_iff_active_variant (T : data_type) (v : json) :
  (forall p, get T v = Ok p <-> v = json_of T p)
  /\ ((exists p, get T v = Ok p) <-> find_type T = getType v)
  /\ (find_type T <> getType v ->
      get T v =
        Throw (invalid_argument
                 (str "wrong type T: "
                  ++ std.to_string_int (json_type.to_int (find_type T))
                  ++ str " type: "
                  ++ std.to_string_int (json_type.to_int (getType v))))
      /\ part_000.get T v =
           Throw (invalid_argument
                    (str "Tried to access " ++ typeToString (find_type T)
                     ++ str " but dynamic type was "
                     ++ typeToString (getType v))))
  /\ (forall p, part_000.get T v = Ok p <-> v = json_of T p)
  /\ get T v <> Undefined /\ part_000.get T v <> Undefined.
Proof.
  split; [apply get_Ok|]. split.
  { split.
    - intros [p Hp]. apply get_Ok in Hp as ->. by rewrite getType_json_of.
    - intros Heq. apply find_type_getType in Heq as [p Hp].
      exists p. by apply get_Ok, stored_json_of. }
  split.
  { intros Hne. unfold get, part_000.get. rewrite !part_000_names.
    by rewrite bool_decide_true. }
  split; [apply part_000_get_Ok|].
  unfold get, part_000.get.
  case_bool_decide as Hne; [done|].
  destruct (stored T v) eqn:Hs; [done|].
  apply find_type_getType in Hne as [? ?]. congruence.
Qed.

(** C2 as stated fails on [json.hpp]: the error of [get<Boolean>()] on a
    null value spells neither variant name. *)
Lemma get_error_spells_no_name :
  exists what,
    get T_Boolean Null = Throw (invalid_argument what)
    /\ what = str "wrong type T: 1 type: 0"
    /\ occurs (typeToString json_type.boolean) what = false
    /\ occurs (typeToString json_type.null) what = false.
Proof. eexists. by vm_compute. Qed.

(** ** Indexing by position *)

Lemma operator_index_Array (a : list json) (index : nat) :
  operator_index (Array a) index
  = if (index <? length a)%nat
    then match a !! index with Some x => Ok x | None => Undefined end
    else Throw (out_of_range
                  (str "index: " ++ std.to_string_int (Z.of_nat index)
                   ++ str " length: "
                   ++ std.to_string_int (Z.of_nat (length a)))).
Proof.
  unfold operator_index.
  change (get T_Array (Array a)) with (Ok a : outcome (list json)).
  change (getType (Array a)) with json_type.array.
  by rewrite bool_decide_true.
Qed.

(** In the other revision the index is not compared with the length. *)
Lemma part_000_operator_index_Array (a : list json) (index : nat) :
  part_000.operator_index (Array a) index
  = match a !! index with Some x => Ok x | None => Undefined end.
Proof. done. Qed.

Lemma part_000_operator_index_unchecked (a : list json) (index : nat) :
  (length a <= index)%nat ->
  part_000.operator_index (Array a) index = Undefined.
Proof.
  intros Hge. rewrite part_000_operator_index_Array.
  change (payload T_Array) with (list json).
  by rewrite (lookup_ge_None_2 a index Hge).
Qed.

(** C4, amended.  On an array, [operator[](index)] returns the element at
    [index < length] in both revisions of the header.  At
    [index >= length] the one of [json.hpp] throws [std::out_of_range]
    with the index and the length, while the other revision does not
    compare the index with the length: the access to the vector is
    undefined behaviour and nothing is thrown.  On any other variant
    [json.hpp] throws the cast error (the type mismatch) and the other
    revision the [std::invalid_argument] of [get<Array>()]. *)
Theorem operator_index_bounds (v : json) (index : nat) :
  (forall a, v = Array a ->
     ((index < length a)%nat ->
        exists x,
          a !! index = Some x
          /\ operator_index v index = Ok x
          /\ part_000.operator_index v index = Ok x)
     /\ ((length a <= index)%nat ->
           operator_index v index
           = Throw (out_of_range
                      (str "index: " ++ std.to_string_int (Z.of_nat index)
                       ++ str " length: "
                       ++ std.to_string_int (Z.of_nat (length a))))
           /\ part_000.operator_index v index = Undefined))
  /\ (getType v <> json_type.array ->
      operator_index v index = Throw (castError v json_type.array)
      /\ part_000.operator_index v index
         = Throw (invalid_argument
                    (str "Tried to access array but dynamic type was "
                     ++ typeToString (getType v))))
  /\ (forall x y z,
        (exists what,
           operator_index (Array [x; y; z]) 3 = Throw (out_of_range what))
        /\ part_000.operator_index (Array [x; y; z]) 3 = Undefined).
Proof.
  split; [|split].
  - intros a ->. rewrite operator_index_Array. split.
    + intros Hlt. destruct (lookup_lt_is_Some_2 a index Hlt) as [x Hx].
      exists x. split; [done|].
      rewrite part_000_operator_index_Array.
      change (payload T_Array) with (list json).
      destruct (Nat.ltb_spec index (length a)); [by rewrite Hx | lia].
    + intros Hge. split; [|by apply part_000_operator_index_unchecked].
      destruct (Nat.ltb_spec index (length a)); [lia | done].
  - intros Hne. split.
    + unfold operator_index. by rewrite bool_decide_false.
    + by destruct v.
  - intros x y z. split; [by eexists|done].
Qed.

(** C4 as stated fails in the other revision: position 3 of the array
    [[1, 2, 3]] is read with no check and nothing is thrown, where
    [json.hpp] throws. *)
Lemma operator_index_unchecked_at_length :
  part_000.operator_index
    (Array [Number (dbl 1 1); Number (dbl 2 1); Number (dbl 3 1)]) 3
  = Undefined
  /\ operator_index
       (Array [Number (dbl 1 1); Number (dbl 2 1); Number (dbl 3 1)]) 3
     = Throw (out_of_range (str "index: 3 length: 3")).
Proof. split; by vm_compute. Qed.

(** ** Moving *)

(** C7, amended.  The destination of a move holds the moved value.  Move
    assignment always leaves the source null; the move constructor leaves
    it null exactly for the boxed variants (string, array, object) and for
    null itself, and leaves a boolean or a number as it was. *)
Theorem move_source_state (v dst : json) :
  (move_construct v).1 = v
  /\ move_assign dst v = (v, Null)
  /\ (move_construct v).2 = (if using_pointer (getType v) then Null else v)
  /\ ((move_construct v).2 = Null <->
      getType v <> json_type.boolean /\ getType v <> json_type.number).
Proof.
  unfold move_construct, move_assign.
  destruct v; cbn; repeat split; try done; intros [? ?]; done.
Qed.

(** C7 as stated fails: a boolean moved from by the move constructor is
    still that boolean. *)
Lemma move_construct_keeps_boolean :
  move_construct (Boolean true) = (Boolean true, Boolean true)
  /\ (move_construct (Boolean true)).2 <> Null.
Proof. by vm_compute. Qed.

(** ** The rules for [null], [true] and [false] *)

(** C6, amended.  The rules [parseNull] and [parseBoolean], which
    [getParser] selects on ['n'], ['t'] and ['f'], accept the texts [null],
    [true] and [false] and yield the scalar, whatever follows the literal;
    inside a container [parse] yields them too. *)
Theorem scalar_rules_ignore_trailing_text (rest : std_string) :
  parseNull (str "null" ++ rest) 0 = Ok (Null, 3%nat)
  /\ parseBoolean (str "true" ++ rest) 0 = Ok (Boolean true, 3%nat)
  /\ parseBoolean (str "false" ++ rest) 0 = Ok (Boolean false, 4%nat)
  /\ getParser "n" = Ok p_parseNull
  /\ getParser "t" = Ok p_parseBoolean
  /\ getParser "f" = Ok p_parseBoolean
  /\ parse (str "[null]" ++ rest) = Ok (Array [Null])
  /\ parse (str "[true]" ++ rest) = Ok (Array [Boolean true])
  /\ parse (str "[false]" ++ rest) = Ok (Array [Boolean false]).
Proof. repeat split. Qed.

(** C6 as stated fails: [parse] rejects each of the three texts. *)
Lemma parse_rejects_bare_literals :
  parse (str "null") = Throw (runtime_error (str "Invalid json"))
  /\ parse (str "true") = Throw (runtime_error (str "Invalid json"))
  /\ parse (str "false") = Throw (runtime_error (str "Invalid json")).
Proof. by vm_compute. Qed.

(** ** [Object::insert] *)

Lemma insert_pair_present (name : std_string) (value value' : json)
    (data : gmap std_string json) :
  data !! name = Some value ->
  insert_pair name value' data = data.
Proof. intros H. unfold insert_pair. by rewrite H. Qed.

Lemma insert_pair_absent (name : std_string) (value : json)
    (data : gmap std_string json) :
  data !! name = None ->
  insert_pair name value data = <[name := value]> data.
Proof. intros H. unfold insert_pair. by rewrite H. Qed.

(** ** The object the parser builds *)

Lemma insert_pair_union (k : std_string) (x : json)
    (m : gmap std_string json) :
  insert_pair k x m = m ∪ {[ k := x ]}.
Proof.
  unfold insert_pair. destruct (m !! k) as [y|] eqn:Hk.
  - apply map_eq. intros i. rewrite lookup_union.
    destruct (decide (i = k)) as [->|Hne].
    + by rewrite Hk, lookup_singleton_eq.
    + rewrite lookup_singleton_ne by done. by destruct (m !! i).
  - by apply insert_union_singleton_r.
Qed.

(** The pairs of an object text, inserted in the order of the text, make
    the map in which the first pair of a key wins. *)
Lemma foldl_insert_pair (es : list (std_string * json))
    (m : gmap std_string json) :
  foldl (fun data kx => insert_pair kx.1 kx.2 data) m es = m ∪ list_to_map es.
Proof.
  revert m. induction es as [|[k x] es IH]; intros m; cbn.
  - by rewrite (right_id_L ∅ (∪)).
  - rewrite IH, insert_pair_union, <- (assoc_L (∪)).
    by rewrite <- insert_union_singleton_l.
Qed.

Lemma foldl_insert_pair_map_to_list (o : gmap std_string json) :
  foldl (fun data kx => insert_pair kx.1 kx.2 data) ∅ (map_to_list o) = o.
Proof.
  by rewrite foldl_insert_pair, (left_id_L ∅ (∪)), list_to_map_to_list.
Qed.

(** ** The first character of the text *)

(** C8 fails on this text: the junk character before the bracket is
    skipped and the array is returned. *)
Lemma parse_skips_leading_junk :
  parse (json_text "x[1]") = Ok (Array [Number (dbl 1 1)]).
Proof. by vm_compute. Qed.

(** C5 fails on this text, the string literal ["{}"]: its opening quote
    is skipped the same way and the empty object inside is returned. *)
Lemma parse_accepts_string_literal :
  parse (json_text "'{}'") = Ok (Object ∅)
  /\ parse (json_text "'[1'") = Ok (Array [Number (dbl 1 1)]).
Proof. split; by vm_compute. Qed.

(** ** Induction on values *)

Lemma json_size_elem (a : list json) (x : json) :
  x ∈ a -> (json_size x < json_size (Array a))%nat.
Proof.
  induction 1 as [x a|x y a _ IH]; cbn; [lia|].
  eapply Nat.lt_le_trans; [exact IH|]. apply le_n_S, Nat.le_add_l.
Qed.

Lemma json_size_entry (l : list (std_string * json)) (k : std_string)
    (x : json) :
  (k, x) ∈ l ->
  (json_size x
   <= foldr (uncurry (fun _ y n => (json_size y + n)%nat)) O l)%nat.
Proof.
  induction l as [|[k' y] l IH]; [by intros ?%elem_of_nil|].
  intros [[= <- <-]|Hin]%elem_of_cons; cbn; [lia|].
  specialize (IH Hin). etrans; [exact IH|]. apply Nat.le_add_l.
Qed.

Lemma json_size_lookup (o : gmap std_string json) (k : std_string) (x : json) :
  o !! k = Some x -> (json_size x < json_size (Object o))%nat.
Proof.
  intros Hk. cbn [json_size]. rewrite map_fold_foldr.
  apply elem_of_map_to_list in Hk. apply Nat.lt_succ_r.
  by eapply json_size_entry.
Qed.

Lemma json_tree_ind (P : json -> Prop) :
  P Null ->
  (forall b, P (Boolean b)) ->
  (forall d, P (Number d)) ->
  (forall s, P (String s)) ->
  (forall a, Forall P a -> P (Array a)) ->
  (forall o, map_Forall (fun _ => P) o -> P (Object o)) ->
  forall v, P v.
Proof.
  intros HN HB HD HS HA HO v.
  remember (json_size v) as n eqn:Hn. revert v Hn.
  induction (lt_wf n) as [n _ IH]. intros v ->.
  assert (forall x, (json_size x < json_size v)%nat -> P x) as IH'.
  { intros x Hx. by eapply IH. }
  clear IH. destruct v; auto.
  - apply HA, Forall_forall. intros x Hx. by apply IH', json_size_elem.
  - apply HO. intros k x Hk. eapply IH', json_size_lookup, Hk.
Qed.

(** ** The compact text *)

Section compact_text.
Context {It : Iteration}.

Lemma array_items_join (items : list std_string) :
  array_items [] [] items = join items.
Proof.
  induction items as [|x [|y rest] IH]; [done| |].
  - cbn. by rewrite !app_nil_r.
  - change (array_items [] [] (x :: y :: rest))
      with (x ++ ","%char :: array_items [] [] (y :: rest)).
    by rewrite IH.
Qed.

Lemma object_items_join (items : list (std_string * std_string)) :
  object_items [] [] items = join (entry (str ": ") <$> items).
Proof.
  induction items as [|[k x] [|y rest] IH]; [done| |].
  - cbn. by rewrite !app_nil_r.
  - change (object_items [] [] ((k, x) :: y :: rest))
      with (dquote :: k ++ dquote :: str ": " ++ x
            ++ ","%char :: object_items [] [] (y :: rest)).
    rewrite IH. cbn. by rewrite <- !app_assoc.
Qed.

Lemma to_string_render (v : json) (indent : Z) :
  indent < 0 -> to_string v indent = render (str ": ") v.
Proof.
  intros Hneg. apply Z.ltb_lt in Hneg.
  induction v as [| | | |a IH|o IH] using json_tree_ind; try done.
  - cbn [to_string render]. rewrite !Hneg, array_items_join. cbn [app].
    apply Forall_fmap_ext in IH. by rewrite IH.
  - cbn [to_string render]. rewrite !Hneg, object_items_join. cbn [app].
    by rewrite (map_fmap_ext _ (render (str ": ")) o IH).
Qed.

Lemma elem_of_join (c : ascii) (items : list std_string) :
  c ∈ join items -> c = ","%char \/ exists x, x ∈ items /\ c ∈ x.
Proof.
  destruct items as [|x rest]; [by intros ?%elem_of_nil|].
  cbn. intros [Hx|Hrest]%elem_of_app.
  { right. exists x. split; [left|done]. }
  induction rest as [|y rest IH]; [by apply elem_of_nil in Hrest|].
  cbn in Hrest. apply elem_of_cons in Hrest as [->|Hrest]; [by left|].
  apply elem_of_app in Hrest as [Hy|Hrest].
  - right. exists y. split; [right; left|done].
  - destruct (IH Hrest) as [?|(z & Hz & Hc)]; [by left|].
    right. exists z. split; [|done].
    apply elem_of_cons in Hz as [->|Hz]; [left|right; by right].
Qed.

Lemma digits_of_uint (d : Decimal.uint) (c : ascii) :
  c ∈ str (NilEmpty.string_of_uint d) -> std.isdigit c = true.
Proof.
  induction d; cbn [NilEmpty.string_of_uint]; intros Hc;
    [by apply elem_of_nil in Hc|..];
    change (str (String.String ?a ?s)) with (a :: str s) in Hc;
    apply elem_of_cons in Hc as [->|Hc]; auto.
Qed.

Lemma digits_of_uint0 (d : Decimal.uint) (c : ascii) :
  c ∈ str (NilZero.string_of_uint d) -> std.isdigit c = true.
Proof.
  destruct d; try apply digits_of_uint.
  change (str (NilZero.string_of_uint Decimal.Nil)) with ["0"%char].
  by intros ->%list_elem_of_singleton.
Qed.

Lemma to_string_int_chars (n : Z) (c : ascii) :
  c ∈ std.to_string_int n -> std.isdigit c = true \/ c = "-"%char.
Proof.
  unfold std.to_string_int, NilZero.string_of_int.
  destruct (Z.to_int n) as [d|d].
  - intros Hc. left. by eapply digits_of_uint0.
  - change (str (String.String "-" ?s)) with ("-"%char :: str s).
    intros [->|Hc]%elem_of_cons; [by right|]. left.
    by eapply digits_of_uint0.
Qed.

Lemma to_string_number_chars (d : std.double) (c : ascii) :
  c ∈ std.to_string d -> isspace c = false.
Proof.
  assert (forall n, c ∈ std.to_string_int n -> isspace c = false) as Hint.
  { intros n [Hd| ->]%to_string_int_chars; [|done].
    destruct c as [[] [] [] [] [] [] [] []]; done. }
  assert (c ∈ std.sign true -> isspace c = false) as Hs.
  { by intros ->%list_elem_of_singleton. }
  destruct d as [[]|[]| |s m e]; cbn [std.to_string std.sign];
    try (intros Hc; repeat (apply elem_of_cons in Hc as [->|Hc]; [done|]);
         by apply elem_of_nil in Hc).
  intros [Hc|Hc]%elem_of_app.
  { destruct s; [auto|by apply elem_of_nil in Hc]. }
  apply elem_of_app in Hc as [Hc|Hc]; [by eapply Hint|].
  apply elem_of_cons in Hc as [->|Hc]; [done|].
  eapply Hint, list_elem_of_lookup. apply list_elem_of_lookup in Hc as [i Hi].
  rewrite lookup_drop in Hi. eauto.
Qed.

Lemma texts_entries (l : list (std_string * json)) (k : std_string) (x : json) :
  (k, x) ∈ l ->
  let all := foldr (uncurry (fun k x acc => k :: texts x ++ acc)) [] l in
  k ∈ all /\ (forall s, s ∈ texts x -> s ∈ all).
Proof.
  induction l as [|[k' y] l IH]; [by intros ?%elem_of_nil|].
  intros [[= <- <-]|Hin]%elem_of_cons; cbn.
  - split; [left|]. intros s Hs. right. apply elem_of_app. by left.
  - destruct (IH Hin) as [Hk Hx]. split.
    + right. apply elem_of_app. by right.
    + intros s Hs. right. apply elem_of_app. right. by apply Hx.
Qed.

Lemma texts_object (o : gmap std_string json) (k : std_string) (x : json) :
  o !! k = Some x ->
  k ∈ texts (Object o) /\ (forall s, s ∈ texts x -> s ∈ texts (Object o)).
Proof.
  intros Hk. cbn [texts]. rewrite map_fold_foldr.
  by apply texts_entries, elem_of_map_to_list.
Qed.

(** A white-space character of the rendering that the colon text does not
    have comes from a string payload or a key. *)
Lemma render_space (colon : std_string) (v : json) (c : ascii) :
  c ∈ render colon v -> isspace c = true -> c ∉ colon ->
  exists s, s ∈ texts v /\ c ∈ s.
Proof.
  intros Hc Hsp Hcolon.
  induction v as [|b|d|s|a IH|o IH] using json_tree_ind.
  - cbn in Hc. repeat (apply elem_of_cons in Hc as [->|Hc]; [done|]).
    by apply elem_of_nil in Hc.
  - destruct b; cbn in Hc;
      repeat (apply elem_of_cons in Hc as [->|Hc]; [done|]);
      by apply elem_of_nil in Hc.
  - apply to_string_number_chars in Hc. congruence.
  - cbn in Hc. apply elem_of_cons in Hc as [->|Hc]; [done|].
    apply elem_of_app in Hc as [Hc|Hc].
    + exists s. split; [left|done].
    + by apply list_elem_of_singleton in Hc as ->.
  - cbn [render] in Hc. apply elem_of_cons in Hc as [->|Hc]; [done|].
    apply elem_of_app in Hc as [Hc|Hc];
      [|by apply list_elem_of_singleton in Hc as ->].
    apply elem_of_join in Hc as [->|(r & Hr & Hc)]; [done|].
    apply list_elem_of_fmap in Hr as (x & -> & Hx).
    rewrite Forall_forall in IH. destruct (IH x Hx Hc) as (s & Hs & Hcs).
    exists s. split; [|done]. cbn [texts].
    apply list_elem_of_In, in_flat_map. exists x.
    split; by apply list_elem_of_In.
  - cbn [render] in Hc. apply elem_of_cons in Hc as [->|Hc]; [done|].
    apply elem_of_app in Hc as [Hc|Hc];
      [|by apply list_elem_of_singleton in Hc as ->].
    apply elem_of_join in Hc as [->|(r & Hr & Hc)]; [done|].
    apply list_elem_of_fmap in Hr as ([k t] & -> & Hkt).
    rewrite iterate_perm in Hkt.
    apply elem_of_map_to_list in Hkt. rewrite lookup_fmap in Hkt.
    destruct (o !! k) as [x|] eqn:Hk; [|done]. cbn in Hkt.
    injection Hkt as <-. destruct (texts_object o k x Hk) as [Hkey Hsub].
    unfold entry in Hc. cbn [fst snd] in Hc.
    apply elem_of_cons in Hc as [->|Hc]; [done|].
    apply elem_of_app in Hc as [Hc|Hc]; [by exists k|].
    apply elem_of_cons in Hc as [->|Hc]; [done|].
    apply elem_of_app in Hc as [Hc|Hc]; [done|].
    destruct (IH k x Hk Hc) as (s & Hs & Hcs). exists s. auto.
Qed.

(** C9, amended.  With [indent < 0] the text is the compact one: the
    tokens of the value with a comma between the elements of a container
    and nothing else inserted, except that the colon of every key is
    followed by one space.  No line break and no tab is inserted: a
    white-space character other than that space comes from a string
    payload or a key. *)
Theorem to_string_compact (v : json) (indent : Z) :
  indent < 0 ->
  to_string v indent = render (str ": ") v
  /\ (forall c, c ∈ to_string v indent -> isspace c = true ->
        c <> " "%char -> exists s, s ∈ texts v /\ c ∈ s).
Proof.
  intros Hneg. rewrite (to_string_render v indent Hneg). split; [done|].
  intros c Hc Hsp Hne. apply (render_space (str ": ") v c Hc Hsp).
  change (str ": ") with [":"%char; " "%char].
  intros [->|[->|[]%elem_of_nil]%elem_of_cons]%elem_of_cons; done.
Qed.

End compact_text.

Lemma to_string_compact_witness :
  to_string (It := listing_order)
    (Array [Null; Object {[ str "k" := String (str "a b") ]}]) (-1)
  = render (It := listing_order) (str ": ")
      (Array [Null; Object {[ str "k" := String (str "a b") ]}])
  /\ (forall c,
        c ∈ to_string (It := listing_order)
              (Array [Null; Object {[ str "k" := String (str "a b") ]}]) (-1) ->
        isspace c = true -> c <> " "%char ->
        exists s,
          s ∈ texts (Array [Null; Object {[ str "k" := String (str "a b") ]}])
          /\ c ∈ s).
Proof.
  apply (to_string_compact (It := listing_order)
           (Array [Null; Object {[ str "k" := String (str "a b") ]}]) (-1)).
  reflexivity.
Defined.

(** C9 as stated fails: the compact text of an object has a space between
    the colon of a key and the value. *)
Lemma to_string_compact_has_space :
  to_string (It := listing_order) (Object {[ str "a" := Null ]}) (-1)
  = json_text "{'a': null}"
  /\ to_string (It := listing_order) (Object {[ str "a" := Null ]}) (-1)
     <> render (It := listing_order) (str ":") (Object {[ str "a" := Null ]}).
Proof. split; by vm_compute. Qed.

(** ** The text from a cursor on *)

Local Close Scope Z_scope.

(** Linear arithmetic on cursors, without the induction hypotheses in the
    way. *)
Ltac cursor_lia :=
  repeat match goal with
         | H : forall _ : nat, _ |- _ => clear H
         | H : forall _ : list _, _ |- _ => clear H
         | H : forall _ : gmap _ _, _ |- _ => clear H
         | H : forall _ : json, _ |- _ => clear H
         | H : Forall _ _ |- _ => clear H
         | H : map_Forall _ _ |- _ => clear H
         end;
  lia.

Lemma drop_cons_inv (txt : std_string) (i : nat) (c : ascii) (s : std_string) :
  drop i txt = c :: s ->
  txt !! i = Some c /\ drop (S i) txt = s /\ i < length txt.
Proof.
  intros H.
  assert (txt !! i = Some c) as Hi.
  { rewrite <- (Nat.add_0_r i), <- lookup_drop. by rewrite H. }
  split; [done|]. split; [|by eapply lookup_lt_Some].
  replace (S i) with (i + 1) by lia. by rewrite <- drop_drop, H.
Qed.

Lemma drop_app_inv (txt : std_string) (i : nat) (x s : std_string) :
  drop i txt = x ++ s -> drop (i + length x) txt = s.
Proof. intros H. by rewrite <- drop_drop, H, drop_app_length. Qed.

Lemma length_of_drop (txt : std_string) (i : nat) (c : ascii) (s : std_string) :
  drop i txt = c :: s -> length txt = i + S (length s).
Proof.
  intros H. pose proof (length_drop txt i) as Hl. rewrite H in Hl.
  cbn in Hl. apply drop_cons_inv in H as (_ & _ & Hlt). lia.
Qed.

Lemma length_of_drop_app (txt : std_string) (i : nat) (x s : std_string) :
  drop i txt = x ++ s -> 0 < length x ->
  length txt = i + length x + length s /\ i < length txt.
Proof.
  intros H Hx. pose proof (length_drop txt i) as Hl.
  rewrite H, length_app in Hl. lia.
Qed.

Lemma at_Ok (txt : std_string) (i : nat) (c : ascii) :
  txt !! i = Some c -> at_ txt i = Ok c.
Proof. intros H. unfold at_. by rewrite H. Qed.

Lemma at_drop (txt : std_string) (i : nat) (c : ascii) (s : std_string) :
  drop i txt = c :: s -> at_ txt i = Ok c.
Proof. intros H. by apply at_Ok, (drop_cons_inv _ _ _ _ H). Qed.

Lemma at_Ok_le (txt : std_string) (i : nat) (c : ascii) :
  at_ txt i = Ok c -> i <= length txt.
Proof.
  unfold at_. destruct (txt !! i) eqn:Hi.
  - intros _. apply lookup_lt_Some in Hi. lia.
  - destruct (Nat.eqb_spec i (length txt)); [lia|done].
Qed.

Lemma at_app (p rest : std_string) (i : nat) :
  i < length p -> at_ (p ++ rest) i = at_ p i.
Proof.
  intros Hlt. unfold at_. rewrite lookup_app_l by done.
  by destruct (lookup_lt_is_Some_2 p i Hlt) as [c ->].
Qed.

(** [skipSpaces] *)

Lemma skipSpaces_from_bounds (rest : std_string) (index : nat) :
  index <= skipSpaces_from rest index <= index + length rest.
Proof.
  revert index. induction rest as [|c rest IH]; intros index; cbn; [lia|].
  destruct (isspace c); [|lia]. specialize (IH (S index)). lia.
Qed.

Lemma skipSpaces_gt (txt : std_string) (index : nat) :
  index < skipSpaces txt index.
Proof.
  unfold skipSpaces.
  pose proof (skipSpaces_from_bounds (drop (S index) txt) (S index)). lia.
Qed.

Lemma skipSpaces_le (txt : std_string) (index : nat) :
  index < length txt -> skipSpaces txt index <= length txt.
Proof.
  intros Hlt. unfold skipSpaces.
  pose proof (skipSpaces_from_bounds (drop (S index) txt) (S index)) as H.
  rewrite length_drop in H. lia.
Qed.

Lemma skipSpaces_next (txt : std_string) (j : nat) (c : ascii)
    (s : std_string) :
  drop (S j) txt = c :: s -> isspace c = false -> skipSpaces txt j = S j.
Proof. intros H Hc. unfold skipSpaces. rewrite H. cbn. by rewrite Hc. Qed.

Lemma skipSpaces_space (txt : std_string) (j : nat) (c : ascii)
    (s : std_string) :
  drop (S j) txt = " "%char :: c :: s -> isspace c = false ->
  skipSpaces txt j = S (S j).
Proof. intros H Hc. unfold skipSpaces. rewrite H. cbn. by rewrite Hc. Qed.

Lemma skipSpaces_from_app (r rest : std_string) (index : nat) :
  skipSpaces_from r index < index + length r ->
  skipSpaces_from (r ++ rest) index = skipSpaces_from r index.
Proof.
  revert index. induction r as [|c r IH]; intros index; cbn; [lia|].
  destruct (isspace c); [|done]. intros H. apply IH. lia.
Qed.

Lemma skipSpaces_app (p rest : std_string) (index : nat) :
  skipSpaces p index < length p ->
  skipSpaces (p ++ rest) index = skipSpaces p index.
Proof.
  intros H. pose proof (skipSpaces_gt p index) as Hgt.
  unfold skipSpaces in *. rewrite drop_app_le by lia.
  apply skipSpaces_from_app. rewrite length_drop. lia.
Qed.

(** ** The scalar rules on the text of a value *)

Lemma take_while_all {A} (p : A -> bool) (s : list A) :
  forallb p s = true -> take_while p s = s.
Proof.
  induction s as [|x s IH]; [done|]. cbn.
  intros [-> Hs]%andb_prop. by rewrite IH.
Qed.

Lemma take_while_app_stop {A} (p : A -> bool) (s : list A) (c : A)
    (rest : list A) :
  forallb p s = true -> p c = false -> take_while p (s ++ c :: rest) = s.
Proof.
  intros Hs Hc. induction s as [|x s IH]; cbn in *; [by rewrite Hc|].
  apply andb_prop in Hs as [-> Hs]. by rewrite IH.
Qed.

Lemma delimited_inv (post : std_string) :
  delimited post ->
  exists c rest,
    post = c :: rest /\ isspace c = false /\ std.literal_char c = false.
Proof.
  intros (c & rest & -> & [->|[->| ->]]); eexists _, _;
    (split; [reflexivity|by vm_compute]).
Qed.

Lemma stod_delimited (s post : std_string) :
  forallb std.literal_char s = true -> delimited post ->
  std.stod (s ++ post) = std.stod s.
Proof.
  intros Hs (c & rest & -> & _ & Hc)%delimited_inv. unfold std.stod.
  rewrite take_while_app_stop by done. by rewrite take_while_all.
Qed.

Lemma parseNull_text (txt : std_string) (i : nat) (post : std_string) :
  drop i txt = str "null" ++ post -> parseNull txt i = Ok (Null, i + 3).
Proof.
  intros H. unfold parseNull. rewrite H.
  apply length_of_drop in H. cbn in H.
  destruct (Nat.ltb_spec (i + 3) (length txt)); [done|lia].
Qed.

Lemma parseBoolean_text (txt : std_string) (i : nat) (b : bool)
    (post : std_string) :
  drop i txt = (if b then str "true" else str "false") ++ post ->
  parseBoolean txt i
  = Ok (Boolean b, i + length (if b then str "true" else str "false") - 1).
Proof.
  intros H. unfold parseBoolean. rewrite H.
  destruct b; apply length_of_drop in H; cbn in H;
    (destruct (Nat.ltb_spec i (length txt)); [|lia]); cbn;
    f_equal; f_equal; lia.
Qed.

Lemma number_roundtrips_inv (d : std.double) :
  number_roundtrips d = true ->
  (exists c s, std.to_string d = c :: s /\ std.isdigit c = true)
  /\ forallb std.literal_char (std.to_string d) = true
  /\ std.stod (std.to_string d) = Ok (d, length (std.to_string d)).
Proof.
  unfold number_roundtrips.
  intros [[H1 H2]%andb_prop H3]%andb_prop. split; [|split; [done|]].
  - destruct (std.to_string d) as [|c s]; [done|]. by exists c, s.
  - destruct (std.stod (std.to_string d)) as [[d' n]| | |]; try done.
    apply andb_prop in H3 as [->%bool_decide_eq_true ->%Nat.eqb_eq]. done.
Qed.

Lemma parseNumber_text (txt : std_string) (i : nat) (d : std.double)
    (post : std_string) :
  number_roundtrips d = true -> delimited post ->
  drop i txt = std.to_string d ++ post ->
  parseNumber txt i = Ok (Number d, i + length (std.to_string d) - 1).
Proof.
  intros ((c & s & Hs & _) & Hlit & Hstod)%number_roundtrips_inv Hpost H.
  unfold parseNumber, substr.
  assert (0 < length (std.to_string d)) as Hpos by (rewrite Hs; cbn; lia).
  destruct (length_of_drop_app _ _ _ _ H Hpos) as [Hlen Hlt].
  destruct (Nat.ltb_spec (length txt) i); [lia|]. cbn [mbind outcome_bind].
  rewrite H, stod_delimited, Hstod by done. cbn. do 2 f_equal. lia.
Qed.

Lemma parseString_loop_text (txt s rest : std_string) (index : nat)
    (data : std_string) :
  no_dquote s = true -> index + length s + 2 < length txt ->
  parseString_loop txt (s ++ dquote :: rest) index data
  = Ok (String (data ++ s), index + length s + 1).
Proof.
  revert index data. induction s as [|c s IH]; intros index data Hs Hlen.
  - cbn. rewrite app_nil_r. do 2 f_equal. lia.
  - cbn in Hs. apply andb_prop in Hs as [Hc Hs].
    cbn [app parseString_loop]. apply negb_true_iff in Hc. rewrite Hc.
    cbn [length] in Hlen.
    destruct (Nat.leb_spec (length txt) (S index + 2)); [lia|].
    rewrite IH by (done || lia). rewrite <- app_assoc. cbn [length].
    do 2 f_equal. lia.
Qed.

Lemma parseString_text (txt : std_string) (i : nat) (s post : std_string) :
  no_dquote s = true -> post <> [] ->
  drop i txt = dquote :: s ++ dquote :: post ->
  parseString txt i = Ok (String s, i + length s + 1).
Proof.
  intros Hs Hpost H. unfold parseString.
  pose proof (length_of_drop _ _ _ _ H) as Hlen.
  rewrite length_app in Hlen. cbn in Hlen.
  destruct post as [|c post]; [done|]. cbn in Hlen.
  destruct (Nat.ltb_spec (length txt) (S i)); [lia|].
  apply drop_cons_inv in H as (_ & -> & _).
  by rewrite parseString_loop_text by (done || lia).
Qed.

Lemma scan_name_text (k rest : std_string) (index : nat) (name : std_string) :
  no_dquote k = true ->
  scan_name (k ++ dquote :: rest) index name = (name ++ k, index + length k).
Proof.
  revert index name. induction k as [|c k IH]; intros index name Hk.
  - cbn. rewrite app_nil_r. f_equal. lia.
  - cbn in Hk. apply andb_prop in Hk as [Hc Hk].
    cbn [app scan_name]. apply negb_true_iff in Hc. rewrite Hc.
    rewrite IH by done. rewrite <- app_assoc. cbn [length]. f_equal. lia.
Qed.

(** ** The first character of the text of a value *)

Section round_trip.
Context {It : Iteration}.

Lemma isdigit_getParser (c : ascii) :
  std.isdigit c = true -> isspace c = false /\ getParser c = Ok p_parseNumber.
Proof. destruct c as [[] [] [] [] [] [] [] []]; by vm_compute. Qed.

Lemma render_head (colon : std_string) (v : json) :
  roundtrips v = true ->
  exists c s,
    render colon v = c :: s /\ isspace c = false /\ getParser c = Ok (lead v).
Proof.
  destruct v as [|[]|d|s|a|o]; cbn [render lead roundtrips]; intros Hv;
    try by eexists _, _.
  apply number_roundtrips_inv in Hv as ((c & s & -> & Hc) & _).
  exists c, s. split; [done|]. by apply isdigit_getParser.
Qed.

Lemma render_length (colon : std_string) (v : json) :
  roundtrips v = true -> 0 < length (render colon v).
Proof.
  intros (c & s & -> & _)%(render_head colon). cbn. lia.
Qed.

Lemma length_join_elem (items : list std_string) (r : std_string) :
  r ∈ items -> length r <= length (join items).
Proof.
  destruct items as [|x rest]; [by intros ?%elem_of_nil|].
  cbn [join]. rewrite length_app.
  intros [->|Hin]%elem_of_cons; [lia|].
  enough (length r <= length (flat_map (fun y => ","%char :: y) rest)) by lia.
  clear x. induction rest as [|y rest IH]; [by apply elem_of_nil in Hin|].
  cbn [flat_map]. rewrite length_app. cbn [length].
  apply elem_of_cons in Hin as [->|Hin]; [lia|]. specialize (IH Hin). lia.
Qed.

Lemma length_join_items (items : list std_string) :
  (forall r, r ∈ items -> 0 < length r) ->
  length items <= length (join items).
Proof.
  destruct items as [|x rest]; [cbn; lia|]. intros Hpos.
  cbn [join]. rewrite length_app. cbn [length].
  assert (0 < length x) by (apply Hpos; left).
  enough (length rest <= length (flat_map (fun y => ","%char :: y) rest))
    by lia.
  clear. induction rest as [|y rest IH]; [done|].
  cbn [flat_map length]. rewrite length_app. cbn [length]. lia.
Qed.

(** ** The container rules on the text of a value *)

Section container_text.
Variable callf : parser -> std_string -> nat -> outcome (json * nat).
Variable txt : std_string.
Local Abbreviation R := (render (str ": ")).

Lemma parseArray_loop_text (f : parser) (post : std_string)
    (xs : list json) (data : list json) (i n : nat) :
  xs <> [] ->
  drop (S i) txt = join (R <$> xs) ++ "]"%char :: post ->
  Forall (reads callf txt f) xs ->
  length xs <= n ->
  parseArray_loop callf n f txt i data
  = Ok (Array (data ++ xs), i + 1 + length (join (R <$> xs))).
Proof.
  revert data i n. induction xs as [|y ys IH]; intros data i n Hne Hd Hxs Hn;
    [done|].
  destruct n as [|n]; [cbn in Hn; lia|].
  apply Forall_cons in Hxs as [[(c & s & Hy & Hc & _) Hcall] Hys].
  change (join (R <$> y :: ys))
    with (R y ++ flat_map (fun r => ","%char :: r) (R <$> ys)) in *.
  rewrite <- app_assoc in Hd.
  set (tail := flat_map (fun r => ","%char :: r) (R <$> ys)
               ++ "]"%char :: post) in *.
  assert (delimited tail) as Htail.
  { subst tail. destruct ys; eexists _, _; (split; [reflexivity|]); auto. }
  cbn [parseArray_loop].
  assert (skipSpaces txt i = S i) as ->.
  { rewrite Hy in Hd. by eapply skipSpaces_next. }
  rewrite (Hcall (S i) tail Hd Htail). cbn [mbind outcome_bind].
  assert (0 < length (R y)) as Hpos by (rewrite Hy; cbn; lia).
  replace (pred (S i + length (R y))) with (i + length (R y)) by lia.
  apply drop_app_inv in Hd.
  replace (S i + length (R y)) with (S (i + length (R y))) in Hd by lia.
  destruct (delimited_inv _ Htail) as (ct & rest & Ht & Hsp & _).
  rewrite Ht in Hd.
  rewrite (skipSpaces_next _ _ _ _ Hd Hsp), (at_drop _ _ _ _ Hd).
  cbn [mbind outcome_bind].
  pose proof (length_of_drop _ _ _ _ Hd) as Hlen.
  destruct (drop_cons_inv _ _ _ _ Hd) as (_ & Hrest & _).
  destruct ys as [|y' ys].
  - subst tail. cbn in Ht. injection Ht as <- <-.
    cbn [Ascii.eqb Bool.eqb andb fmap list_fmap flat_map].
    rewrite app_nil_r. do 2 f_equal. cursor_lia.
  - subst tail.
    change (flat_map (fun r => ","%char :: r) (R <$> y' :: ys))
      with (","%char :: join (R <$> y' :: ys)) in *.
    cbn [app] in Ht. injection Ht as <- <-.
    destruct (Nat.ltb_spec (S (i + length (R y))) (length txt));
      [|cursor_lia].
    cbn [Ascii.eqb Bool.eqb andb].
    rewrite (IH (data ++ [y]) (S (i + length (R y))) n); try done.
    + rewrite <- app_assoc, length_app. cbn [length app].
      do 2 f_equal. cursor_lia.
    + cbn [length] in *. cursor_lia.
Qed.

Lemma parseObject_loop_text (post : std_string)
    (es : list (std_string * json)) (data : gmap std_string json)
    (i n : nat) :
  es <> [] ->
  drop (S i) txt
  = join ((fun kx => entry (str ": ") (kx.1, R kx.2)) <$> es)
    ++ "}"%char :: post ->
  Forall (fun kx => no_dquote kx.1 = true
                    /\ reads callf txt (lead kx.2) kx.2) es ->
  length es <= n ->
  parseObject_loop callf n txt i data
  = Ok (Object (foldl (fun d kx => insert_pair kx.1 kx.2 d) data es),
        i + 1
        + length (join ((fun kx => entry (str ": ") (kx.1, R kx.2)) <$> es))).
Proof.
  revert data i n.
  induction es as [|[k x] es IH]; intros data i n Hne Hd Hes Hn; [done|].
  destruct n as [|n]; [cbn in Hn; lia|].
  apply Forall_cons in Hes as [[Hk [(c & s & Hx & Hc & Hf) Hcall]] Hes].
  cbn [fst snd] in *.
  set (rendered := (fun kx : std_string * json =>
                      entry (str ": ") (kx.1, R kx.2)) <$> es) in *.
  change (join (_ <$> (k, x) :: es))
    with (entry (str ": ") (k, R x)
          ++ flat_map (fun r => ","%char :: r) rendered) in *.
  unfold entry in Hd |- *. cbn [fst snd] in Hd |- *.
  change (str ": " ++ R x) with (":"%char :: " "%char :: R x) in Hd |- *.
  set (tail := flat_map (fun r => ","%char :: r) rendered
               ++ "}"%char :: post) in *.
  assert (drop (S i) txt
          = dquote :: k ++ dquote :: ":"%char :: " "%char :: R x ++ tail)
    as Hd'.
  { rewrite Hd. subst tail. cbn [app]. f_equal.
    repeat (rewrite <- app_assoc; cbn [app]). reflexivity. }
  clear Hd.
  assert (delimited tail) as Htail.
  { subst tail rendered.
    destruct es; eexists _, _; (split; [reflexivity|]); auto. }
  cbn [parseObject_loop].
  (* the opening quote *)
  rewrite (skipSpaces_next _ _ _ _ Hd' eq_refl), (at_drop _ _ _ _ Hd').
  cbn [mbind outcome_bind]. change (Ascii.eqb dquote "}") with false.
  cbn [negb].
  (* the key *)
  destruct (drop_cons_inv _ _ _ _ Hd') as (_ & Hkey & _).
  rewrite Hkey, (scan_name_text _ _ _ _ Hk). cbn [app].
  apply drop_app_inv in Hkey.
  set (q := S (S i) + length k) in *.
  (* the colon and the space *)
  destruct (drop_cons_inv _ _ _ _ Hkey) as (_ & Hcolon & _).
  rewrite (skipSpaces_next _ _ _ _ Hcolon eq_refl).
  destruct (drop_cons_inv _ _ _ _ Hcolon) as (_ & Hspace & _).
  rewrite Hx in Hspace. cbn [app] in Hspace.
  rewrite (skipSpaces_space _ _ _ _ Hspace Hc).
  destruct (drop_cons_inv _ _ _ _ Hspace) as (_ & Hval & _).
  rewrite (at_drop _ _ _ _ Hval). cbn [mbind outcome_bind].
  rewrite Hf. cbn [mbind outcome_bind].
  (* the value *)
  change (c :: s ++ tail) with ((c :: s) ++ tail) in Hval.
  rewrite <- Hx in Hval.
  rewrite (Hcall _ _ Hval Htail). cbn [mbind outcome_bind].
  assert (0 < length (R x)) as Hpos by (rewrite Hx; cbn; lia).
  apply drop_app_inv in Hval.
  replace (S (S (S q)) + length (R x))
    with (S (Nat.pred (S (S (S q)) + length (R x)))) in Hval by lia.
  (* what follows the value *)
  destruct (delimited_inv _ Htail) as (ct & rest & Ht & Hsp & _).
  rewrite Ht in Hval.
  rewrite (skipSpaces_next _ _ _ _ Hval Hsp), (at_drop _ _ _ _ Hval).
  cbn [mbind outcome_bind].
  pose proof (length_of_drop _ _ _ _ Hval) as Hlen.
  destruct (drop_cons_inv _ _ _ _ Hval) as (_ & Hrest & _).
  cbn [length]. rewrite !length_app. cbn [length].
  destruct es as [|[k' x'] es].
  - subst tail rendered. cbn in Ht. injection Ht as <- <-. cbn.
    do 2 f_equal. subst q. cursor_lia.
  - subst tail rendered.
    change (flat_map (fun r => ","%char :: r) (_ <$> (k', x') :: es))
      with (","%char
            :: join ((fun kx : std_string * json =>
                        entry (str ": ") (kx.1, R kx.2)) <$> (k', x') :: es))
      in *.
    cbn [app] in Ht. injection Ht as <- <-.
    destruct (Nat.ltb_spec (S (Nat.pred (S (S (S q)) + length (R x))))
                (length txt)); [|cursor_lia].
    cbn [Ascii.eqb Bool.eqb andb].
    rewrite (IH (insert_pair k x data)
               (S (Nat.pred (S (S (S q)) + length (R x)))) n); try done.
    + cbn [foldl fst snd length]. do 2 f_equal. subst q. cursor_lia.
    + cbn [length] in *. cursor_lia.
Qed.

End container_text.

(** ** Round trip *)

Lemma roundtrips_Array (a : list json) :
  roundtrips (Array a) = true ->
  exists x xs,
    a = x :: xs
    /\ forall y, y ∈ a -> roundtrips y = true /\ lead y = lead x.
Proof.
  destruct a as [|x xs]; [done|]. cbn [roundtrips]. intros H.
  exists x, xs. split; [done|]. intros y Hy.
  rewrite forallb_forall in H. apply list_elem_of_In, H in Hy.
  apply andb_prop in Hy as [? ?%bool_decide_eq_true]. done.
Qed.

Lemma roundtrips_Object (o : gmap std_string json) :
  roundtrips (Object o) = true ->
  forall k x, o !! k = Some x -> no_dquote k = true /\ roundtrips x = true.
Proof.
  cbn [roundtrips]. intros H k x Hk. rewrite forallb_forall in H.
  assert ((k, roundtrips x) ∈ map_to_list (roundtrips <$> o)) as Hin.
  { apply elem_of_map_to_list. by rewrite lookup_fmap, Hk. }
  apply list_elem_of_In, H in Hin. by apply andb_prop in Hin.
Qed.

Lemma fmap_Permutation_inv {A B} (f : A -> B) (l : list B) (k : list A) :
  l ≡ₚ f <$> k -> exists k', l = f <$> k' /\ k' ≡ₚ k.
Proof.
  intros H. destruct (Permutation_map_inv f k H) as (k' & -> & Hk').
  by exists k'.
Qed.

(** The entries of an object as its text has them: some order [es] of
    the entries of the map. *)
Lemma render_Object_entries (colon : std_string) (o : gmap std_string json) :
  exists es,
    es ≡ₚ map_to_list o
    /\ entry colon <$> iterate (render colon <$> o)
       = (fun kx => entry colon (kx.1, render colon kx.2)) <$> es.
Proof.
  pose proof (iterate_perm _ (render colon <$> o)) as Hperm.
  rewrite map_to_list_fmap in Hperm.
  apply fmap_Permutation_inv in Hperm as (es & Hes & Hperm).
  exists es. split; [done|].
  rewrite Hes, <- list_fmap_compose.
  apply list_fmap_ext. by intros ? [k x] _.
Qed.

Lemma foldl_insert_pair_entries (o : gmap std_string json)
    (es : list (std_string * json)) :
  es ≡ₚ map_to_list o ->
  foldl (fun data kx => insert_pair kx.1 kx.2 data) ∅ es = o.
Proof.
  intros Hperm. rewrite foldl_insert_pair, (left_id_L ∅ (∪)).
  rewrite <- (list_to_map_to_list o). apply list_to_map_proper; [|done].
  rewrite Hperm. apply NoDup_fst_map_to_list.
Qed.

(** On the compact text of a value that [roundtrips], the rule that
    [getParser] selects returns the value and stops on the last character
    of its text. *)
Lemma call_render (v : json) :
  roundtrips v = true ->
  forall fuel txt i post,
    drop i txt = render (str ": ") v ++ post ->
    is_container v = true \/ delimited post ->
    length (render (str ": ") v) < fuel ->
    call fuel (lead v) txt i
    = Ok (v, Nat.pred (i + length (render (str ": ") v))).
Proof.
  induction v as [|b|d|s|a IH|o IH] using json_tree_ind;
    intros Hv fuel txt i post Hd Hpost Hfuel;
    (destruct fuel as [|fuel]; [cursor_lia|]); cbn [call lead].
  - rewrite (parseNull_text _ _ _ Hd). cbn. do 2 f_equal. cursor_lia.
  - cbn [render] in Hd |- *. rewrite (parseBoolean_text _ _ _ _ Hd).
    do 2 f_equal. destruct b; cbn; cursor_lia.
  - destruct Hpost as [|Hpost]; [done|]. cbn [render] in Hd |- *.
    rewrite (parseNumber_text _ _ _ _ Hv Hpost Hd). do 2 f_equal. cursor_lia.
  - destruct Hpost as [|Hpost]; [done|]. cbn [render] in Hd |- *.
    assert (post <> []) as Hne by (by destruct Hpost as (? & ? & -> & _)).
    cbn [app] in Hd. rewrite <- app_assoc in Hd. cbn [app] in Hd.
    rewrite (parseString_text _ _ _ _ Hv Hne Hd).
    cbn [length]. rewrite length_app. cbn [length]. do 2 f_equal. cursor_lia.
  - destruct (roundtrips_Array a Hv) as (x & xs & Ha & Hall).
    cbn [render] in Hd, Hfuel |- *. change (str "]") with ["]"%char] in *.
    cbn [app] in Hd. rewrite <- app_assoc in Hd.
    cbn [app length] in Hd, Hfuel.
    rewrite length_app in Hfuel. cbn [length] in Hfuel.
    destruct (drop_cons_inv _ _ _ _ Hd) as (_ & Hd1 & _).
    unfold parseArray.
    destruct (render_head (str ": ") x) as (c & s & Hx & Hc & Hf).
    { apply Hall. rewrite Ha. left. }
    assert (drop (S i) txt
            = c :: s ++ flat_map (fun r => ","%char :: r)
                          (render (str ": ") <$> xs) ++ "]"%char :: post)
      as Hhead.
    { rewrite Hd1, Ha. cbn [fmap list_fmap join]. rewrite Hx.
      by rewrite <- app_assoc. }
    rewrite (skipSpaces_next _ _ _ _ Hhead Hc), (at_drop _ _ _ _ Hhead).
    cbn [mbind outcome_bind]. rewrite Hf. cbn [mbind outcome_bind].
    replace (S i - 1) with i by cursor_lia.
    rewrite (parseArray_loop_text _ _ _ post a [] i fuel);
      [| by rewrite Ha | done | | ].
    + cbn [app length]. rewrite length_app. cbn [length].
      do 2 f_equal. cursor_lia.
    + apply Forall_forall. intros y Hy.
      destruct (Hall y Hy) as [Hry Hly]. split.
      * rewrite <- Hly. by apply render_head.
      * intros i' post' Hd' Hpost'. rewrite <- Hly.
        rewrite Forall_forall in IH.
        apply (IH y Hy Hry fuel txt i' post' Hd'); [by right|].
        pose proof (length_join_elem (render (str ": ") <$> a)
                      (render (str ": ") y)
                      (list_elem_of_fmap_2 _ _ _ Hy)). cursor_lia.
    + rewrite <- (length_fmap (render (str ": "))).
      etrans; [apply (length_join_items (render (str ": ") <$> a))|].
      * intros r (y & -> & Hy)%list_elem_of_fmap.
        apply render_length, Hall, Hy.
      * cursor_lia.
  - pose proof (roundtrips_Object o Hv) as Hall.
    cbn [render] in Hd, Hfuel |- *.
    destruct (render_Object_entries (str ": ") o) as (es & Hperm & Hes).
    rewrite Hes in *.
    change (str "}") with ["}"%char] in *.
    cbn [app] in Hd. rewrite <- app_assoc in Hd.
    cbn [app length] in Hd, Hfuel.
    rewrite length_app in Hfuel. cbn [length] in Hfuel.
    destruct (drop_cons_inv _ _ _ _ Hd) as (_ & Hd1 & _).
    unfold parseObject.
    destruct es as [|e es].
    + apply Permutation_nil, map_to_list_empty_iff in Hperm as ->.
      destruct fuel as [|fuel]; [cbn in Hfuel ; cursor_lia|].
      cbn [fmap list_fmap join app] in Hd1.
      cbn [parseObject_loop].
      rewrite (skipSpaces_next _ _ _ _ Hd1 eq_refl), (at_drop _ _ _ _ Hd1).
      cbn. do 2 f_equal. cursor_lia.
    + rewrite (parseObject_loop_text _ _ post (e :: es) ∅ i fuel);
        [| done | done | | ].
      * rewrite (foldl_insert_pair_entries o _ Hperm).
        cbn [app length]. rewrite length_app. cbn [length].
        do 2 f_equal. cursor_lia.
      * apply Forall_forall. intros [k x] Hkx.
        pose proof Hkx as Hk. rewrite Hperm in Hk.
        apply elem_of_map_to_list in Hk.
        destruct (Hall k x Hk) as [Hnq Hrx]. cbn [fst snd].
        split; [done|]. split; [by apply render_head|].
        intros i' post' Hd' Hpost'.
        apply (IH k x Hk Hrx fuel txt i' post' Hd'); [by right|].
        pose proof (length_join_elem _ _
                      (list_elem_of_fmap_2
                         (fun kx : std_string * json =>
                            entry (str ": ") (kx.1, render (str ": ") kx.2))
                         _ _ Hkx)) as Hle.
        unfold entry in Hle at 1. cbn [fst snd length] in Hle.
        rewrite length_app in Hle. cbn [length] in Hle.
        rewrite length_app in Hle. cursor_lia.
      * rewrite <- (length_fmap
                      (fun kx : std_string * json =>
                         entry (str ": ") (kx.1, render (str ": ") kx.2))).
        etrans; [apply length_join_items|].
        -- intros r (y & -> & Hy)%list_elem_of_fmap.
           unfold entry. cbn [length]. cursor_lia.
        -- cursor_lia.
Qed.

(** C1, amended.  [parse] gives back the value whose compact text it
    reads when the value is an array or an object in which no array is
    empty, the elements of every array are of one variant, no string and
    no key has a double quote, and every number is printed by [%f] as a
    text that starts with a digit and that [std::stod] reads back as the
    same double. *)
Theorem parse_to_string_roundtrip (v : json) :
  is_container v = true -> roundtrips v = true ->
  parse (to_string v (-1)) = Ok v.
Proof.
  intros Hc Hv. rewrite to_string_render by done.
  pose proof (call_render v Hv (length (render (str ": ") v) + 2)
                (render (str ": ") v) 0 []) as Hcall.
  rewrite drop_0, app_nil_r in Hcall.
  specialize (Hcall eq_refl (or_introl Hc) ltac:(lia)).
  unfold parse, parse_cursor.
  destruct v as [| | | |a|o]; try done; cbn [lead] in Hcall;
    cbn [render] in Hcall |- *;
    change (str "]") with ["]"%char] in *;
    change (str "}") with ["}"%char] in *;
    cbn [length] in Hcall |- *;
    rewrite length_app in Hcall |- *; cbn [length] in Hcall |- *.
  - destruct (Nat.ltb_spec (S (length (join (render (str ": ") <$> a)) + 1))
                2); [lia|].
    cbn [at_ lookup list_lookup mbind outcome_bind Ascii.eqb Bool.eqb
         negb andb].
    by rewrite Hcall.
  - destruct (Nat.ltb_spec
                (S (length (join (entry (str ": ")
                                    <$> iterate (render (str ": ") <$> o)))
                    + 1)) 2); [lia|].
    cbn [at_ lookup list_lookup mbind outcome_bind Ascii.eqb Bool.eqb
         negb andb].
    by rewrite Hcall.
Qed.

End round_trip.

Lemma parse_to_string_roundtrip_witness :
  parse (to_string (It := listing_order) demo (-1)) = Ok demo.
Proof. apply parse_to_string_roundtrip; by vm_compute. Defined.

(** C1 as stated fails: a bare scalar is rejected, an array whose elements
    differ in variant is read with the rule of its first element, and a
    number is printed with six decimals only. *)
Lemma roundtrip_fails :
  parse (to_string (It := listing_order) Null (-1))
  = Throw (runtime_error (str "Invalid json"))
  /\ parse (to_string (It := listing_order) (Array [Null; Boolean true]) (-1))
     = Throw (runtime_error (str "Invalid symbole 't' at index 6'"))
  /\ parse (to_string (It := listing_order) (Array [Number (dbl 1 3)]) (-1))
     = Ok (Array [Number (dbl 333333 1000000)])
  /\ dbl 333333 1000000 <> dbl 1 3.
Proof. repeat split; by vm_compute. Qed.

(** The same happens for the empty array, which [parseArray] does not
    expect, and for a negative number, whose sign [getParser] does not
    know. *)
Lemma roundtrip_fails_more :
  parse (to_string (It := listing_order) (Array []) (-1))
  = Throw (runtime_error (str "Invalid symbole begin: ]"))
  /\ parse (to_string (It := listing_order)
              (Array [Number (std.nearest true 1 1)]) (-1))
     = Throw (runtime_error (str "Invalid symbole begin: -"))
  /\ parse (to_string (It := listing_order)
              (Object {[ [dquote] := Null ]}) (-1))
     = Throw (runtime_error (str "Invalid symbole begin: :")).
Proof. repeat split; by vm_compute. Qed.

(** ** What a successful parse has looked at *)

Lemma bind_Ok {A B} (m : outcome A) (f : A -> outcome B) (b : B) :
  m ≫= f = Ok b -> exists a, m = Ok a /\ f a = Ok b.
Proof. destruct m as [a| | |]; try done. intros H. by exists a. Qed.

Lemma parsingError_not_Ok {A} (txt : std_string) (index : nat) (r : A) :
  parsingError txt index <> Ok r.
Proof. unfold parsingError. by destruct (at_ txt index). Qed.

Lemma code_inj (c1 c2 : ascii) : std.code c1 = std.code c2 -> c1 = c2.
Proof.
  unfold std.code. intros H%(inj Z.of_N).
  by rewrite <- (ascii_N_embedding c1), <- (ascii_N_embedding c2), H.
Qed.

(** A comparison that finds no difference has read the whole pattern. *)
Lemma strncmp_zero_prefix (pat s : std_string) :
  NUL ∉ pat -> strncmp s pat (length pat) = 0%Z ->
  exists s', s = pat ++ s'.
Proof.
  revert s. induction pat as [|c pat IH]; intros s Hnul H; [by exists s|].
  cbn [length strncmp hd tl] in H.
  destruct (Z.ltb_spec (std.code (hd NUL s)) (std.code c)); [done|].
  destruct (Z.ltb_spec (std.code c) (std.code (hd NUL s))); [done|].
  assert (hd NUL s = c) as Hc by (apply code_inj; lia).
  destruct s as [|c' s]; cbn [hd tl] in *.
  { exfalso. apply Hnul. rewrite Hc. left. }
  subst c'. destruct (Ascii.eqb_spec c NUL) as [->|_].
  { exfalso. apply Hnul. left. }
  destruct (IH s) as [s' ->]; [|done|by exists s'].
  intros Hin. apply Hnul. by right.
Qed.

Lemma parseNull_inv (txt : std_string) (i : nat) (v : json) (j : nat) :
  parseNull txt i = Ok (v, j) ->
  v = Null /\ j = i + 3 /\ exists s', drop i txt = str "null" ++ s'.
Proof.
  unfold parseNull.
  destruct ((i + 3 <? length txt)
            && (strncmp (drop i txt) (str "null") 4 =? 0)%Z) eqn:Hc;
    [|by intros ?%parsingError_not_Ok].
  intros [= <- <-]. apply andb_prop in Hc as [_ Hc%Z.eqb_eq].
  split; [done|]. split; [done|].
  apply (strncmp_zero_prefix (str "null")); [|done].
  intros H. repeat (apply elem_of_cons in H as [[=]|H]).
  by apply elem_of_nil in H.
Qed.

Lemma parseBoolean_inv (txt : std_string) (i : nat) (v : json) (j : nat) :
  parseBoolean txt i = Ok (v, j) ->
  exists b s',
    v = Boolean b
    /\ drop i txt = (if b then str "true" else str "false") ++ s'
    /\ j = i + length (if b then str "true" else str "false") - 1.
Proof.
  unfold parseBoolean.
  destruct ((i <? length txt)
            && (strncmp (drop i txt) (str "false") 5 =? 0)%Z) eqn:Hf.
  { intros [= <- <-]. apply andb_prop in Hf as [_ Hf%Z.eqb_eq].
    destruct (strncmp_zero_prefix (str "false") (drop i txt)) as [s' Hs];
      [|done|].
    - intros H. repeat (apply elem_of_cons in H as [[=]|H]).
      by apply elem_of_nil in H.
    - exists false, s'. repeat split; [done|]. cbn. lia. }
  destruct ((i <? length txt)
            && (strncmp (drop i txt) (str "true") 4 =? 0)%Z) eqn:Ht;
    [|by intros ?%parsingError_not_Ok].
  intros [= <- <-]. apply andb_prop in Ht as [_ Ht%Z.eqb_eq].
  destruct (strncmp_zero_prefix (str "true") (drop i txt)) as [s' Hs];
    [|done|].
  - intros H. repeat (apply elem_of_cons in H as [[=]|H]).
    by apply elem_of_nil in H.
  - exists true, s'. repeat split; [done|]. cbn. lia.
Qed.

Lemma take_while_app_stopped {A} (p : A -> bool) (s rest : list A) (m : nat)
    (c : A) :
  s !! m = Some c -> p c = false ->
  take_while p (s ++ rest) = take_while p s.
Proof.
  revert m. induction s as [|x s IH]; intros m Hm Hc; [done|].
  cbn. destruct m as [|m]; cbn in Hm.
  - injection Hm as ->. by rewrite Hc.
  - destruct (p x); [|done]. f_equal. by eapply IH.
Qed.

Lemma closes_lt (p : std_string) (k : nat) : closes p k -> k < length p.
Proof. by intros [H|H]; apply lookup_lt_Some in H. Qed.

Lemma closes_not_literal (p : std_string) (k : nat) :
  closes p k -> exists c, p !! k = Some c /\ std.literal_char c = false.
Proof. intros [H|H]; eexists; (split; [exact H|done]). Qed.

Lemma parseNumber_app (p rest : std_string) (i : nat) (v : json)
    (j k : nat) :
  parseNumber p i = Ok (v, j) -> j <= k -> closes p k ->
  i <= j /\ parseNumber (p ++ rest) i = Ok (v, j).
Proof.
  intros H Hjk Hk. pose proof (closes_lt _ _ Hk) as Hlt.
  destruct (closes_not_literal _ _ Hk) as (c & Hc & Hlit).
  unfold parseNumber, substr in *.
  destruct (Nat.ltb_spec (length p) i); [done|].
  cbn [mbind outcome_bind] in H.
  apply bind_Ok in H as ([d n] & Hstod & [= <- <-]).
  split; [lia|].
  rewrite length_app. destruct (Nat.ltb_spec (length p + length rest) i);
    [lia|].
  cbn [mbind outcome_bind]. rewrite drop_app_le by lia.
  unfold std.stod in *.
  rewrite (take_while_app_stopped _ _ _ (k - i) c), Hstod; [done| |done].
  rewrite lookup_drop. by replace (i + (k - i)) with k by lia.
Qed.

Lemma parseString_loop_app (p rest r : std_string) (index : nat)
    (data : std_string) (v : json) (j : nat) :
  parseString_loop p r index data = Ok (v, j) ->
  index < j
  /\ parseString_loop (p ++ rest) (r ++ rest) index data = Ok (v, j).
Proof.
  revert index data. induction r as [|c r IH]; intros index data.
  { by intros ?%parsingError_not_Ok. }
  cbn [app parseString_loop]. destruct (Ascii.eqb c dquote).
  { intros [= <- <-]. split; [lia|done]. }
  destruct (Nat.leb_spec (length p) (S index + 2));
    [by intros ?%parsingError_not_Ok|].
  intros [Hlt Hloop]%IH. split; [lia|].
  rewrite length_app.
  destruct (Nat.leb_spec (length p + length rest) (S index + 2)); [lia|].
  done.
Qed.

Lemma parseString_app (p rest : std_string) (i : nat) (v : json) (j : nat) :
  parseString p i = Ok (v, j) ->
  i <= j /\ parseString (p ++ rest) i = Ok (v, j).
Proof.
  unfold parseString. destruct (Nat.ltb_spec (length p) (S i)); [done|].
  intros [Hlt Hloop]%(parseString_loop_app p rest). split; [lia|].
  rewrite length_app.
  destruct (Nat.ltb_spec (length p + length rest) (S i)); [lia|].
  by rewrite drop_app_le by lia.
Qed.

Lemma scan_name_bounds (r : std_string) (index : nat) (name : std_string) :
  index <= (scan_name r index name).2 <= index + length r.
Proof.
  revert index name. induction r as [|c r IH]; intros index name; cbn;
    [lia|].
  destruct (Ascii.eqb c dquote); cbn; [lia|].
  specialize (IH (S index) (name ++ [c])). lia.
Qed.

Lemma scan_name_app (r rest : std_string) (index : nat) (name : std_string) :
  (scan_name r index name).2 < index + length r ->
  scan_name (r ++ rest) index name = scan_name r index name.
Proof.
  revert index name. induction r as [|c r IH]; intros index name; cbn;
    [lia|].
  destruct (Ascii.eqb c dquote); [done|]. intros H. apply IH. lia.
Qed.

Lemma at_closes (p rest : std_string) (i k : nat) :
  i <= k -> closes p k -> at_ (p ++ rest) i = at_ p i.
Proof. intros Hik Hk%closes_lt. apply at_app. lia. Qed.

Lemma skipSpaces_closes (p rest : std_string) (i k : nat) :
  skipSpaces p i <= k -> closes p k ->
  skipSpaces (p ++ rest) i = skipSpaces p i.
Proof. intros Hik Hk%closes_lt. apply skipSpaces_app. lia. Qed.

Lemma ltb_closes (p rest : std_string) (i k : nat) :
  i <= k -> closes p k ->
  (i <? length (p ++ rest)) = (i <? length p).
Proof.
  intros Hik Hk%closes_lt. rewrite length_app.
  destruct (Nat.ltb_spec i (length p)); [|lia].
  destruct (Nat.ltb_spec i (length p + length rest)); [done|lia].
Qed.

Section extension.
Variables p rest : std_string.
Variables callf callf' : parser -> std_string -> nat -> outcome (json * nat).
Hypothesis Hext : extends p rest callf callf'.

Lemma parseArray_loop_app (n : nat) (f : parser) (index : nat)
    (data : list json) (v : json) (j : nat) :
  parseArray_loop callf n f p index data = Ok (v, j) ->
  index < j
  /\ forall k n', j <= k -> closes p k -> n <= n' ->
       parseArray_loop callf' n' f (p ++ rest) index data = Ok (v, j).
Proof.
  revert index data. induction n as [|n IH]; intros index data; [done|].
  cbn [parseArray_loop]. intros H.
  apply bind_Ok in H as ([x i2] & Hx & H).
  apply bind_Ok in H as (c & Hc & H).
  destruct (Hext _ _ _ _ Hx) as [H12 Hx'].
  pose proof (skipSpaces_gt p index) as Hs1.
  pose proof (skipSpaces_gt p i2) as Hs2.
  assert (skipSpaces p i2 <= j
          /\ forall k n', j <= k -> closes p k -> n <= n' ->
               (if Ascii.eqb c "," && (skipSpaces p i2 <? length p)
                then parseArray_loop callf' n' f (p ++ rest)
                       (skipSpaces p i2) (data ++ [x])
                else Ok (Array (data ++ [x]), skipSpaces p i2))
               = Ok (v, j)) as [Hj Hrest].
  { destruct (Ascii.eqb c "," && (skipSpaces p i2 <? length p)).
    - apply IH in H as [Hlt Hloop]. split; [lia|done].
    - injection H as <- <-. split; [lia|done]. }
  split; [lia|]. intros k n' Hjk Hk Hn.
  destruct n' as [|n']; [lia|]. cbn [parseArray_loop].
  rewrite (skipSpaces_closes p rest index k) by (done || lia).
  rewrite (Hx' k) by (done || lia). cbn [mbind outcome_bind].
  rewrite (skipSpaces_closes p rest i2 k) by (done || lia).
  rewrite (at_closes p rest _ k), Hc by (done || lia).
  cbn [mbind outcome_bind].
  rewrite (ltb_closes p rest _ k) by (done || lia).
  apply (Hrest k); (done || lia).
Qed.

Lemma parseArray_app (n : nat) (index : nat) (v : json) (j : nat) :
  parseArray callf n p index = Ok (v, j) ->
  index <= j
  /\ forall k n', j <= k -> closes p k -> n <= n' ->
       parseArray callf' n' (p ++ rest) index = Ok (v, j).
Proof.
  unfold parseArray. intros H.
  apply bind_Ok in H as (c & Hc & H).
  apply bind_Ok in H as (f & Hf & H).
  apply parseArray_loop_app in H as [Hlt Hloop].
  pose proof (skipSpaces_gt p index) as Hs1.
  split; [lia|]. intros k n' Hjk Hk Hn.
  rewrite (skipSpaces_closes p rest index k) by (done || lia).
  rewrite (at_closes p rest _ k), Hc by (done || lia).
  cbn [mbind outcome_bind]. rewrite Hf. cbn [mbind outcome_bind].
  by apply (Hloop k).
Qed.

Lemma parseObject_loop_app (n : nat) (index : nat)
    (data : gmap std_string json) (v : json) (j : nat) :
  parseObject_loop callf n p index data = Ok (v, j) ->
  index < j
  /\ forall k n', j <= k -> closes p k -> n <= n' ->
       parseObject_loop callf' n' (p ++ rest) index data = Ok (v, j).
Proof.
  revert index data. induction n as [|n IH]; intros index data; [done|].
  cbn [parseObject_loop]. intros H.
  pose proof (skipSpaces_gt p index) as Hs1.
  apply bind_Ok in H as (c & Hc & H).
  destruct (Ascii.eqb c "}") eqn:Hclose.
  { injection H as <- <-. split; [lia|]. intros k n' Hjk Hk Hn.
    destruct n' as [|n']; [lia|]. cbn [parseObject_loop].
    rewrite (skipSpaces_closes p rest index k) by (done || lia).
    rewrite (at_closes p rest _ k), Hc by (done || lia).
    cbn [mbind outcome_bind]. by rewrite Hclose. }
  pose proof (scan_name_bounds (drop (S (skipSpaces p index)) p)
                (S (skipSpaces p index)) []) as Hn1.
  destruct (scan_name (drop (S (skipSpaces p index)) p)
              (S (skipSpaces p index)) []) as [name i2] eqn:Hname.
  cbn [snd] in Hn1.
  pose proof (skipSpaces_gt p i2) as Hs2.
  pose proof (skipSpaces_gt p (skipSpaces p i2)) as Hs3.
  apply bind_Ok in H as (c' & Hc' & H).
  apply bind_Ok in H as (f & Hf & H).
  apply bind_Ok in H as ([x i4] & Hx & H).
  apply bind_Ok in H as (c'' & Hc'' & H).
  destruct (Hext _ _ _ _ Hx) as [H34 Hx'].
  pose proof (skipSpaces_gt p i4) as Hs4.
  assert (skipSpaces p i4 <= j
          /\ forall k n', j <= k -> closes p k -> n <= n' ->
               (if Ascii.eqb c'' "," && (skipSpaces p i4 <? length p)
                then parseObject_loop callf' n' (p ++ rest)
                       (skipSpaces p i4) (insert_pair name x data)
                else Ok (Object (insert_pair name x data), skipSpaces p i4))
               = Ok (v, j)) as [Hj Hrest].
  { destruct (Ascii.eqb c'' "," && (skipSpaces p i4 <? length p)).
    - apply IH in H as [Hlt Hloop]. split; [lia|done].
    - injection H as <- <-. split; [lia|done]. }
  split; [lia|]. intros k n' Hjk Hk Hn.
  destruct n' as [|n']; [lia|]. cbn [parseObject_loop].
  pose proof (closes_lt _ _ Hk) as Hklt.
  rewrite (skipSpaces_closes p rest index k) by (done || lia).
  rewrite (at_closes p rest _ k), Hc by (done || lia).
  cbn [mbind outcome_bind]. rewrite Hclose.
  rewrite drop_app_le by lia.
  rewrite scan_name_app, Hname
    by (rewrite Hname, length_drop; cbn [snd]; lia).
  rewrite (skipSpaces_closes p rest i2 k) by (done || lia).
  rewrite (skipSpaces_closes p rest (skipSpaces p i2) k) by (done || lia).
  rewrite (at_closes p rest _ k), Hc' by (done || lia).
  cbn [mbind outcome_bind]. rewrite Hf. cbn [mbind outcome_bind].
  rewrite (Hx' k) by (done || lia). cbn [mbind outcome_bind].
  rewrite (skipSpaces_closes p rest i4 k) by (done || lia).
  rewrite (at_closes p rest _ k), Hc'' by (done || lia).
  cbn [mbind outcome_bind].
  rewrite (ltb_closes p rest _ k) by (done || lia).
  apply (Hrest k); (done || lia).
Qed.

End extension.

(** A successful call that stops at or before a closing bracket of [p]
    comes out the same on [p ++ rest], with any larger recursion budget;
    and the cursor never moves back. *)
Lemma call_extends (fuel fuel' : nat) (p rest : std_string) :
  fuel <= fuel' -> extends p rest (call fuel) (call fuel').
Proof.
  revert fuel'. induction fuel as [|fuel IH]; intros fuel' Hle f i v j;
    [done|].
  destruct fuel' as [|fuel']; [cursor_lia|].
  assert (extends p rest (call fuel) (call fuel')) as Hext
    by (apply IH; lia).
  cbn [call]. destruct f.
  - unfold parseObject. intros [Hlt Happ]%(parseObject_loop_app _ rest _ _ Hext).
    split; [cursor_lia|]. intros k Hjk Hk. apply (Happ k); (done || cursor_lia).
  - intros [Hlt Happ]%(parseArray_app _ rest _ _ Hext).
    split; [cursor_lia|]. intros k Hjk Hk. apply (Happ k); (done || cursor_lia).
  - intros [Hlt Happ]%(parseString_app _ rest). split; [lia|done].
  - intros (b & s' & -> & Hd & ->)%parseBoolean_inv.
    assert (0 < length (if b then str "true" else str "false")) as Hpos
      by (destruct b; cbn; lia).
    pose proof (length_of_drop_app _ _ _ _ Hd Hpos) as [Hlen Hlt].
    split; [cursor_lia|]. intros k Hjk Hk.
    apply (parseBoolean_text _ _ _ (s' ++ rest)).
    by rewrite drop_app_le, Hd, <- app_assoc by cursor_lia.
  - intros H. split.
    + unfold parseNumber in H. apply bind_Ok in H as (s & _ & H).
      apply bind_Ok in H as ([d n] & _ & [= <- <-]). cursor_lia.
    + intros k Hjk Hk. by apply (parseNumber_app _ _ _ _ _ k H).
  - intros (-> & -> & s' & Hd)%parseNull_inv.
    pose proof (length_of_drop_app _ _ _ _ Hd ltac:(cbn; lia)) as [Hlen Hlt].
    split; [cursor_lia|]. intros k Hjk Hk.
    apply (parseNull_text _ _ (s' ++ rest)).
    by rewrite drop_app_le, Hd, <- app_assoc by cursor_lia.
Qed.

(** ** What [parse] returns *)

Lemma parseArray_loop_Array
    (callf : parser -> std_string -> nat -> outcome (json * nat))
    (n : nat) (f : parser) (txt : std_string) (index : nat)
    (data : list json) (v : json) (j : nat) :
  parseArray_loop callf n f txt index data = Ok (v, j) ->
  is_container v = true.
Proof.
  revert index data. induction n as [|n IH]; intros index data; [done|].
  cbn [parseArray_loop]. intros H.
  apply bind_Ok in H as ([x i2] & _ & H).
  apply bind_Ok in H as (c & _ & H).
  destruct (_ && _); [by eapply IH|]. by injection H as <- _.
Qed.

Lemma parseObject_loop_Object
    (callf : parser -> std_string -> nat -> outcome (json * nat))
    (n : nat) (txt : std_string) (index : nat)
    (data : gmap std_string json) (v : json) (j : nat) :
  parseObject_loop callf n txt index data = Ok (v, j) ->
  is_container v = true.
Proof.
  revert index data. induction n as [|n IH]; intros index data; [done|].
  cbn [parseObject_loop]. intros H.
  apply bind_Ok in H as (c & _ & H).
  destruct (Ascii.eqb c "}"); [by injection H as <- _|].
  destruct (scan_name _ _ _) as [name i2].
  apply bind_Ok in H as (c' & _ & H).
  apply bind_Ok in H as (f & _ & H).
  apply bind_Ok in H as ([x i4] & _ & H).
  apply bind_Ok in H as (c'' & _ & H).
  destruct (_ && _); [by eapply IH|]. by injection H as <- _.
Qed.

(** The run of [parse]: where the value starts and which rule reads it. *)
Lemma parse_cursor_inv (txt : std_string) (v : json) (j : nat) :
  parse_cursor txt = Ok (v, j) ->
  exists c0 c f,
    2 <= length txt
    /\ at_ txt 0 = Ok c0
    /\ let index := if negb (Ascii.eqb c0 "{") && negb (Ascii.eqb c0 "[")
                    then skipSpaces txt 0 else 0 in
       at_ txt index = Ok c
       /\ (if Ascii.eqb c "{" then f = p_parseObject
           else Ascii.eqb c "[" = true /\ f = p_parseArray)
       /\ call (length txt + 2) f txt index = Ok (v, j).
Proof.
  unfold parse_cursor.
  destruct (Nat.ltb_spec (length txt) 2) as [|Hlen]; [done|]. intros H.
  apply bind_Ok in H as (c0 & Hc0 & H).
  apply bind_Ok in H as (c & Hc & H).
  exists c0, c.
  destruct (Ascii.eqb c "{") eqn:Hobj.
  { by exists p_parseObject. }
  destruct (Ascii.eqb c "[") eqn:Harr; [|done].
  by exists p_parseArray.
Qed.

Lemma parse_cursor_intro (txt : std_string) (c0 c : ascii) (f : parser)
    (r : outcome (json * nat)) :
  2 <= length txt ->
  at_ txt 0 = Ok c0 ->
  let index := if negb (Ascii.eqb c0 "{") && negb (Ascii.eqb c0 "[")
               then skipSpaces txt 0 else 0 in
  at_ txt index = Ok c ->
  (if Ascii.eqb c "{" then f = p_parseObject
   else Ascii.eqb c "[" = true /\ f = p_parseArray) ->
  call (length txt + 2) f txt index = r ->
  parse_cursor txt = r.
Proof.
  intros Hlen Hc0 index Hc Hf Hcall. unfold parse_cursor.
  destruct (Nat.ltb_spec (length txt) 2); [lia|].
  rewrite Hc0. cbn [mbind outcome_bind]. fold index. rewrite Hc.
  cbn [mbind outcome_bind].
  destruct (Ascii.eqb c "{"); [by subst f|].
  destruct Hf as [-> ->]. done.
Qed.

(** ** Repeated keys in an object text *)

Lemma insert_pair_subseteq (name : std_string) (value : json)
    (data : gmap std_string json) :
  data ⊆ insert_pair name value data.
Proof.
  unfold insert_pair. destruct (data !! name) eqn:H; [done|].
  by apply insert_subseteq.
Qed.

(** The pairs that the loop of [parseObject] has stored stay as they are
    to its end, whatever the text goes on with. *)
Lemma parseObject_loop_keeps
    (callf : parser -> std_string -> nat -> outcome (json * nat))
    (n : nat) (txt : std_string) (index : nat)
    (data : gmap std_string json) (v : json) (j : nat) :
  parseObject_loop callf n txt index data = Ok (v, j) ->
  exists o, v = Object o /\ data ⊆ o.
Proof.
  revert index data. induction n as [|n IH]; intros index data; [done|].
  cbn [parseObject_loop]. intros H.
  apply bind_Ok in H as (c & _ & H).
  destruct (Ascii.eqb c "}"); [injection H as <- _; by eexists|].
  destruct (scan_name _ _ _) as [name i2].
  apply bind_Ok in H as (c' & _ & H).
  apply bind_Ok in H as (f & _ & H).
  apply bind_Ok in H as ([x i4] & _ & H).
  apply bind_Ok in H as (c'' & _ & H).
  destruct (_ && _).
  - apply IH in H as (o & -> & Ho). exists o. split; [done|].
    etrans; [apply insert_pair_subseteq|done].
  - injection H as <- _. eexists. split; [done|]. apply insert_pair_subseteq.
Qed.

Lemma object_text_render {It : Iteration} (es : list (std_string * json)) :
  object_text es
  = "{"%char
    :: join ((fun kx : std_string * json =>
                entry (str ": ") (kx.1, render (str ": ") kx.2)) <$> es)
    ++ ["}"%char].
Proof.
  unfold object_text. f_equal. f_equal. f_equal.
  apply list_fmap_ext. intros _ [k x] _. unfold entry. cbn [fst snd].
  by rewrite to_string_render.
Qed.

Lemma pairs_roundtrip_elem (es : list (std_string * json))
    (k : std_string) (x : json) :
  pairs_roundtrip es = true -> (k, x) ∈ es ->
  no_dquote k = true /\ roundtrips x = true.
Proof.
  unfold pairs_roundtrip. rewrite forallb_forall.
  intros H Hin%list_elem_of_In. by apply H, andb_prop in Hin.
Qed.

Lemma pairs_roundtrip_incl (es es' : list (std_string * json)) :
  (forall kx, kx ∈ es' -> kx ∈ es) ->
  pairs_roundtrip es = true -> pairs_roundtrip es' = true.
Proof.
  unfold pairs_roundtrip. rewrite !forallb_forall. intros Hin H kx Hkx.
  by apply H, list_elem_of_In, Hin, list_elem_of_In.
Qed.

(** [parse] on the text of an object with the pairs [es]: the pairs are
    inserted in the order of the text. *)
Lemma parse_object_text {It : Iteration} (es : list (std_string * json)) :
  pairs_roundtrip es = true ->
  parse (object_text es)
  = Ok (Object (foldl (fun d kx => insert_pair kx.1 kx.2 d) ∅ es)).
Proof.
  intros Hes. rewrite object_text_render.
  set (E := fun kx : std_string * json =>
              entry (str ": ") (kx.1, render (str ": ") kx.2)).
  set (txt := "{"%char :: join (E <$> es) ++ ["}"%char]).
  assert (length txt = S (length (join (E <$> es)) + 1)) as Hlen.
  { subst txt. cbn [length]. by rewrite length_app. }
  assert (parse_cursor txt
          = Ok (Object (foldl (fun d kx => insert_pair kx.1 kx.2 d) ∅ es),
                length txt - 1)) as H; [|by unfold parse; rewrite H].
  apply (parse_cursor_intro _ "{" "{" p_parseObject); [lia|done..|].
  cbn [negb andb Ascii.eqb Bool.eqb].
  replace (length txt + 2) with (S (S (length txt))) by lia.
  change (call (S (S (length txt))) p_parseObject txt 0)
    with (parseObject (call (S (length txt))) (S (length txt)) txt 0).
  unfold parseObject. destruct es as [|e es].
  - subst txt. cbn [fmap list_fmap join app length parseObject_loop].
    reflexivity.
  - rewrite (parseObject_loop_text _ txt [] (e :: es) ∅ 0 (S (length txt)));
      [| done | done | | ].
    + do 2 f_equal. rewrite Hlen. fold E. lia.
    + apply Forall_forall. intros [k x] Hkx.
      destruct (pairs_roundtrip_elem _ k x Hes Hkx) as [Hk Hx].
      cbn [fst snd]. split; [done|]. split; [by apply render_head|].
      intros i post Hd Hpost.
      apply (call_render x Hx (S (length txt)) txt i post Hd); [by right|].
      apply (f_equal length) in Hd.
      rewrite length_drop, length_app in Hd. lia.
    + rewrite <- (length_fmap E).
      etrans; [apply length_join_items|lia].
      intros r (y & -> & Hy)%list_elem_of_fmap.
      unfold E, entry. cbn [length]. lia.
Qed.

(** A pair whose key comes earlier in the list has no part in the map
    that the insertions build. *)
Lemma foldl_insert_pair_repeated (l1 l2 : list (std_string * json))
    (k : std_string) (x : json) :
  k ∈ l1.*1 ->
  foldl (fun d kx => insert_pair kx.1 kx.2 d) ∅ (l1 ++ (k, x) :: l2)
  = foldl (fun d kx => insert_pair kx.1 kx.2 d) ∅ (l1 ++ l2).
Proof.
  intros Hk. rewrite !foldl_app. cbn [foldl fst snd]. f_equal.
  destruct (foldl (fun d kx => insert_pair kx.1 kx.2 d) ∅ l1 !! k)
    as [y|] eqn:Hy; [by eapply insert_pair_present|].
  rewrite foldl_insert_pair, (left_id_L ∅ (∪)) in Hy.
  by apply not_elem_of_list_to_map_2 in Hy.
Qed.

Lemma foldl_insert_pair_first (l1 l2 : list (std_string * json))
    (k : std_string) (x : json) :
  k ∉ l1.*1 ->
  foldl (fun d kx => insert_pair kx.1 kx.2 d) ∅ (l1 ++ (k, x) :: l2) !! k
  = Some x.
Proof.
  intros Hk. rewrite foldl_insert_pair, (left_id_L ∅ (∪)).
  rewrite list_to_map_app, lookup_union_r
    by (by apply not_elem_of_list_to_map_1).
  apply lookup_insert_eq.
Qed.

(** C3, amended.  When the parser meets a key that the object already
    has, the pair is dropped: the text with the later pair parses to the
    object that the text without it parses to, in which the key has its
    first value, whatever pairs come before, between and after the two.
    The loop of [parseObject] keeps every pair it has stored to its end
    on every text.  The text with ["a":1] and later ["a":2] parses to the
    object whose only entry is ["a"] with the number 1. *)
Theorem repeated_key_keeps_first {It : Iteration}
    (before between after : list (std_string * json))
    (name : std_string) (value value' : json) :
  name ∉ before.*1 ->
  pairs_roundtrip
    (before ++ (name, value) :: between ++ (name, value') :: after) = true ->
  (exists o,
     parse (object_text
              (before ++ (name, value) :: between ++ (name, value') :: after))
     = Ok (Object o)
     /\ parse (object_text (before ++ (name, value) :: between ++ after))
        = Ok (Object o)
     /\ o !! name = Some value)
  /\ (forall callf n txt index data v j,
        parseObject_loop callf n txt index data = Ok (v, j) ->
        exists o, v = Object o /\ data ⊆ o)
  /\ parse (json_text "{'a':1,'a':2}")
     = Ok (Object {[ str "a" := Number (dbl 1 1) ]})
  /\ size_ (Object {[ str "a" := Number (dbl 1 1) ]}) = Ok 1.
Proof.
  intros Hname Hes.
  split; [|split; [apply parseObject_loop_keeps|split; by vm_compute]].
  eexists. split; [by apply parse_object_text|]. split.
  - rewrite parse_object_text.
    + do 2 f_equal.
      pose proof (foldl_insert_pair_repeated
                    (before ++ (name, value) :: between) after name value')
        as Hrep.
      rewrite <- !app_assoc in Hrep. cbn [app] in Hrep.
      symmetry. apply Hrep.
      rewrite fmap_app, elem_of_app. right. left.
    + revert Hes. apply pairs_roundtrip_incl. intros kx.
      rewrite !elem_of_app, !elem_of_cons, !elem_of_app, elem_of_cons. tauto.
  - by apply foldl_insert_pair_first.
Qed.

Lemma repeated_key_keeps_first_witness :
  exists o,
    parse (object_text (It := listing_order)
             ([(str "b", Null)]
              ++ (str "a", Number (dbl 1 1))
              :: [(str "c", Boolean true)]
              ++ (str "a", Number (dbl 2 1)) :: [(str "a", Array [Null])]))
    = Ok (Object o)
    /\ parse (object_text (It := listing_order)
                ([(str "b", Null)]
                 ++ (str "a", Number (dbl 1 1))
                 :: [(str "c", Boolean true)] ++ [(str "a", Array [Null])]))
       = Ok (Object o)
    /\ o !! str "a" = Some (Number (dbl 1 1)).
Proof.
  refine (proj1 (repeated_key_keeps_first (It := listing_order)
                   [(str "b", Null)] [(str "c", Boolean true)]
                   [(str "a", Array [Null])] (str "a")
                   (Number (dbl 1 1)) (Number (dbl 2 1)) _ _)).
  - apply (bool_decide_unpack _). vm_compute. exact I.
  - vm_compute. reflexivity.
Defined.

(** C3 as stated fails: the entry for ["a"] is not the number 2. *)
Lemma repeated_key_not_overwritten :
  exists o,
    parse (json_text "{'a':1,'a':2}") = Ok (Object o)
    /\ o !! str "a" = Some (Number (dbl 1 1))
    /\ o !! str "a" <> Some (Number (dbl 2 1)).
Proof. eexists. split; [by vm_compute|]. split; by vm_compute. Qed.

(** [parse] returns an array or an object, or fails. *)
Lemma parse_returns_container (txt : std_string) (v : json) :
  parse txt = Ok v -> is_container v = true.
Proof.
  unfold parse. destruct (parse_cursor txt) as [[v' j]| | |] eqn:H; try done.
  intros [= <-].
  apply parse_cursor_inv in H as (c0 & c & f & _ & _ & _ & Hf & H).
  replace (length txt + 2) with (S (length txt + 1)) in H by lia.
  cbn [call] in H.
  assert (f = p_parseObject \/ f = p_parseArray) as [-> | ->]
    by (destruct (Ascii.eqb c "{"); [by left|right; by destruct Hf]).
  - by eapply parseObject_loop_Object.
  - unfold parseArray in H. apply bind_Ok in H as (c' & _ & H).
    apply bind_Ok in H as (f & _ & H). by eapply parseArray_loop_Array.
Qed.

(** C10, amended.  When [parse] succeeds on a text and stops on a closing
    bracket of it, the top-level container it read, then it succeeds with
    the same value and the same cursor on that text followed by anything:
    nothing after the bracket is looked at. *)
Theorem parse_ignores_trailing_text (p rest : std_string) (v : json)
    (j : nat) :
  parse_cursor p = Ok (v, j) -> closes p j ->
  parse_cursor (p ++ rest) = Ok (v, j)
  /\ parse (p ++ rest) = Ok v
  /\ is_container v = true.
Proof.
  intros H Hj.
  assert (is_container v = true) as Hv.
  { apply (parse_returns_container p). unfold parse. by rewrite H. }
  assert (parse_cursor (p ++ rest) = Ok (v, j)) as Hrest.
  { apply parse_cursor_inv in H as (c0 & c & f & Hlen & Hc0 & Hc & Hf & H).
    destruct (call_extends (length p + 2) (length (p ++ rest) + 2) p rest
                ltac:(rewrite length_app; lia) _ _ _ _ H) as [Hij Hcall].
    specialize (Hcall j (le_n _) Hj).
    assert ((if negb (Ascii.eqb c0 "{") && negb (Ascii.eqb c0 "[")
             then skipSpaces (p ++ rest) 0 else 0)
            = (if negb (Ascii.eqb c0 "{") && negb (Ascii.eqb c0 "[")
               then skipSpaces p 0 else 0)) as Hindex.
    { destruct (_ && _); [|done]. by apply (skipSpaces_closes _ _ _ j). }
    apply (parse_cursor_intro _ c0 c f).
    - rewrite length_app. lia.
    - rewrite at_app by lia. done.
    - rewrite Hindex. by rewrite (at_closes _ _ _ j).
    - done.
    - by rewrite Hindex. }
  split; [done|]. split; [|done]. unfold parse. by rewrite Hrest.
Qed.

Lemma parse_ignores_trailing_text_witness :
  parse_cursor (json_text "{'a':1}" ++ str "garbage")
  = Ok (Object {[ str "a" := Number (dbl 1 1) ]}, 6)
  /\ parse (json_text "{'a':1}" ++ str "garbage")
     = Ok (Object {[ str "a" := Number (dbl 1 1) ]})
  /\ is_container (Object {[ str "a" := Number (dbl 1 1) ]}) = true.
Proof.
  apply (parse_ignores_trailing_text (json_text "{'a':1}") (str "garbage")).
  - by vm_compute.
  - right. by vm_compute.
Defined.

(** C10 as stated fails: a text that ends without its closing bracket
    parses, and what is put after it is read as part of the array. *)
Lemma parse_reads_past_open_array :
  parse (json_text "[1") = Ok (Array [Number (dbl 1 1)])
  /\ parse (json_text "[1" ++ json_text ",2")
     = Ok (Array [Number (dbl 1 1); Number (dbl 2 1)])
  /\ parse (json_text "[1" ++ json_text ",2")
     <> Ok (Array [Number (dbl 1 1)]).
Proof. repeat split; by vm_compute. Qed.

(** ** The recursion budget is never used up *)

Lemma bind_fuel {A B} (m : outcome A) (f : A -> outcome B) :
  m <> OutOfFuel -> (forall a, m = Ok a -> f a <> OutOfFuel) ->
  m ≫= f <> OutOfFuel.
Proof. destruct m; cbn; auto. Qed.

Lemma at_fuel (txt : std_string) (index : nat) : at_ txt index <> OutOfFuel.
Proof.
  unfold at_. destruct (txt !! index); [done|].
  by destruct (index =? length txt).
Qed.

Lemma parsingError_fuel {A} (txt : std_string) (index : nat) :
  @parsingError A txt index <> OutOfFuel.
Proof.
  unfold parsingError. pose proof (at_fuel txt index).
  by destruct (at_ txt index).
Qed.

Lemma getParser_fuel (c : ascii) : getParser c <> OutOfFuel.
Proof.
  unfold getParser.
  repeat match goal with |- context [if ?b then _ else _] => destruct b end;
    done.
Qed.

Lemma stod_fuel (s : std_string) : std.stod s <> OutOfFuel.
Proof.
  unfold std.stod, std.strtod_run.
  destruct (drop _ _) as [|c t]; [|destruct (Ascii.eqb_spec c "-"),
                                    (Ascii.eqb_spec c "+")]; subst;
    repeat match goal with
           | |- context [match ?x with _ => _ end] => destruct x
           end; done.
Qed.

Lemma parseString_loop_fuel (txt r : std_string) (index : nat)
    (data : std_string) :
  parseString_loop txt r index data <> OutOfFuel.
Proof.
  revert index data. induction r as [|c r IH]; intros index data; cbn.
  - apply parsingError_fuel.
  - destruct (Ascii.eqb c dquote); [done|].
    destruct (_ <=? _); [apply parsingError_fuel|apply IH].
Qed.

Section budget.
Variable callf : parser -> std_string -> nat -> outcome (json * nat).
Variable txt : std_string.
Variable base : nat.
Hypothesis Hfuel :
  forall f i, base < i -> i <= length txt -> callf f txt i <> OutOfFuel.
Hypothesis Hmono : forall f i v j, callf f txt i = Ok (v, j) -> i <= j.

Lemma parseArray_loop_fuel (n : nat) (f : parser) (index : nat)
    (data : list json) :
  base <= index -> index < length txt -> length txt <= n + index ->
  parseArray_loop callf n f txt index data <> OutOfFuel.
Proof.
  revert index data. induction n as [|n IH]; intros index data Hb Hlt Hn;
    [lia|].
  cbn [parseArray_loop].
  pose proof (skipSpaces_gt txt index) as Hs1.
  pose proof (skipSpaces_le txt index Hlt) as Hs1'.
  apply bind_fuel; [apply Hfuel; lia|]. intros [x i2] Hx.
  apply Hmono in Hx.
  pose proof (skipSpaces_gt txt i2) as Hs2.
  apply bind_fuel; [apply at_fuel|]. intros c Hc.
  destruct (Ascii.eqb c ","); [|done]. cbn [andb].
  destruct (Nat.ltb_spec (skipSpaces txt i2) (length txt)); [|done].
  apply IH; lia.
Qed.

Lemma parseArray_fuel (n : nat) (index : nat) :
  base <= index -> length txt < n + index ->
  parseArray callf n txt index <> OutOfFuel.
Proof.
  intros Hb Hn. unfold parseArray.
  pose proof (skipSpaces_gt txt index) as Hs1.
  apply bind_fuel; [apply at_fuel|]. intros c Hc%at_Ok_le.
  apply bind_fuel; [apply getParser_fuel|]. intros f _.
  apply parseArray_loop_fuel; lia.
Qed.

Lemma parseObject_loop_fuel (n : nat) (index : nat)
    (data : gmap std_string json) :
  base <= index -> index <= length txt -> length txt < n + index ->
  parseObject_loop callf n txt index data <> OutOfFuel.
Proof.
  revert index data. induction n as [|n IH]; intros index data Hb Hle Hn;
    [lia|].
  cbn [parseObject_loop].
  pose proof (skipSpaces_gt txt index) as Hs1.
  apply bind_fuel; [apply at_fuel|]. intros c Hc%at_Ok_le.
  destruct (Ascii.eqb c "}"); [done|].
  pose proof (scan_name_bounds (drop (S (skipSpaces txt index)) txt)
                (S (skipSpaces txt index)) []) as Hn1.
  destruct (scan_name _ _ _) as [name i2]. cbn [snd] in Hn1.
  pose proof (skipSpaces_gt txt i2) as Hs2.
  pose proof (skipSpaces_gt txt (skipSpaces txt i2)) as Hs3.
  apply bind_fuel; [apply at_fuel|]. intros c' Hc'%at_Ok_le.
  apply bind_fuel; [apply getParser_fuel|]. intros f _.
  apply bind_fuel; [apply Hfuel; lia|]. intros [x i4] Hx%Hmono.
  pose proof (skipSpaces_gt txt i4) as Hs4.
  apply bind_fuel; [apply at_fuel|]. intros c'' Hc''.
  destruct (Ascii.eqb c'' ","); [|done]. cbn [andb].
  destruct (Nat.ltb_spec (skipSpaces txt i4) (length txt)); [|done].
  apply IH; lia.
Qed.

End budget.

(** With a budget of more than what is left of the text, plus one, no call
    runs out. *)
Lemma call_enough_fuel (fuel : nat) (f : parser) (txt : std_string)
    (index : nat) :
  index <= length txt -> length txt + 2 <= fuel + index ->
  call fuel f txt index <> OutOfFuel.
Proof.
  revert f index. induction fuel as [|fuel IH]; intros f index Hle Hfuel;
    [lia|].
  assert (forall f i, index < i -> i <= length txt ->
                      call fuel f txt i <> OutOfFuel) as Hcall.
  { intros f' i Hi Hi'. apply IH; lia. }
  assert (forall f i v j, call fuel f txt i = Ok (v, j) -> i <= j) as Hmono.
  { intros f' i v j H.
    by destruct (call_extends fuel fuel txt [] (le_n _) _ _ _ _ H). }
  cbn [call]. destruct f.
  - apply (parseObject_loop_fuel _ _ index Hcall Hmono); lia.
  - apply (parseArray_fuel _ _ index Hcall Hmono); lia.
  - unfold parseString. destruct (_ <? _); [done|].
    apply parseString_loop_fuel.
  - unfold parseBoolean. destruct (_ && _); [done|].
    destruct (_ && _); [done|]. apply parsingError_fuel.
  - unfold parseNumber, substr. destruct (_ <? _); [done|].
    cbn [mbind outcome_bind]. apply bind_fuel; [apply stod_fuel|].
    by intros [d n] _.
  - unfold parseNull. destruct (_ && _); [done|]. apply parsingError_fuel.
Qed.

(** [parse] never stops for want of budget: every outcome of the model is
    an outcome of the code. *)
Theorem parse_total (txt : std_string) :
  parse_cursor txt <> OutOfFuel /\ parse txt <> OutOfFuel.
Proof.
  assert (parse_cursor txt <> OutOfFuel) as H.
  { unfold parse_cursor. destruct (_ <? _); [done|].
    apply bind_fuel; [apply at_fuel|]. intros c0 _.
    apply bind_fuel; [apply at_fuel|]. intros c Hc%at_Ok_le.
    destruct (Ascii.eqb c "{"); [apply call_enough_fuel; lia|].
    destruct (Ascii.eqb c "["); [apply call_enough_fuel; lia|done]. }
  split; [done|]. unfold parse.
  by destruct (parse_cursor txt).
Qed.

(** ** The table of the union *)

(** X1.  Every payload type has one position in [Ts...]: [find_index] is never
    [-1] or [-2], so the two [static_assert]s of [find_type] hold.  The tag
    of a type is its position plus one, it is never the null tag, distinct
    types have distinct tags, and [using_pointer] of the tag is the test
    of the size of the type against that of a pointer by which the
    constructors choose between the box and the word itself. *)
Theorem find_type_table (T : data_type) :
  (0 <= find_index T < Z.of_nat (length Ts))%Z
  /\ Ts !! Z.to_nat (find_index T) = Some T
  /\ json_type.to_int (find_type T) = (find_index T + 1)%Z
  /\ find_type T <> json_type.null
  /\ (forall T', find_type T = find_type T' -> T = T')
  /\ using_pointer (find_type T) = (sizeof_pointer <? sizeof T)%Z
  /\ (forall p, getType (json_of T p) = find_type T).
Proof.
  repeat split; try (destruct T; done); try (destruct T; cbn; lia).
  intros T'. by destruct T, T'.
Qed.

(** ** Copies *)

Section copies.
Context {It : Iteration}.

Lemma mapM_Ok {A B} (f : A -> outcome B) (g : A -> B) (l : list A) :
  Forall (fun x => f x = Ok (g x)) l -> mapM f l = Ok (g <$> l).
Proof.
  induction 1 as [|x l Hx _ IH]; [done|].
  cbn. rewrite Hx. cbn. by rewrite IH.
Qed.

Lemma list_to_map_iterate (o : gmap std_string json) :
  list_to_map (iterate o) = o.
Proof.
  rewrite <- (list_to_map_to_list o) at 2.
  apply list_to_map_proper; [|apply iterate_perm].
  rewrite iterate_perm. apply NoDup_fst_map_to_list.
Qed.

Lemma copy_json_data_Ok (v : json) (fuel : nat) :
  json_size v <= fuel -> copy_json_data fuel v = Ok v.
Proof.
  revert fuel.
  induction v as [|b|d|s|a IH|o IH] using json_tree_ind;
    intros [|fuel] Hf; try (cbn in Hf; lia); try done.
  - cbn [copy_json_data getType]. unfold copy.
    rewrite bool_decide_false by (intros H; by apply H).
    change (get T_Array (Array a)) with (Ok a : outcome (list json)).
    cbn [mbind outcome_bind copy_payload].
    rewrite (mapM_Ok _ id).
    + cbn. by rewrite list_fmap_id.
    + rewrite Forall_forall in IH |- *. intros x Hx. apply IH; [done|].
      pose proof (json_size_elem a x Hx). unfold id. cursor_lia.
  - cbn [copy_json_data getType]. unfold copy.
    rewrite bool_decide_false by (intros H; by apply H).
    change (get T_Object (Object o))
      with (Ok o : outcome (gmap std_string json)).
    cbn [mbind outcome_bind copy_payload].
    rewrite (mapM_Ok _ id).
    + cbn. by rewrite list_fmap_id, list_to_map_iterate.
    + apply Forall_forall. intros [k x] Hkx. cbn [fst snd].
      rewrite iterate_perm in Hkx. apply elem_of_map_to_list in Hkx.
      rewrite (IH k x Hkx); [done|].
      pose proof (json_size_lookup o k x Hkx). cursor_lia.
Qed.

(** X2.  The copy constructor and the copy assignment never throw, whatever
    the value, and what they build is equal to their source, all of its
    tree included; the recursion of [copy_json_data] goes no deeper than
    the size of the tree. *)
Theorem copy_gives_equal_value (v this : json) :
  copy_construct v = Ok v
  /\ copy_assign this v = Ok v
  /\ (forall fuel, json_size v <= fuel -> copy_json_data fuel v = Ok v).
Proof.
  unfold copy_construct, copy_assign.
  rewrite copy_json_data_Ok by done. repeat split.
  apply copy_json_data_Ok.
Qed.

End copies.

(** ** Access by key *)

Lemma get_Object (o : gmap std_string json) :
  get T_Object (Object o) = Ok o.
Proof. by apply get_Ok. Qed.

Lemma get_Object_mismatch (v : json) :
  getType v <> json_type.object ->
  get T_Object v
  = Throw (invalid_argument
             (str "wrong type T: 5 type: "
              ++ std.to_string_int (json_type.to_int (getType v)))).
Proof.
  intros Hne. unfold get. rewrite bool_decide_true; [done|].
  intros H. apply Hne. by rewrite <- H.
Qed.

(** X3.  On a [const] value, [operator[](s)] returns the value of the key [s]
    of an object and throws [std::out_of_range] when the object has no
    such key; on a value that is not an object it throws the
    [std::invalid_argument] of [get<Object>()], not the cast error that
    indexing by position throws.  It is never undefined. *)
Theorem operator_index_key_lookup (v : json) (s : std_string) :
  (forall o x, v = Object o -> o !! s = Some x ->
     operator_index_key v s = Ok x)
  /\ (forall o, v = Object o -> o !! s = None ->
        exists what, operator_index_key v s = Throw (out_of_range what))
  /\ (getType v <> json_type.object ->
      operator_index_key v s
      = Throw (invalid_argument
                 (str "wrong type T: 5 type: "
                  ++ std.to_string_int (json_type.to_int (getType v))))
      /\ operator_index_key v s <> Throw (castError v json_type.object))
  /\ operator_index_key v s <> Undefined.
Proof.
  unfold operator_index_key, at_key. split; [|split; [|split]].
  - intros o x -> Hx. rewrite get_Object. cbn. by rewrite Hx.
  - intros o -> Hx. rewrite get_Object. cbn. rewrite Hx. by eexists.
  - intros Hne. by rewrite (get_Object_mismatch v Hne).
  - destruct v as [| | | | |o]; try done.
    rewrite get_Object. cbn. by destruct (o !! s).
Qed.

(** X4.  On a value that is not [const], [operator[](s)] never throws on an
    object: a key that is absent is added with the null value, which
    makes the object one larger and leaves every other key as it was;
    a key that is present is returned and the object stays as it is.  After
    the call the key is there. *)
Theorem operator_index_key_mut_inserts (o : gmap std_string json)
    (s : std_string) :
  (forall x, o !! s = Some x ->
     operator_index_key_mut (Object o) s = Ok (x, Object o))
  /\ (o !! s = None ->
      operator_index_key_mut (Object o) s
      = Ok (Null, Object (<[s := Null]> o))
      /\ size_ (Object (<[s := Null]> o)) = Ok (S (size o)))
  /\ (forall x v',
        operator_index_key_mut (Object o) s = Ok (x, v') ->
        operator_index_key v' s = Ok x
        /\ forall s', s' <> s ->
             operator_index_key v' s' = operator_index_key (Object o) s')
  /\ (forall v, getType v <> json_type.object ->
        exists what,
          operator_index_key_mut v s = Throw (invalid_argument what)).
Proof.
  unfold operator_index_key_mut, operator_index_key, at_key, size_.
  rewrite get_Object. cbn [mbind outcome_bind getType].
  split; [|split; [|split]].
  - by intros x ->.
  - intros Hs. rewrite Hs. split; [done|].
    rewrite get_Object. cbn. f_equal. by apply map_size_insert_None.
  - intros x v' H. destruct (o !! s) as [y|] eqn:Hs;
      injection H as <- <-; rewrite !get_Object; cbn.
    + by rewrite Hs.
    + rewrite lookup_insert_eq. split; [done|].
      intros s' Hne. by rewrite lookup_insert_ne.
  - intros v Hv. rewrite (get_Object_mismatch v Hv). by eexists.
Qed.

(** ** Sizes *)

(** X5.  [size()] answers on arrays and objects only, with the number of
    elements or of keys, and [length()] on strings only; on every other
    value they throw the cast error, which for [size()] names the array
    type even when the value is a string. *)
Theorem size_length_by_variant (v : json) :
  (forall n, size_ v = Ok n <->
     (exists a, v = Array a /\ n = length a)
     \/ (exists o, v = Object o /\ n = size o))
  /\ (forall n, length_ v = Ok n <-> exists s, v = String s /\ n = length s)
  /\ (is_container v = false ->
      size_ v = Throw (castError v json_type.array))
  /\ (getType v <> json_type.string ->
      length_ v = Throw (castError v json_type.string))
  /\ size_ v <> Undefined /\ length_ v <> Undefined.
Proof.
  split; [|split; [|split; [|split; [|split]]]].
  - intros n. split.
    + destruct v as [| | | |a|o]; try done; intros [= <-]; eauto.
    + intros [(a & -> & ->)|(o & -> & ->)]; done.
  - intros n. split.
    + destruct v as [| | |s| |]; try done. intros [= <-]. eauto.
    + by intros (s & -> & ->).
  - by destruct v.
  - by destruct v.
  - by destruct v.
  - by destruct v.
Qed.

(** X6.  In the other revision [size()] and [length()] answer on the same
    values, and on every other value they throw the error of [get], which
    names the two types; the [return 0] that ends [size()] is never
    reached. *)
Theorem part_000_size_length_by_variant (v : json) :
  (forall n, part_000.size_ v = Ok n <->
     (exists a, v = Array a /\ n = length a)
     \/ (exists o, v = Object o /\ n = size o))
  /\ (forall n, part_000.length_ v = Ok n <->
        exists s, v = String s /\ n = length s)
  /\ (is_container v = false ->
      part_000.size_ v
      = Throw (invalid_argument
                 (str "Tried to access array but dynamic type was "
                  ++ typeToString (getType v))))
  /\ (getType v <> json_type.string ->
      part_000.length_ v
      = Throw (invalid_argument
                 (str "Tried to access string but dynamic type was "
                  ++ typeToString (getType v)))).
Proof.
  split; [|split; [|split]].
  - intros n. split.
    + destruct v as [| | | |a|o]; try done; intros [= <-]; eauto.
    + intros [(a & -> & ->)|(o & -> & ->)]; done.
  - intros n. split.
    + destruct v as [| | |s| |]; try done. intros [= <-]. eauto.
    + by intros (s & -> & ->).
  - by destruct v.
  - by destruct v.
Qed.

(** X7.  In the other revision [operator[](index)] has no check of its own: an
    index within the array gives the element, an index at or past the
    length is undefined behaviour, and a value that is not an array gives
    the error of [get]. *)
Theorem part_000_operator_index_no_check (v : json) (index : nat) :
  (forall a, v = Array a ->
     part_000.operator_index v index
     = match a !! index with Some x => Ok x | None => Undefined end)
  /\ (forall a, v = Array a -> length a <= index ->
        part_000.operator_index v index = Undefined)
  /\ (getType v <> json_type.array ->
      part_000.operator_index v index
      = Throw (invalid_argument
                 (str "Tried to access array but dynamic type was "
                  ++ typeToString (getType v)))).
Proof.
  split; [|split].
  - by intros a ->.
  - intros a -> Hge. unfold part_000.operator_index.
    change (part_000.get T_Array (Array a)) with (Ok a : outcome (list json)).
    cbn [mbind outcome_bind]. change (payload T_Array) with (list json).
    by rewrite (lookup_ge_None_2 a index Hge).
  - by destruct v.
Qed.

(** ** Where [skipSpaces] stops *)

Lemma skipSpaces_from_spaces (rest : std_string) (index : nat) :
  (forall k c, k < skipSpaces_from rest index - index ->
               rest !! k = Some c -> isspace c = true)
  /\ (forall c, rest !! (skipSpaces_from rest index - index) = Some c ->
                isspace c = false).
Proof.
  revert index. induction rest as [|c rest IH]; intros index; cbn.
  - split; intros; [lia|done].
  - destruct (isspace c) eqn:Hc.
    + destruct (IH (S index)) as [H1 H2].
      pose proof (skipSpaces_from_bounds rest (S index)) as Hb. split.
      * intros [|k] c' Hk Hl; cbn in Hl; [congruence|].
        apply (H1 k c'); [lia|done].
      * intros c'.
        replace (skipSpaces_from rest (S index) - index)
          with (S (skipSpaces_from rest (S index) - S index)) by lia.
        cbn. apply H2.
    + split; [intros; lia|]. rewrite Nat.sub_diag. cbn. congruence.
Qed.

Lemma skipSpaces_from_run (ws : std_string) (c : ascii) (s : std_string)
    (index : nat) :
  forallb isspace ws = true -> isspace c = false ->
  skipSpaces_from (ws ++ c :: s) index = index + length ws.
Proof.
  revert index. induction ws as [|w ws IH]; intros index Hws Hc; cbn.
  - rewrite Hc. lia.
  - cbn in Hws. apply andb_prop in Hws as [-> Hws]. rewrite IH by done. lia.
Qed.

Lemma skipSpaces_run (txt : std_string) (i : nat) (ws : std_string)
    (c : ascii) (s : std_string) :
  drop (S i) txt = ws ++ c :: s ->
  forallb isspace ws = true -> isspace c = false ->
  skipSpaces txt i = S i + length ws
  /\ drop (S i + length ws) txt = c :: s
  /\ at_ txt (S i + length ws) = Ok c.
Proof.
  intros H Hws Hc. unfold skipSpaces. rewrite H.
  split; [by apply skipSpaces_from_run|].
  apply drop_app_inv in H. split; [done|]. by eapply at_drop.
Qed.

Lemma skipSpaces_end (txt : std_string) (i : nat) :
  length txt <= S i -> skipSpaces txt i = S i.
Proof. intros H. unfold skipSpaces. by rewrite drop_ge. Qed.

Lemma at_past (txt : std_string) (i : nat) :
  length txt < i -> at_ txt i = Undefined.
Proof.
  intros H. unfold at_. rewrite lookup_ge_None_2 by lia.
  destruct (Nat.eqb_spec i (length txt)); [lia|done].
Qed.

(** X8.  [skipSpaces] moves the cursor forward by one at least, over white
    space only, and leaves it on the first character after [index] that is
    not white space, or on the end of the text.  It does not look at the
    character at [index] itself, and from the end of the text on it moves
    the cursor past the terminator. *)
Theorem skipSpaces_stops_on_first_non_space (txt : std_string)
    (index : nat) :
  index < skipSpaces txt index
  /\ (forall k, index < k < skipSpaces txt index ->
        exists c, txt !! k = Some c /\ isspace c = true)
  /\ (forall c, txt !! skipSpaces txt index = Some c -> isspace c = false)
  /\ (index < length txt -> skipSpaces txt index <= length txt)
  /\ (length txt <= index ->
      skipSpaces txt index = S index
      /\ at_ txt (skipSpaces txt index) = Undefined)
  /\ (forall c, skipSpaces (<[index := c]> txt) index = skipSpaces txt index).
Proof.
  pose proof (skipSpaces_gt txt index) as Hgt.
  destruct (skipSpaces_from_spaces (drop (S index) txt) (S index))
    as [Hrun Hstop].
  fold (skipSpaces txt index) in Hrun, Hstop.
  split; [done|]. split; [|split; [|split; [|split]]].
  - intros k [Hk1 Hk2].
    destruct (decide (index < length txt)) as [Hin|Hout].
    + pose proof (skipSpaces_le txt index Hin).
      destruct (lookup_lt_is_Some_2 txt k) as [c Hc]; [lia|].
      exists c. split; [done|]. apply (Hrun (k - S index)); [lia|].
      rewrite lookup_drop. by replace (S index + (k - S index)) with k by lia.
    + rewrite skipSpaces_end in Hk2 by lia. lia.
  - intros c Hc. apply Hstop. rewrite lookup_drop.
    by replace (S index + (skipSpaces txt index - S index))
      with (skipSpaces txt index) by lia.
  - apply skipSpaces_le.
  - intros Hge. rewrite skipSpaces_end by lia. split; [done|].
    apply at_past. lia.
  - intros c. unfold skipSpaces. by rewrite drop_insert_lt by lia.
Qed.

(** ** Texts that end inside an object *)

Lemma scan_name_no_quote (k : std_string) (index : nat) (name : std_string) :
  no_dquote k = true -> scan_name k index name = (name ++ k, index + length k).
Proof.
  revert index name. induction k as [|c k IH]; intros index name Hk.
  - cbn. rewrite app_nil_r. f_equal. lia.
  - cbn in Hk. apply andb_prop in Hk as [Hc Hk].
    cbn [scan_name]. apply negb_true_iff in Hc. rewrite Hc.
    rewrite IH by done. rewrite <- app_assoc. cbn [length]. f_equal. lia.
Qed.

(** A round of [parseObject] on a text that ends inside a key, or with the
    quote that closes it. *)
Lemma parseObject_loop_key_at_end
    (callf : parser -> std_string -> nat -> outcome (json * nat))
    (n : nat) (txt : std_string) (i : nat) (name tail : std_string)
    (data : gmap std_string json) :
  drop (S i) txt = dquote :: name ++ tail -> no_dquote name = true ->
  tail = [] \/ tail = [dquote] ->
  parseObject_loop callf (S n) txt i data = Undefined.
Proof.
  intros Hd Hname Htail. cbn [parseObject_loop].
  rewrite (skipSpaces_next _ _ _ _ Hd eq_refl), (at_drop _ _ _ _ Hd).
  cbn [mbind outcome_bind]. change (Ascii.eqb dquote "}") with false.
  cbn [negb].
  pose proof (length_of_drop _ _ _ _ Hd) as Hlen.
  destruct (drop_cons_inv _ _ _ _ Hd) as (_ & Hkey & _).
  rewrite Hkey. rewrite length_app in Hlen.
  destruct Htail as [-> | ->]; cbn [length] in Hlen.
  - rewrite app_nil_r, (scan_name_no_quote _ _ _ Hname).
    rewrite (skipSpaces_end txt (S (S i) + length name)) by lia.
    rewrite (skipSpaces_end txt) by lia.
    by rewrite at_past by lia.
  - rewrite (scan_name_text _ _ _ _ Hname).
    rewrite (skipSpaces_end txt (S (S i) + length name)) by lia.
    rewrite (skipSpaces_end txt) by lia.
    by rewrite at_past by lia.
Qed.

(** X9.  On an object text that ends inside a key, or right after the quote
    that closes a key, [parse] reads [txt[index]] two places past the
    end of the text: the behaviour is undefined, no exception is thrown. *)
Theorem parse_reads_past_end_after_key (name : std_string) :
  no_dquote name = true ->
  parse ("{"%char :: dquote :: name) = Undefined
  /\ parse ("{"%char :: dquote :: name ++ [dquote]) = Undefined.
Proof.
  intros Hname.
  assert (forall tail, tail = [] \/ tail = [dquote] ->
            parse ("{"%char :: dquote :: name ++ tail) = Undefined) as H.
  { intros tail Htail. unfold parse, parse_cursor. cbn [length Nat.ltb Nat.leb].
    cbn [at_ lookup list_lookup mbind outcome_bind Ascii.eqb Bool.eqb
         negb andb Nat.add call].
    unfold parseObject.
    by rewrite (parseObject_loop_key_at_end _ _ _ 0 name tail). }
  split; [|by apply H; right].
  rewrite <- (app_nil_r name). apply H. by left.
Qed.

Lemma parse_reads_past_end_after_key_witness :
  parse ("{"%char :: dquote :: str "key") = Undefined
  /\ parse ("{"%char :: dquote :: str "key" ++ [dquote]) = Undefined.
Proof. by apply parse_reads_past_end_after_key. Defined.

(** ** The first character of an element *)

Lemma parse_array_first (ws : std_string) (c : ascii) (rest : std_string)
    (e : exception) :
  forallb isspace ws = true -> isspace c = false -> getParser c = Throw e ->
  parse ("["%char :: ws ++ c :: rest) = Throw e.
Proof.
  intros Hws Hc He. unfold parse, parse_cursor.
  assert (2 <= length ("["%char :: ws ++ c :: rest)) as Hlen.
  { cbn [length]. rewrite length_app. cbn [length]. lia. }
  destruct (Nat.ltb_spec (length ("["%char :: ws ++ c :: rest)) 2); [lia|].
  cbn [at_ lookup list_lookup mbind outcome_bind Ascii.eqb Bool.eqb
       negb andb].
  replace (length ("["%char :: ws ++ c :: rest) + 2)
    with (S (length ("["%char :: ws ++ c :: rest) + 1)) by lia.
  cbn [call]. unfold parseArray.
  destruct (skipSpaces_run ("["%char :: ws ++ c :: rest) 0 ws c rest)
    as (-> & _ & ->); [done..|].
  cbn [mbind outcome_bind]. by rewrite He.
Qed.

(** X10.  The first element of an array decides: when its first character is
    none of those [getParser] knows, a minus sign or a closing bracket for
    one, [parse] throws the error of [getParser], whatever follows. *)
Theorem parse_array_rejects_unknown_start (ws : std_string) (c : ascii)
    (rest : std_string) :
  forallb isspace ws = true -> isspace c = false ->
  c ∉ ["{"; "["; dquote; "t"; "f"; "n"]%char -> std.isdigit c = false ->
  parse ("["%char :: ws ++ c :: rest)
  = Throw (runtime_error (str "Invalid symbole begin: " ++ [c])).
Proof.
  intros Hws Hc Hnot Hd. apply parse_array_first; [done..|].
  unfold getParser. rewrite Hd.
  repeat match goal with
         | |- context [Ascii.eqb c ?x] =>
             destruct (Ascii.eqb_spec c x) as [->|_];
             [exfalso; apply Hnot; set_solver|]
         end.
  done.
Qed.

Lemma parse_array_rejects_unknown_start_witness :
  parse ("["%char :: str " " ++ "-"%char :: str "1]")
  = Throw (runtime_error (str "Invalid symbole begin: " ++ ["-"%char])).
Proof.
  apply parse_array_rejects_unknown_start; [done..| |done].
  apply (bool_decide_unpack _). vm_compute. exact I.
Defined.

Lemma isspace_tabs (n : Z) : forallb isspace (tabs n) = true.
Proof. unfold tabs. by induction (Z.to_nat n). Qed.

(** What [to_string] puts between the brackets of an empty container. *)
Lemma to_string_empty {It : Iteration} (indent : Z) :
  exists ws,
    forallb isspace ws = true
    /\ to_string (Array []) indent = "["%char :: ws ++ ["]"%char]
    /\ to_string (Object ∅) indent = "{"%char :: ws ++ ["}"%char].
Proof.
  cbn [to_string].
  assert (iterate ((fun x => to_string x (if (indent <? 0)%Z then indent
                                          else (indent + 1)%Z))
                     <$> (∅ : gmap std_string json)) = []) as ->.
  { apply Permutation_nil. symmetry.
    by rewrite iterate_perm, fmap_empty, map_to_list_empty. }
  cbn [fmap list_fmap array_items object_items app].
  destruct (indent <? 0)%Z eqn:Hneg.
  - rewrite Hneg. by exists [].
  - destruct (indent + 1 <? 0)%Z.
    + by exists [].
    + exists (newline :: tabs (indent + 1 - 1)). split; [|done].
      cbn. apply isspace_tabs.
Qed.

(** X11.  An empty object parses, with any white space between its brackets and
    anything after it; an empty array does not, and neither does the text
    that [to_string] writes for one. *)
Theorem parse_empty_object_but_not_array {It : Iteration}
    (ws rest : std_string) (indent : Z) :
  forallb isspace ws = true ->
  parse ("{"%char :: ws ++ "}"%char :: rest) = Ok (Object ∅)
  /\ parse ("["%char :: ws ++ "]"%char :: rest)
     = Throw (runtime_error (str "Invalid symbole begin: ]"))
  /\ parse (to_string (Array []) indent)
     = Throw (runtime_error (str "Invalid symbole begin: ]"))
  /\ parse (to_string (Object ∅) indent) = Ok (Object ∅).
Proof.
  intros Hws.
  assert (forall ws rest, forallb isspace ws = true ->
            parse ("{"%char :: ws ++ "}"%char :: rest) = Ok (Object ∅)) as Ho.
  { clear. intros ws rest Hws. unfold parse, parse_cursor.
    assert (2 <= length ("{"%char :: ws ++ "}"%char :: rest)) as Hlen.
    { cbn [length]. rewrite length_app. cbn [length]. lia. }
    destruct (Nat.ltb_spec (length ("{"%char :: ws ++ "}"%char :: rest)) 2);
      [lia|].
    cbn [at_ lookup list_lookup mbind outcome_bind Ascii.eqb Bool.eqb
         negb andb].
    replace (length ("{"%char :: ws ++ "}"%char :: rest) + 2)
      with (S (S (length ("{"%char :: ws ++ "}"%char :: rest)))) by lia.
    cbn [call]. unfold parseObject. cbn [parseObject_loop].
    destruct (skipSpaces_run ("{"%char :: ws ++ "}"%char :: rest) 0 ws
                "}" rest) as (-> & _ & ->); done. }
  split; [by apply Ho|]. split; [by apply parse_array_first|].
  destruct (to_string_empty indent) as (ws' & Hws' & -> & ->).
  split; [by apply parse_array_first|by apply Ho].
Qed.

Lemma parse_empty_object_but_not_array_witness :
  parse ("{"%char :: [newline; tab] ++ "}"%char :: str "x") = Ok (Object ∅)
  /\ parse ("["%char :: [newline; tab] ++ "]"%char :: str "x")
     = Throw (runtime_error (str "Invalid symbole begin: ]"))
  /\ parse (to_string (It := listing_order) (Array []) 0)
     = Throw (runtime_error (str "Invalid symbole begin: ]"))
  /\ parse (to_string (It := listing_order) (Object ∅) 0) = Ok (Object ∅).
Proof. by apply parse_empty_object_but_not_array. Defined.

(** ** The literals and the strings *)

Lemma parsingError_Throw {A} (txt : std_string) (i : nat) :
  i <= length txt ->
  exists c,
    at_ txt i = Ok c
    /\ @parsingError A txt i
       = Throw (runtime_error
                  (str "Invalid symbole '" ++ c :: str "' at index "
                   ++ std.to_string_int (Z.of_nat i) ++ str "'")).
Proof.
  intros Hi. unfold parsingError, at_.
  destruct (txt !! i) as [c|] eqn:Hc; [by exists c|].
  apply lookup_ge_None_1 in Hc.
  destruct (Nat.eqb_spec i (length txt)); [|lia]. by exists NUL.
Qed.

(** X12.  [parseNull] and [parseBoolean] succeed exactly when the text spells
    the literal from the cursor on, and leave the cursor on its last
    letter; on any other text, a shortened or a capitalised literal
    included, they throw the parsing error, which tells the character
    under the cursor and its index. *)
Theorem literal_rules_exact (txt : std_string) (i : nat) :
  (forall r, parseNull txt i = Ok r <->
     r = (Null, i + 3) /\ exists s', drop i txt = str "null" ++ s')
  /\ (forall r, parseBoolean txt i = Ok r <->
        exists b s',
          r = (Boolean b, if b then i + 3 else i + 4)
          /\ drop i txt = (if b then str "true" else str "false") ++ s')
  /\ ((forall r, parseNull txt i <> Ok r) ->
      parseNull txt i = parsingError txt i)
  /\ ((forall r, parseBoolean txt i <> Ok r) ->
      parseBoolean txt i = parsingError txt i)
  /\ (i <= length txt ->
      exists c,
        at_ txt i = Ok c
        /\ @parsingError (json * nat) txt i
           = Throw (runtime_error
                      (str "Invalid symbole '" ++ c :: str "' at index "
                       ++ std.to_string_int (Z.of_nat i) ++ str "'"))).
Proof.
  split; [|split; [|split; [|split]]].
  - intros [v j]. split.
    + intros (-> & -> & Hs)%parseNull_inv. done.
    + intros [[= -> ->] [s' Hs]]. by eapply parseNull_text.
  - intros [v j]. split.
    + intros (b & s' & -> & Hs & ->)%parseBoolean_inv.
      exists b, s'. split; [|done]. destruct b; cbn; do 2 f_equal; lia.
    + intros (b & s' & [= -> ->] & Hs).
      rewrite (parseBoolean_text _ _ _ _ Hs).
      destruct b; cbn; do 2 f_equal; lia.
  - intros Hno. unfold parseNull in *.
    destruct (_ && _); [by destruct (Hno (Null, i + 3))|done].
  - intros Hno. unfold parseBoolean in *.
    destruct (_ && _); [by destruct (Hno (Boolean false, i + 4))|].
    destruct (_ && _); [by destruct (Hno (Boolean true, i + 3))|done].
  - apply parsingError_Throw.
Qed.

Lemma drop_S_app_cons {A} (pre : list A) (c : A) (s : list A) :
  drop (S (length pre)) (pre ++ c :: s) = s.
Proof.
  replace (S (length pre)) with (length pre + 1) by lia.
  by rewrite <- drop_drop, drop_app_length.
Qed.

Lemma parseString_loop_last (txt s : std_string) (index : nat)
    (data : std_string) :
  no_dquote s = true -> s <> [] -> length txt = index + length s + 2 ->
  parseString_loop txt (s ++ [dquote]) index data
  = parsingError txt (index + length s).
Proof.
  revert index data. induction s as [|c s IH]; intros index data Hs Hne Hlen;
    [done|].
  cbn in Hs. apply andb_prop in Hs as [Hc Hs]. apply negb_true_iff in Hc.
  cbn [app parseString_loop]. rewrite Hc. cbn [length] in Hlen.
  destruct s as [|c' s]; cbn [length] in Hlen.
  - destruct (Nat.leb_spec (length txt) (S index + 2)); [|cursor_lia].
    cbn [length]. f_equal. lia.
  - destruct (Nat.leb_spec (length txt) (S index + 2)); [cursor_lia|].
    rewrite IH; [|done|done|cbn [length]; lia].
    cbn [length]. f_equal. lia.
Qed.

Lemma parseString_loop_open (txt r : std_string) (index : nat)
    (data : std_string) :
  no_dquote r = true -> length txt = index + length r + 1 ->
  exists e, parseString_loop txt r index data = Throw e.
Proof.
  revert index data. induction r as [|c r IH]; intros index data Hr Hlen.
  - cbn [parseString_loop].
    destruct (@parsingError_Throw (json * nat) txt (S index))
      as (c & _ & ->); [cbn in Hlen; lia|]. by eexists.
  - cbn in Hr. apply andb_prop in Hr as [Hc Hr]. apply negb_true_iff in Hc.
    cbn [parseString_loop]. rewrite Hc. cbn [length] in Hlen.
    destruct (Nat.leb_spec (length txt) (S index + 2)).
    + destruct (@parsingError_Throw (json * nat) txt (S index))
        as (c' & _ & ->); [lia|]. by eexists.
    + apply IH; [done|lia].
Qed.

(** X13.  [parseString] takes every character up to the next double quote as it
    is, a backslash like any other, and leaves the cursor on that quote.
    A string that is not empty has to be followed by one character at
    least after its closing quote: at the very end of the text the
    parsing error is thrown on its last character.  A string with no
    closing quote ends in an exception, the text is not read past its
    end. *)
Theorem parseString_to_next_quote (pre s post : std_string) :
  no_dquote s = true ->
  (s = [] \/ post <> [] ->
   parseString (pre ++ dquote :: s ++ dquote :: post) (length pre)
   = Ok (String s, length pre + length s + 1))
  /\ (s <> [] ->
      parseString (pre ++ dquote :: s ++ [dquote]) (length pre)
      = parsingError (pre ++ dquote :: s ++ [dquote])
          (length pre + length s))
  /\ (exists e, parseString (pre ++ dquote :: s) (length pre) = Throw e).
Proof.
  intros Hs. split; [|split].
  - intros [-> | Hpost].
    + unfold parseString. rewrite length_app. cbn [length app].
      destruct (Nat.ltb_spec (length pre + S (S (length post)))
                  (S (length pre))); [lia|].
      replace (S (length pre)) with (length pre + 1) at 1 by lia.
      rewrite <- drop_drop, drop_app_length. cbn [drop parseString_loop].
      change (Ascii.eqb dquote dquote) with true. cbn.
      do 2 f_equal. lia.
    + apply (parseString_text _ _ s post); [done..|].
      by rewrite drop_app_length.
  - intros Hne. unfold parseString. rewrite !length_app. cbn [length].
    rewrite length_app. cbn [length].
    destruct (Nat.ltb_spec (length pre + S (length s + 1)) (S (length pre)));
      [lia|].
    replace (S (length pre)) with (length pre + 1) at 1 by lia.
    rewrite <- drop_drop, drop_app_length. cbn [drop]. rewrite drop_0.
    rewrite parseString_loop_last; [done..|].
    rewrite !length_app. cbn [length]. rewrite length_app. cbn [length]. lia.
  - unfold parseString. rewrite length_app. cbn [length].
    destruct (Nat.ltb_spec (length pre + S (length s)) (S (length pre)));
      [lia|].
    rewrite (drop_S_app_cons pre).
    apply parseString_loop_open; [done|].
    rewrite length_app. cbn [length]. lia.
Qed.

Lemma parseString_to_next_quote_witness :
  (str "a\b" = [] \/ str "," <> [] ->
   parseString (str "[" ++ dquote :: str "a\b" ++ dquote :: str ",")
     (length (str "["))
   = Ok (String (str "a\b"), length (str "[") + length (str "a\b") + 1))
  /\ (str "a\b" <> [] ->
      parseString (str "[" ++ dquote :: str "a\b" ++ [dquote])
        (length (str "["))
      = parsingError (str "[" ++ dquote :: str "a\b" ++ [dquote])
          (length (str "[") + length (str "a\b")))
  /\ (exists e,
        parseString (str "[" ++ dquote :: str "a\b") (length (str "["))
        = Throw e).
Proof. by apply parseString_to_next_quote. Defined.

(** ** The values that [parse] returns *)

Lemma readable_Object (o : gmap std_string json) :
  readable (Object o) = true
  <-> map_Forall (fun k x => no_dquote k = true /\ readable x = true) o.
Proof.
  cbn [readable]. rewrite forallb_forall. split.
  - intros H k x Hk. apply andb_prop, (H (k, readable x)).
    apply list_elem_of_In, elem_of_map_to_list. by rewrite lookup_fmap, Hk.
  - intros H [k b] Hin.
    apply list_elem_of_In, elem_of_map_to_list in Hin.
    rewrite lookup_fmap in Hin. destruct (o !! k) as [x|] eqn:Hk; [|done].
    injection Hin as <-. destruct (H k x Hk) as [Hq Hx]. cbn [fst snd].
    by rewrite Hq, Hx.
Qed.

Lemma readable_Array (f : parser) (a : list json) :
  a <> [] -> Forall (fun y => readable y = true /\ lead y = f) a ->
  readable (Array a) = true.
Proof.
  destruct a as [|x a]; [done|]. intros _ H. cbn [readable].
  apply forallb_forall. intros y Hy%list_elem_of_In.
  rewrite Forall_forall in H. destruct (H y Hy) as [-> ->].
  destruct (H x) as [_ ->]; [left|]. by rewrite bool_decide_true.
Qed.

Lemma no_dquote_snoc (s : std_string) (c : ascii) :
  no_dquote s = true -> Ascii.eqb c dquote = false ->
  no_dquote (s ++ [c]) = true.
Proof.
  intros Hs Hc. unfold no_dquote in *. rewrite forallb_app, Hs. cbn.
  by rewrite Hc.
Qed.

Lemma parseString_loop_String (txt r : std_string) (index : nat)
    (data : std_string) (v : json) (j : nat) :
  no_dquote data = true ->
  parseString_loop txt r index data = Ok (v, j) ->
  lead v = p_parseString /\ readable v = true.
Proof.
  revert index data. induction r as [|c r IH]; intros index data Hdata;
    cbn [parseString_loop].
  - by intros ?%parsingError_not_Ok.
  - destruct (Ascii.eqb c dquote) eqn:Hc; [by intros [= <- _]|].
    destruct (_ <=? _); [by intros ?%parsingError_not_Ok|].
    apply IH. by apply no_dquote_snoc.
Qed.

Lemma scan_name_no_dquote (r : std_string) (index : nat)
    (name : std_string) :
  no_dquote name = true -> no_dquote (scan_name r index name).1 = true.
Proof.
  revert index name. induction r as [|c r IH]; intros index name Hname;
    cbn [scan_name]; [done|].
  destruct (Ascii.eqb c dquote) eqn:Hc; [done|].
  apply IH. by apply no_dquote_snoc.
Qed.

Section readability.
Variable callf : parser -> std_string -> nat -> outcome (json * nat).
Hypothesis callf_readable :
  forall f txt i v j,
    callf f txt i = Ok (v, j) -> lead v = f /\ readable v = true.

Lemma parseArray_loop_readable (n : nat) (f : parser) (txt : std_string)
    (index : nat) (data : list json) (v : json) (j : nat) :
  Forall (fun y => readable y = true /\ lead y = f) data ->
  parseArray_loop callf n f txt index data = Ok (v, j) ->
  lead v = p_parseArray /\ readable v = true.
Proof.
  revert index data. induction n as [|n IH]; intros index data Hdata;
    [done|].
  cbn [parseArray_loop]. intros H.
  apply bind_Ok in H as ([x i2] & Hx & H).
  apply bind_Ok in H as (c & _ & H).
  apply callf_readable in Hx as [Hlead Hx].
  assert (Forall (fun y => readable y = true /\ lead y = f) (data ++ [x]))
    as Hdata'.
  { apply Forall_app. split; [done|]. by apply Forall_singleton. }
  destruct (_ && _); [by eapply IH|]. injection H as <- _.
  split; [done|]. apply (readable_Array f); [|done]. by destruct data.
Qed.

Lemma parseObject_loop_readable (n : nat) (txt : std_string) (index : nat)
    (data : gmap std_string json) (v : json) (j : nat) :
  map_Forall (fun k x => no_dquote k = true /\ readable x = true) data ->
  parseObject_loop callf n txt index data = Ok (v, j) ->
  lead v = p_parseObject /\ readable v = true.
Proof.
  revert index data. induction n as [|n IH]; intros index data Hdata;
    [done|].
  cbn [parseObject_loop]. intros H.
  apply bind_Ok in H as (c & _ & H).
  destruct (Ascii.eqb c "}").
  { injection H as <- _. split; [done|]. by apply readable_Object. }
  pose proof (scan_name_no_dquote (drop (S (skipSpaces txt index)) txt)
                (S (skipSpaces txt index)) [] eq_refl) as Hname.
  destruct (scan_name _ _ _) as [name i2]. cbn [fst] in Hname.
  apply bind_Ok in H as (c' & _ & H).
  apply bind_Ok in H as (f & _ & H).
  apply bind_Ok in H as ([x i4] & Hx & H).
  apply bind_Ok in H as (c'' & _ & H).
  apply callf_readable in Hx as [_ Hx].
  assert (map_Forall (fun k x => no_dquote k = true /\ readable x = true)
            (insert_pair name x data)) as Hdata'.
  { unfold insert_pair. destruct (data !! name); [done|].
    by apply map_Forall_insert_2. }
  destruct (_ && _); [by eapply IH|]. injection H as <- _.
  split; [done|]. by apply readable_Object.
Qed.

End readability.

Lemma call_readable (fuel : nat) (f : parser) (txt : std_string) (i : nat)
    (v : json) (j : nat) :
  call fuel f txt i = Ok (v, j) -> lead v = f /\ readable v = true.
Proof.
  revert f txt i v j. induction fuel as [|fuel IH]; intros f txt i v j;
    [done|].
  cbn [call]. destruct f.
  - apply parseObject_loop_readable; [done|]. apply map_Forall_empty.
  - unfold parseArray. intros H.
    apply bind_Ok in H as (c & _ & H). apply bind_Ok in H as (f & _ & H).
    by eapply parseArray_loop_readable.
  - unfold parseString. destruct (_ <? _); [done|].
    by apply parseString_loop_String.
  - by intros (b & s' & -> & _)%parseBoolean_inv.
  - unfold parseNumber. intros H.
    apply bind_Ok in H as (s & _ & H).
    apply bind_Ok in H as ([d n] & _ & H). by injection H as <- _.
  - by intros (-> & _)%parseNull_inv.
Qed.

Lemma parse_readable (txt : std_string) (v : json) :
  parse txt = Ok v ->
  2 <= length txt /\ is_container v = true /\ readable v = true.
Proof.
  unfold parse. destruct (parse_cursor txt) as [[v' j]| | |] eqn:H; try done.
  intros [= <-].
  apply parse_cursor_inv in H as (c0 & c & f & Hlen & _ & _ & Hf & H).
  apply call_readable in H as [Hlead Hv].
  split; [done|]. split; [|done].
  destruct (Ascii.eqb c "{"); [|destruct Hf as [_ Hf]];
    subst f; by destruct v'.
Qed.

(** X14.  Whatever [parse] returns is an array or an object, its text has two
    characters at least, and in it no array is empty, the elements of
    every array are of one variant, each array being read with the rule
    that its first element selects, and no string and no key has a double
    quote. *)
Theorem parse_returns_readable_container (txt : std_string) (v : json) :
  parse txt = Ok v ->
  2 <= length txt /\ is_container v = true /\ readable v = true.
Proof. apply parse_readable. Qed.

Lemma parse_returns_readable_container_witness :
  2 <= length (json_text "{'k':[[1,2],[3]]}")
  /\ is_container
       (Object {[ str "k" := Array [Array [Number (dbl 1 1); Number (dbl 2 1)];
                                    Array [Number (dbl 3 1)]] ]}) = true
  /\ readable
       (Object {[ str "k" := Array [Array [Number (dbl 1 1); Number (dbl 2 1)];
                                    Array [Number (dbl 3 1)]] ]}) = true.
Proof.
  apply (parse_returns_readable_container (json_text "{'k':[[1,2],[3]]}")).
  by vm_compute.
Defined.

(** ** A larger budget changes nothing *)

Section more_fuel.
Variables callf callf' : parser -> std_string -> nat -> outcome (json * nat).
Hypothesis callf_more :
  forall f txt i, callf f txt i <> OutOfFuel -> callf' f txt i = callf f txt i.

Lemma parseArray_loop_more (n n' : nat) (f : parser) (txt : std_string)
    (index : nat) (data : list json) :
  n <= n' ->
  parseArray_loop callf n f txt index data <> OutOfFuel ->
  parseArray_loop callf' n' f txt index data
  = parseArray_loop callf n f txt index data.
Proof.
  revert n' index data. induction n as [|n IH]; intros n' index data Hn;
    [done|].
  destruct n' as [|n']; [lia|]. cbn [parseArray_loop]. intros H.
  rewrite callf_more by (intros Hc; by rewrite Hc in H).
  destruct (callf f txt (skipSpaces txt index)) as [[x i2]| | |]; try done.
  cbn [mbind outcome_bind] in H |- *.
  destruct (at_ txt (skipSpaces txt i2)) as [c| | |]; try done.
  cbn [mbind outcome_bind] in H |- *.
  destruct (_ && _); [|done]. apply IH; [lia|done].
Qed.

Lemma parseObject_loop_more (n n' : nat) (txt : std_string) (index : nat)
    (data : gmap std_string json) :
  n <= n' ->
  parseObject_loop callf n txt index data <> OutOfFuel ->
  parseObject_loop callf' n' txt index data
  = parseObject_loop callf n txt index data.
Proof.
  revert n' index data. induction n as [|n IH]; intros n' index data Hn;
    [done|].
  destruct n' as [|n']; [lia|]. cbn [parseObject_loop]. intros H.
  destruct (at_ txt (skipSpaces txt index)) as [c| | |]; try done.
  cbn [mbind outcome_bind] in H |- *.
  destruct (Ascii.eqb c "}"); [done|].
  destruct (scan_name _ _ _) as [name i2].
  destruct (at_ txt (skipSpaces txt (skipSpaces txt i2))) as [c'| | |];
    try done.
  cbn [mbind outcome_bind] in H |- *.
  destruct (getParser c') as [f| | |]; try done.
  cbn [mbind outcome_bind] in H |- *.
  rewrite callf_more by (intros Hc; by rewrite Hc in H).
  destruct (callf f txt (skipSpaces txt (skipSpaces txt i2)))
    as [[x i4]| | |]; try done.
  cbn [mbind outcome_bind] in H |- *.
  destruct (at_ txt (skipSpaces txt i4)) as [c''| | |]; try done.
  cbn [mbind outcome_bind] in H |- *.
  destruct (_ && _); [|done]. apply IH; [lia|done].
Qed.

End more_fuel.

Lemma call_more (fuel fuel' : nat) (f : parser) (txt : std_string)
    (i : nat) :
  fuel <= fuel' -> call fuel f txt i <> OutOfFuel ->
  call fuel' f txt i = call fuel f txt i.
Proof.
  revert fuel' f txt i. induction fuel as [|fuel IH]; intros fuel' f txt i Hle;
    [done|].
  destruct fuel' as [|fuel']; [lia|]. cbn [call].
  assert (forall f txt i, call fuel f txt i <> OutOfFuel ->
            call fuel' f txt i = call fuel f txt i) as Hcall.
  { intros. apply IH; [lia|done]. }
  destruct f; try done.
  - apply parseObject_loop_more; [done|lia].
  - unfold parseArray. intros H.
    destruct (at_ txt (skipSpaces txt i)) as [c| | |]; try done.
    cbn [mbind outcome_bind] in H |- *.
    destruct (getParser c) as [f| | |]; try done.
    cbn [mbind outcome_bind] in H |- *.
    apply parseArray_loop_more; [done|lia|done].
Qed.

(** X15.  The descent of [parse] ends on every text: a call nests no deeper and
    a loop runs no longer than the text has characters left.  The budget
    [parse] starts with is never used up, and with a larger one every call
    gives the same outcome. *)
Theorem parse_terminates (txt : std_string) :
  parse txt <> OutOfFuel
  /\ (forall f i fuel,
        i <= length txt -> length txt + 2 <= fuel ->
        call fuel f txt i <> OutOfFuel
        /\ call fuel f txt i = call (length txt + 2) f txt i).
Proof.
  split; [apply parse_total|]. intros f i fuel Hi Hfuel.
  assert (call (length txt + 2) f txt i <> OutOfFuel) as H
    by (apply call_enough_fuel; lia).
  rewrite (call_more (length txt + 2) fuel) by done. done.
Qed.

(** ** A number followed by white space *)

Lemma isdigit_not_space (c : ascii) :
  std.isdigit c = true ->
  isspace c = false
  /\ Ascii.eqb (std.tolower c) "x" = false
  /\ Ascii.eqb c "." = false.
Proof.
  destruct c as [[] [] [] [] [] [] [] []]; intros H;
    try (by vm_compute in H); by vm_compute.
Qed.

Lemma isspace_not_digit (c : ascii) :
  isspace c = true ->
  std.isdigit c = false
  /\ Ascii.eqb (std.tolower c) "e" = false
  /\ std.literal_char c = true.
Proof.
  destruct c as [[] [] [] [] [] [] [] []]; intros H;
    try (by vm_compute in H); by vm_compute.
Qed.

(** On a text that starts with a digit [strtod] finds no white space and
    no sign. *)
Lemma strtod_run_digit (c : ascii) (t : std_string) :
  std.isdigit c = true ->
  std.strtod_run (c :: t)
  = match std.scan_literal (c :: t) with
    | None => Throw (invalid_argument (str "stod"))
    | Some (mag, n) =>
        let '(d, erange) := std.convert false mag in
        if erange then Throw (out_of_range (str "stod")) else Ok (d, n)
    end.
Proof.
  destruct c as [[] [] [] [] [] [] [] []]; intros H;
    try (by vm_compute in H); reflexivity.
Qed.

Lemma scan_literal_digit (c : ascii) (t : std_string) :
  std.isdigit c = true ->
  std.scan_literal (c :: t)
  = match std.scan_hex (c :: t) with
    | Some r => Some r
    | None => std.scan_decimal (c :: t)
    end.
Proof.
  destruct c as [[] [] [] [] [] [] [] []]; intros H;
    try (by vm_compute in H); reflexivity.
Qed.

Lemma scan_hex_not_x (c x : ascii) (s1 : std_string) :
  Ascii.eqb (std.tolower x) "x" = false -> std.scan_hex (c :: x :: s1) = None.
Proof.
  intros H. unfold std.scan_hex.
  destruct c as [[] [] [] [] [] [] [] []]; cbv beta iota; try reflexivity.
  by rewrite H.
Qed.

Lemma take_while_run {A} (p : A -> bool) (s ws : list A) :
  forallb p s = true -> forallb (fun c => negb (p c)) ws = true ->
  take_while p (s ++ ws) = s.
Proof.
  intros Hs Hws. destruct ws as [|w ws].
  - rewrite app_nil_r. by apply take_while_all.
  - cbn in Hws. apply andb_prop in Hws as [Hw%negb_true_iff _].
    by apply take_while_app_stop.
Qed.

Lemma spaces_not_digits (ws : std_string) :
  forallb isspace ws = true ->
  forallb (fun c => negb (std.isdigit c)) ws = true.
Proof.
  induction ws as [|w ws IH]; [done|]. cbn.
  intros [Hw Hws]%andb_prop. destruct (isspace_not_digit w Hw) as (-> & _).
  by apply IH.
Qed.

Lemma scan_exponent_space (ws : std_string) :
  forallb isspace ws = true -> std.scan_exponent "e" ws = (0%Z, 0).
Proof.
  destruct ws as [|w ws]; [done|]. cbn [forallb].
  intros [Hw _]%andb_prop. destruct (isspace_not_digit w Hw) as (_ & He & _).
  unfold std.scan_exponent. by rewrite He.
Qed.

(** The digits, the point and the digits after it are all that [strtod]
    takes of a decimal text that white space follows. *)
Lemma scan_decimal_spaces (ip fp ws : std_string) :
  ip <> [] -> forallb std.isdigit ip = true ->
  forallb std.isdigit fp = true -> forallb isspace ws = true ->
  std.scan_decimal (ip ++ "."%char :: fp ++ ws)
  = Some (std.mag_scaled (std.number_of 10 (ip ++ fp)) 10
            (0 - Z.of_nat (length fp)),
          length ip + 1 + length fp + 0).
Proof.
  intros Hne Hip Hfp Hws. unfold std.scan_decimal, std.scan_mantissa.
  rewrite (take_while_app_stop _ ip "."%char (fp ++ ws)) by done.
  rewrite drop_app_length.
  rewrite (take_while_run _ fp ws) by auto using spaces_not_digits.
  destruct (ip ++ fp) as [|c l] eqn:Hl.
  { by destruct ip. }
  rewrite <- Hl. cbn [mbind option_bind].
  replace (length ip + 1 + length fp)
    with (length (ip ++ "."%char :: fp)).
  2:{ rewrite length_app. cbn [length]. lia. }
  replace (ip ++ "."%char :: fp ++ ws) with ((ip ++ "."%char :: fp) ++ ws)
    by (by rewrite <- app_assoc).
  by rewrite drop_app_length, scan_exponent_space.
Qed.

Lemma strtod_run_decimal (ip t : std_string) :
  ip <> [] -> forallb std.isdigit ip = true ->
  std.strtod_run (ip ++ "."%char :: t)
  = match std.scan_decimal (ip ++ "."%char :: t) with
    | None => Throw (invalid_argument (str "stod"))
    | Some (mag, n) =>
        let '(d, erange) := std.convert false mag in
        if erange then Throw (out_of_range (str "stod")) else Ok (d, n)
    end.
Proof.
  intros Hne Hip. destruct ip as [|c ip]; [done|]. cbn [forallb] in Hip.
  apply andb_prop in Hip as [Hc Hip]. cbn [app].
  rewrite strtod_run_digit, scan_literal_digit by done.
  destruct ip as [|c' ip]; cbn [app].
  - by rewrite scan_hex_not_x.
  - cbn [forallb] in Hip. apply andb_prop in Hip as [Hc' _].
    destruct (isdigit_not_space c' Hc') as (_ & Hx & _).
    by rewrite scan_hex_not_x.
Qed.

Lemma strtod_run_spaces (ip fp ws : std_string) :
  ip <> [] -> forallb std.isdigit ip = true ->
  forallb std.isdigit fp = true -> forallb isspace ws = true ->
  std.strtod_run (ip ++ "."%char :: fp ++ ws)
  = std.strtod_run (ip ++ "."%char :: fp).
Proof.
  intros Hne Hip Hfp Hws. rewrite !strtod_run_decimal by done.
  rewrite (scan_decimal_spaces ip fp ws) by done.
  rewrite <- (app_nil_r fp) at 3.
  by rewrite (scan_decimal_spaces ip fp []).
Qed.

Lemma forallb_elem_of {A} (p : A -> bool) (l : list A) :
  (forall x, x ∈ l -> p x = true) -> forallb p l = true.
Proof.
  intros H. apply forallb_forall. intros x Hx. by apply H, list_elem_of_In.
Qed.

Lemma to_string_int_nonneg (n : Z) :
  (0 <= n)%Z ->
  std.to_string_int n <> []
  /\ forallb std.isdigit (std.to_string_int n) = true.
Proof.
  intros Hn. split.
  - unfold std.to_string_int, NilZero.string_of_int.
    destruct n as [|p|p]; [done| |lia]. cbn [Z.to_int].
    unfold NilZero.string_of_uint. by destruct (Pos.to_uint p).
  - apply forallb_elem_of. intros c Hc.
    destruct (to_string_int_chars n c Hc) as [Hd| ->]; [done|].
    exfalso. destruct n as [|p|p]; [| |lia].
    + change (std.to_string_int 0) with ["0"%char] in Hc.
      by apply list_elem_of_singleton in Hc.
    + unfold std.to_string_int, NilZero.string_of_int in Hc.
      cbn [Z.to_int] in Hc. by apply digits_of_uint0 in Hc.
Qed.

Lemma millionths_nonneg (m : positive) (e : Z) : (0 <= std.millionths m e)%Z.
Proof.
  unfold std.millionths. destruct (0 <=? e)%Z eqn:He.
  - apply Z.leb_le in He.
    pose proof (Z.pow_pos_nonneg 2 e). pose proof (Z.pow_pos_nonneg 10 6). nia.
  - unfold std.round_half_even.
    assert (0 <= Z.pos m * 10 ^ 6 / 2 ^ (- e))%Z as Hq.
    { apply Z.div_pos; [lia|]. apply Z.pow_pos_nonneg; lia. }
    destruct (_ ?= _)%Z; [destruct (Z.even _)| |]; lia.
Qed.

(** The text of a number that starts with a digit: digits, the point and
    six digits. *)
Lemma to_string_digits (d : std.double) (c : ascii) (s : std_string) :
  std.to_string d = c :: s -> std.isdigit c = true ->
  exists ip fp,
    std.to_string d = ip ++ "."%char :: fp
    /\ ip <> []
    /\ forallb std.isdigit ip = true
    /\ forallb std.isdigit fp = true.
Proof.
  destruct d as [[]|[]| |[] m e]; cbn [std.to_string std.sign app];
    try (intros [= <- _] Hc; by vm_compute in Hc).
  - intros _ _. by exists (str "0"), (str "000000").
  - intros _ _. pose proof (millionths_nonneg m e) as Hn.
    destruct (to_string_int_nonneg (std.millionths m e / 10 ^ 6))
      as [Hne Hip].
    { apply Z.div_pos; lia. }
    destruct (to_string_int_nonneg (10 ^ 6 + std.millionths m e mod 10 ^ 6))
      as [_ Hfp].
    { pose proof (Z.mod_pos_bound (std.millionths m e) (10 ^ 6)). lia. }
    eexists _, _. split; [reflexivity|]. split; [done|]. split; [done|].
    apply forallb_elem_of. intros x Hx.
    rewrite forallb_forall in Hfp. apply Hfp, list_elem_of_In.
    apply list_elem_of_lookup in Hx as [i Hi]. rewrite lookup_drop in Hi.
    by eapply list_elem_of_lookup_2.
Qed.

Lemma follows_inv (post : std_string) :
  follows post ->
  exists ws c rest,
    post = ws ++ c :: rest
    /\ forallb isspace ws = true
    /\ isspace c = false /\ std.literal_char c = false
    /\ (c = "," \/ c = "]" \/ c = "}")%char.
Proof.
  intros (ws & rest & -> & Hws & (c & rest' & -> & Hc)).
  exists ws, c, rest'. split; [done|]. split; [done|].
  destruct Hc as [->|[->| ->]]; auto.
Qed.

Lemma spaces_literal (ws : std_string) :
  forallb isspace ws = true -> forallb std.literal_char ws = true.
Proof.
  induction ws as [|w ws IH]; [done|]. cbn.
  intros [Hw Hws]%andb_prop.
  destruct (isspace_not_digit w Hw) as (_ & _ & ->). by apply IH.
Qed.

(** [parseNumber] on the text of a number that white space and a comma or
    a closing bracket follow. *)
Lemma parseNumber_follows (txt : std_string) (i : nat) (d : std.double)
    (post : std_string) :
  number_roundtrips d = true -> follows post ->
  drop i txt = std.to_string d ++ post ->
  parseNumber txt i = Ok (Number d, length txt - S (length post)).
Proof.
  intros ((c & s & Hs & Hc) & Hlit & Hstod)%number_roundtrips_inv Hpost H.
  destruct (follows_inv post Hpost)
    as (ws & c' & rest & -> & Hws & _ & Hc' & _).
  destruct (to_string_digits d c s Hs Hc) as (ip & fp & Hd & Hne & Hip & Hfp).
  unfold parseNumber, substr.
  assert (0 < length (std.to_string d)) as Hpos by (rewrite Hs; cbn; lia).
  destruct (length_of_drop_app _ _ _ _ H Hpos) as [Hlen Hlt].
  destruct (Nat.ltb_spec (length txt) i); [lia|]. cbn [mbind outcome_bind].
  rewrite H.
  assert (std.stod (std.to_string d ++ ws ++ c' :: rest)
          = std.stod (std.to_string d)) as ->.
  { unfold std.stod. rewrite app_assoc.
    rewrite take_while_app_stop;
      [|by rewrite forallb_app, Hlit, spaces_literal|done].
    rewrite (take_while_all _ _ Hlit), Hd.
    rewrite <- app_assoc. cbn [app]. by apply strtod_run_spaces. }
  rewrite Hstod. cbn. do 2 f_equal. lia.
Qed.

(** ** The shape of the indented text *)

Lemma array_items_tail (it lb : std_string) (x : std_string)
    (rest : list std_string) (close : std_string) :
  array_items it lb (x :: rest) ++ close
  = it ++ x ++ items_tail it lb rest close.
Proof.
  revert x. induction rest as [|y rest IH]; intros x.
  - cbn. by rewrite <- !app_assoc.
  - change (array_items it lb (x :: y :: rest))
      with (it ++ x ++ ","%char :: lb ++ array_items it lb (y :: rest)).
    cbn [items_tail]. rewrite <- IH.
    repeat (rewrite <- app_assoc; cbn [app]). reflexivity.
Qed.

Lemma object_items_array (it lb : std_string)
    (items : list (std_string * std_string)) :
  object_items it lb items = array_items it lb (entry (str ": ") <$> items).
Proof.
  induction items as [|[k x] [|y rest] IH]; [done| |].
  - cbn. by rewrite <- !app_assoc.
  - change (object_items it lb ((k, x) :: y :: rest))
      with (it ++ dquote :: k ++ dquote :: str ": " ++ x
            ++ ","%char :: lb ++ object_items it lb (y :: rest)).
    rewrite IH. cbn. by rewrite <- !app_assoc.
Qed.

Section indented_text.
Context {It : Iteration}.

(** The text of a container: the bracket, the items, each after the line
    break and the tabs, and the closing bracket after its own. *)
Lemma to_string_layout (indent : Z) :
  exists (indent' : Z) (it lb cl : std_string),
    forallb isspace it = true /\ forallb isspace lb = true
    /\ forallb isspace cl = true
    /\ (forall a,
          to_string (Array a) indent
          = "["%char :: lb
            ++ array_items it lb ((fun x => to_string x indent') <$> a)
            ++ cl ++ ["]"%char])
    /\ (forall o,
          to_string (Object o) indent
          = "{"%char :: lb
            ++ array_items it lb
                 (entry (str ": ")
                    <$> iterate ((fun x => to_string x indent') <$> o))
            ++ cl ++ ["}"%char]).
Proof.
  exists (if (indent <? 0)%Z then indent else (indent + 1)%Z).
  set (indent' := if (indent <? 0)%Z then indent else (indent + 1)%Z).
  exists (if (indent <? 0)%Z then [] else tabs indent'),
    (if (indent' <? 0)%Z then [] else [newline]),
    (if (indent' <? 0)%Z then [] else tabs (indent' - 1)).
  split; [destruct (indent <? 0)%Z; [done|apply isspace_tabs]|].
  split; [by destruct (indent' <? 0)%Z|].
  split; [destruct (indent' <? 0)%Z; [done|apply isspace_tabs]|].
  split; [done|]. intros o. cbn [to_string]. fold indent'.
  by rewrite object_items_array.
Qed.

Lemma to_string_head (v : json) (indent : Z) :
  roundtrips v = true ->
  exists c s,
    to_string v indent = c :: s /\ isspace c = false
    /\ getParser c = Ok (lead v).
Proof.
  destruct v as [|[]|d|s|a|o]; cbn [to_string lead roundtrips]; intros Hv;
    try by eexists _, _.
  apply number_roundtrips_inv in Hv as ((c & s & -> & Hc) & _).
  exists c, s. split; [done|]. by apply isdigit_getParser.
Qed.

(** The entries of an object in the order its text has them. *)
Lemma iterate_entries {A} (f : json -> A) (o : gmap std_string json) :
  exists es,
    es ≡ₚ map_to_list o
    /\ iterate (f <$> o) = (fun kx => (kx.1, f kx.2)) <$> es.
Proof.
  pose proof (iterate_perm _ (f <$> o)) as Hperm.
  rewrite map_to_list_fmap in Hperm.
  apply fmap_Permutation_inv in Hperm as (es & Hes & Hperm).
  exists es. split; [done|]. rewrite Hes.
  apply list_fmap_ext. by intros ? [k x] _.
Qed.

End indented_text.

(** ** The container rules on an indented text *)

Lemma length_of_drop_ne (txt : std_string) (i : nat) (r : std_string) :
  drop i txt = r -> r <> [] -> length txt = i + length r.
Proof.
  intros H Hr. pose proof (length_drop txt i) as Hl. rewrite H in Hl.
  destruct r; [done|]. cbn [length] in *. lia.
Qed.

Lemma follows_close (lb cl : std_string) (c : ascii) (post : std_string) :
  forallb isspace lb = true -> forallb isspace cl = true ->
  (c = "]" \/ c = "}")%char ->
  follows (lb ++ cl ++ c :: post).
Proof.
  intros Hlb Hcl Hc. exists (lb ++ cl), (c :: post).
  split; [by rewrite <- app_assoc|]. split; [by rewrite forallb_app, Hlb|].
  exists c, post. split; [done|]. tauto.
Qed.

Lemma follows_comma (rest : std_string) : follows (","%char :: rest).
Proof.
  exists [], (","%char :: rest). split; [done|]. split; [done|].
  exists ","%char, rest. auto.
Qed.

Section container_loops.
Variable callf : parser -> std_string -> nat -> outcome (json * nat).
Variable txt : std_string.
Variable T : json -> std_string.
Variables it lb cl : std_string.
Hypothesis it_space : forallb isspace it = true.
Hypothesis lb_space : forallb isspace lb = true.
Hypothesis cl_space : forallb isspace cl = true.

Lemma reads_at_mono (b b' : nat) (f : parser) (y : json) :
  b <= b' -> reads_at callf txt T b f y -> reads_at callf txt T b' f y.
Proof.
  intros Hb [Hhead Hcall]. split; [done|].
  intros i post Hi. apply Hcall. lia.
Qed.

(** After an item: the closing bracket, or the comma and one more round. *)
Lemma items_tail_next (items : list std_string) (c : ascii)
    (post : std_string) (p : nat) :
  (c = "]" \/ c = "}")%char ->
  drop (S p) txt = items_tail it lb items (cl ++ c :: post) ->
  match items with
  | [] =>
      skipSpaces txt p = length txt - S (length post)
      /\ at_ txt (skipSpaces txt p) = Ok c
  | x :: rest =>
      skipSpaces txt p = S p
      /\ at_ txt (S p) = Ok ","%char
      /\ S p < length txt
      /\ drop (S (S p)) txt
         = (lb ++ it) ++ x ++ items_tail it lb rest (cl ++ c :: post)
  end.
Proof.
  intros Hc Hd. destruct items as [|x rest]; cbn [items_tail] in Hd.
  - rewrite app_assoc in Hd.
    destruct (skipSpaces_run txt p (lb ++ cl) c post Hd) as (Hs & Hd' & Ha).
    { by rewrite forallb_app, lb_space. }
    { by destruct Hc as [-> | ->]. }
    rewrite Hs. split; [|done].
    apply length_of_drop in Hd'. lia.
  - destruct (drop_cons_inv _ _ _ _ Hd) as (Hp & Hrest & Hlt).
    split; [by eapply skipSpaces_next|]. split; [by apply at_Ok|].
    split; [done|]. by rewrite Hrest, <- app_assoc.
Qed.

Lemma parseArray_loop_items (f : parser) (post w : std_string) (y : json)
    (ys : list json) (data : list json) (i n : nat) :
  forallb isspace w = true ->
  drop (S i) txt
  = w ++ T y ++ items_tail it lb (T <$> ys) (cl ++ "]"%char :: post) ->
  Forall (reads_at callf txt T (S i) f) (y :: ys) ->
  length txt <= n + S i ->
  parseArray_loop callf n f txt i data
  = Ok (Array (data ++ y :: ys), length txt - S (length post)).
Proof.
  revert y w data i n.
  induction ys as [|y' ys IH]; intros y w data i n Hw Hd Hall Hn.
  all: apply Forall_cons in Hall as [[(c & s & Hy & Hc & _) Hcall] Hys].
  all: pose proof (length_of_drop_ne _ _ _ Hd) as Hlen.
  all: rewrite !length_app in Hlen.
  all: assert (0 < length (T y)) as Hpos by (rewrite Hy; cbn; lia).
  all: destruct n as [|n];
    [exfalso; specialize (Hlen ltac:(rewrite Hy; by destruct w));
     cursor_lia|].
  all: cbn [parseArray_loop].
  all: rewrite Hy in Hd; cbn [app] in Hd.
  all: destruct (skipSpaces_run txt i w c _ Hd Hw Hc) as (-> & Hd' & _).
  all: change (c :: s ++ ?t) with ((c :: s) ++ t) in Hd'.
  all: rewrite <- Hy in Hd'.
  all: specialize (Hlen ltac:(rewrite Hy; by destruct w)).
  - cbn [fmap list_fmap items_tail] in *.
    rewrite (Hcall (S i + length w) _ ltac:(lia) Hd');
      [|apply follows_close; auto].
    cbn [mbind outcome_bind]. apply drop_app_inv in Hd'.
    rewrite !length_app in *. cbn [length] in *.
    match goal with
    | |- context [skipSpaces txt ?p] => set (q := p) in *
    end.
    destruct (items_tail_next [] "]" post q) as [Hs Ha]; [auto| |].
    { cbn [items_tail]. rewrite <- Hd'. f_equal. subst q. cursor_lia. }
    rewrite Ha, Hs. cbn [mbind outcome_bind Ascii.eqb Bool.eqb andb].
    done.
  - cbn [fmap list_fmap] in *. cbn [items_tail] in Hd', Hlen |- *.
    rewrite (Hcall (S i + length w) _ ltac:(lia) Hd'); [|apply follows_comma].
    cbn [mbind outcome_bind]. apply drop_app_inv in Hd'.
    set (tail := lb ++ it ++ T y'
                 ++ items_tail it lb (list_fmap _ _ T ys)
                      (cl ++ "]"%char :: post)) in *.
    cbn [length] in *.
    match goal with
    | |- context [skipSpaces txt ?p] => set (q := p) in *
    end.
    destruct (items_tail_next (T y' :: (T <$> ys)) "]" post q)
      as (Hs & Ha & Hlt & Hnext); [auto| |].
    { cbn [items_tail]. rewrite <- Hd'. f_equal. subst q. cursor_lia. }
    rewrite Hs, Ha. cbn [mbind outcome_bind].
    destruct (Nat.ltb_spec (S q) (length txt)); [|lia].
    cbn [Ascii.eqb Bool.eqb andb].
    rewrite (IH y' (lb ++ it) (data ++ [y]) (S q) n).
    + by rewrite <- app_assoc.
    + by rewrite forallb_app, lb_space.
    + done.
    + eapply Forall_impl; [exact Hys|]. intros z.
      apply reads_at_mono. subst q. cursor_lia.
    + subst q. cursor_lia.
Qed.

Lemma parseObject_loop_items (post w k : std_string) (x : json)
    (es : list (std_string * json)) (data : gmap std_string json)
    (i n : nat) :
  forallb isspace w = true ->
  drop (S i) txt
  = w ++ entry (str ": ") (k, T x)
    ++ items_tail it lb
         ((fun kx => entry (str ": ") (kx.1, T kx.2)) <$> es)
         (cl ++ "}"%char :: post) ->
  Forall (fun kx => no_dquote kx.1 = true
                    /\ reads_at callf txt T (S i) (lead kx.2) kx.2)
    ((k, x) :: es) ->
  length txt <= n + S i ->
  parseObject_loop callf n txt i data
  = Ok (Object (foldl (fun d kx => insert_pair kx.1 kx.2 d) data
                  ((k, x) :: es)),
        length txt - S (length post)).
Proof.
  revert k x w data i n.
  induction es as [|[k' x'] es IH]; intros k x w data i n Hw Hd Hall Hn.
  all: apply Forall_cons in Hall
         as [[Hk [(c & s & Hx & Hc & Hf) Hcall]] Hes].
  all: cbn [fst snd] in Hk, Hcall, Hf, Hx.
  all: unfold entry in Hd at 1; cbn [fst snd] in Hd.
  all: change (str ": " ++ T x) with (":"%char :: " "%char :: T x) in Hd.
  all: cbn [app] in Hd.
  all: repeat (rewrite <- app_assoc in Hd; cbn [app] in Hd).
  all: pose proof (length_of_drop_ne _ _ _ Hd ltac:(by destruct w)) as Hlen.
  all: destruct n as [|n]; [exfalso; rewrite length_app in Hlen;
                            cbn [length] in Hlen; cursor_lia|].
  all: cbn [parseObject_loop].
  (* the opening quote *)
  all: destruct (skipSpaces_run txt i w dquote _ Hd Hw eq_refl)
         as (-> & Hq & ->).
  all: cbn [mbind outcome_bind]; change (Ascii.eqb dquote "}") with false.
  all: cbn [negb].
  (* the key *)
  all: destruct (drop_cons_inv _ _ _ _ Hq) as (_ & Hkey & _).
  all: rewrite Hkey, (scan_name_text _ _ _ _ Hk); cbn [app].
  all: apply drop_app_inv in Hkey.
  all: set (q := S (S i + length w) + length k) in *.
  (* the colon and the space *)
  all: destruct (drop_cons_inv _ _ _ _ Hkey) as (_ & Hcolon & _).
  all: rewrite (skipSpaces_next _ _ _ _ Hcolon eq_refl).
  all: destruct (drop_cons_inv _ _ _ _ Hcolon) as (_ & Hspace & _).
  all: rewrite Hx in Hspace; cbn [app] in Hspace.
  all: rewrite (skipSpaces_space _ _ _ _ Hspace Hc).
  all: destruct (drop_cons_inv _ _ _ _ Hspace) as (_ & Hval & _).
  all: rewrite (at_drop _ _ _ _ Hval); cbn [mbind outcome_bind].
  all: rewrite Hf; cbn [mbind outcome_bind].
  (* the value *)
  all: change (c :: s ++ ?t) with ((c :: s) ++ t) in Hval.
  all: rewrite <- Hx in Hval.
  all: assert (0 < length (T x)) as Hpos by (rewrite Hx; cbn; lia).
  all: pose proof (length_of_drop_ne _ _ _ Hval
                     ltac:(rewrite Hx; done)) as Hlen'.
  all: rewrite length_app in Hlen'.
  - cbn [fmap list_fmap items_tail] in *.
    rewrite (Hcall (S (S (S q))) _ ltac:(subst q; lia) Hval);
      [|apply follows_close; auto].
    cbn [mbind outcome_bind]. apply drop_app_inv in Hval.
    match goal with
    | |- context [skipSpaces txt ?p] => set (r := p) in *
    end.
    destruct (items_tail_next [] "}" post r) as [Hs Ha]; [auto| |].
    { cbn [items_tail]. rewrite <- Hval. f_equal. subst r. cursor_lia. }
    rewrite Ha, Hs. cbn [mbind outcome_bind Ascii.eqb Bool.eqb andb].
    done.
  - cbn [fmap list_fmap] in *. cbn [items_tail fst snd] in Hval, Hlen' |- *.
    rewrite (Hcall (S (S (S q))) _ ltac:(subst q; lia) Hval);
      [|apply follows_comma].
    cbn [mbind outcome_bind]. apply drop_app_inv in Hval.
    match goal with
    | |- context [skipSpaces txt ?p] => set (r := p) in *
    end.
    cbn [length] in Hlen'.
    destruct (items_tail_next
                (entry (str ": ") (k', T x')
                 :: ((fun kx : std_string * json =>
                        entry (str ": ") (kx.1, T kx.2)) <$> es))
                "}" post r)
      as (Hs & Ha & Hlt & Hnext); [auto| |].
    { cbn [items_tail]. rewrite <- Hval. f_equal. subst r.
      cbn [length]. cursor_lia. }
    rewrite Hs, Ha. cbn [mbind outcome_bind].
    destruct (Nat.ltb_spec (S r) (length txt)); [|lia].
    cbn [Ascii.eqb Bool.eqb andb].
    rewrite (IH k' x' (lb ++ it) (insert_pair k x data) (S r) n).
    + done.
    + by rewrite forallb_app, lb_space.
    + by rewrite Hnext, <- !app_assoc.
    + eapply Forall_impl; [exact Hes|]. intros [k0 x0] [? ?].
      split; [done|]. eapply reads_at_mono; [|done].
      subst r q. cbn [length]. cursor_lia.
    + subst r q. cbn [length]. cursor_lia.
Qed.

End container_loops.

(** ** Round trip through the indented text *)

Section indented_round_trip.
Context {It : Iteration}.

(** On the text that [to_string] writes for a value that [roundtrips],
    at any indentation, the rule that [getParser] selects returns the value
    and stops on the last character of its text. *)
Lemma call_to_string (v : json) :
  roundtrips v = true ->
  forall indent fuel txt i post,
    drop i txt = to_string v indent ++ post ->
    is_container v = true \/ follows post ->
    length txt <= fuel + i ->
    call fuel (lead v) txt i = Ok (v, length txt - S (length post)).
Proof.
  induction v as [|b|d|s|a IH|o IH] using json_tree_ind;
    intros Hv indent fuel txt i post Hd Hpost Hfuel.
  all: assert (length txt = i + length (to_string _ indent ++ post)) as Hlen
         by (apply (length_of_drop_ne _ _ _ Hd);
             destruct (to_string_head _ indent Hv) as (c & s' & -> & _);
             done).
  all: rewrite length_app in Hlen.
  all: assert (0 < length (to_string _ indent)) as Hpos
         by (destruct (to_string_head _ indent Hv) as (c & s' & -> & _);
             cbn; lia).
  all: destruct fuel as [|fuel]; [cursor_lia|]; cbn [call lead].
  - cbn [to_string] in Hd, Hlen. rewrite (parseNull_text _ _ _ Hd).
    cbn in Hlen. do 2 f_equal. lia.
  - cbn [to_string] in Hd, Hlen. rewrite (parseBoolean_text _ _ _ _ Hd).
    do 2 f_equal. destruct b; cbn in Hlen |- *; lia.
  - destruct Hpost as [|Hpost]; [done|]. cbn [to_string] in Hd.
    by apply parseNumber_follows.
  - destruct Hpost as [|Hpost]; [done|]. cbn [to_string] in Hd, Hlen.
    assert (post <> []) as Hne.
    { destruct (follows_inv post Hpost) as (ws & c & r & -> & _).
      by destruct ws. }
    cbn [app] in Hd. rewrite <- app_assoc in Hd. cbn [app] in Hd.
    rewrite (parseString_text _ _ _ _ Hv Hne Hd).
    cbn [length] in Hlen. rewrite length_app in Hlen. cbn [length] in Hlen.
    do 2 f_equal. lia.
  - destruct (roundtrips_Array a Hv) as (x & xs & Ha & Hall).
    destruct (to_string_layout indent)
      as (indent' & it & lb & cl & Hit & Hlb & Hcl & HA & _).
    rewrite HA in Hd. clear HA Hlen Hpos.
    set (T := fun y => to_string y indent') in *.
    assert (drop i txt
            = "["%char :: (lb ++ it) ++ T x
              ++ items_tail it lb (T <$> xs) (cl ++ "]"%char :: post))
      as Hd'.
    { rewrite Hd, Ha, fmap_cons. cbn [app]. f_equal.
      rewrite <- (app_assoc lb it).
      rewrite <- (array_items_tail it lb (T x) (T <$> xs)).
      repeat (rewrite <- app_assoc; cbn [app]). reflexivity. }
    clear Hd. destruct (drop_cons_inv _ _ _ _ Hd') as (_ & Hd & Hlt).
    destruct (to_string_head x indent') as (c & s & Hx & Hc & Hf).
    { apply Hall. rewrite Ha. left. }
    fold (T x) in Hx. unfold parseArray.
    rewrite <- app_assoc in Hd. rewrite Hx in Hd.
    rewrite app_assoc in Hd. cbn [app] in Hd.
    destruct (skipSpaces_run txt i (lb ++ it) c _ Hd) as (-> & Hd1 & ->);
      [by rewrite forallb_app, Hlb|done|].
    cbn [mbind outcome_bind]. rewrite Hf. cbn [mbind outcome_bind].
    replace (S i + length (lb ++ it) - 1) with (i + length (lb ++ it))
      by lia.
    change (c :: s ++ ?t) with ((c :: s) ++ t) in Hd1. rewrite <- Hx in Hd1.
    rewrite (parseArray_loop_items (call fuel) txt T it lb cl Hit Hlb Hcl
               (lead x) post [] x xs [] (i + length (lb ++ it)) fuel).
    + by rewrite Ha.
    + done.
    + done.
    + apply Forall_forall. intros y Hy. rewrite <- Ha in Hy.
      destruct (Hall y Hy) as [Hry Hly]. split.
      * rewrite <- Hly. by apply to_string_head.
      * intros i' post' Hi' Hd2 Hpost'. rewrite <- Hly.
        rewrite Forall_forall in IH.
        apply (IH y Hy Hry indent' fuel txt i' post' Hd2); [by right|].
        cursor_lia.
    + cursor_lia.
  - pose proof (roundtrips_Object o Hv) as Hall.
    destruct (to_string_layout indent)
      as (indent' & it & lb & cl & Hit & Hlb & Hcl & _ & HO).
    rewrite HO in Hd. clear HO Hlen Hpos.
    set (T := fun y => to_string y indent') in *.
    destruct (iterate_entries T o) as (es & Hperm & Hes).
    rewrite Hes, <- list_fmap_compose in Hd.
    unfold parseObject.
    destruct es as [|[k x] es].
    + apply Permutation_nil, map_to_list_empty_iff in Hperm as ->.
      cbn [fmap list_fmap array_items app] in Hd.
      destruct (drop_cons_inv _ _ _ _ Hd) as (_ & Hd1 & _).
      repeat (rewrite <- app_assoc in Hd1; cbn [app] in Hd1).
      rewrite app_assoc in Hd1.
      destruct (skipSpaces_run txt i (lb ++ cl) "}" post Hd1)
        as (Hs & Hclose & Ha); [by rewrite forallb_app, Hlb|done|].
      pose proof (length_of_drop _ _ _ _ Hclose) as Hlen.
      destruct fuel as [|fuel]; [cursor_lia|].
      cbn [parseObject_loop]. rewrite Hs, Ha.
      cbn. do 2 f_equal. cursor_lia.
    + assert (drop i txt
              = "{"%char :: (lb ++ it) ++ entry (str ": ") (k, T x)
                ++ items_tail it lb
                     ((fun kx : std_string * json =>
                         entry (str ": ") (kx.1, T kx.2)) <$> es)
                     (cl ++ "}"%char :: post))
        as Hd'.
      { rewrite Hd, fmap_cons. cbn [app compose fst snd]. f_equal.
        rewrite <- (app_assoc lb it).
        rewrite <- (array_items_tail it lb (entry (str ": ") (k, T x))).
        repeat (rewrite <- app_assoc; cbn [app]). reflexivity. }
      clear Hd. destruct (drop_cons_inv _ _ _ _ Hd') as (_ & Hd & Hlt).
      rewrite (parseObject_loop_items (call fuel) txt T it lb cl Hit Hlb Hcl
                 post (lb ++ it) k x es ∅ i fuel).
      * by rewrite (foldl_insert_pair_entries o _ Hperm).
      * by rewrite forallb_app, Hlb.
      * done.
      * apply Forall_forall. intros [k' x'] Hkx.
        pose proof Hkx as Hk. rewrite Hperm in Hk.
        apply elem_of_map_to_list in Hk.
        destruct (Hall k' x' Hk) as [Hnq Hrx]. cbn [fst snd].
        split; [done|]. split; [by apply to_string_head|].
        intros i' post' Hi' Hd2 Hpost'.
        apply (IH k' x' Hk Hrx indent' fuel txt i' post' Hd2); [by right|].
        cursor_lia.
      * cursor_lia.
Qed.

End indented_round_trip.

Lemma parse_to_string_Ok {It : Iteration} (v : json) (indent : Z) :
  is_container v = true -> roundtrips v = true ->
  parse (to_string v indent) = Ok v.
Proof.
  intros Hc Hv.
  pose proof (call_to_string v Hv indent (length (to_string v indent) + 2)
                (to_string v indent) 0 []) as Hcall.
  rewrite drop_0, app_nil_r in Hcall.
  specialize (Hcall eq_refl (or_introl Hc) ltac:(lia)).
  destruct (to_string_layout indent)
    as (indent' & it & lb & cl & _ & _ & _ & HA & HO).
  unfold parse.
  destruct v as [| | | |a|o]; try done; cbn [lead] in Hcall.
  - assert (parse_cursor (to_string (Array a) indent)
            = Ok (Array a, length (to_string (Array a) indent) - 1)) as ->;
      [|done].
    apply (parse_cursor_intro _ "[" "[" p_parseArray); [| | | |exact Hcall].
    + rewrite HA. cbn [length]. rewrite !length_app. cbn [length]. lia.
    + by rewrite HA.
    + by rewrite HA.
    + done.
  - assert (parse_cursor (to_string (Object o) indent)
            = Ok (Object o, length (to_string (Object o) indent) - 1)) as ->;
      [|done].
    apply (parse_cursor_intro _ "{" "{" p_parseObject); [| | | |exact Hcall].
    + rewrite HO. cbn [length]. rewrite !length_app. cbn [length]. lia.
    + by rewrite HO.
    + by rewrite HO.
    + done.
Qed.

(** ** The runs of [to_string] in which no increment overflows *)

Lemma max_list_with_le {A} (f : A -> nat) (l : list A) (n : nat) :
  max_list_with f l <= n <-> Forall (fun x => f x <= n) l.
Proof.
  induction l as [|x l IH]; [by split; [constructor | cbn; lia]|].
  cbn [max_list_with]. rewrite Forall_cons, Nat.max_lub_iff, IH. done.
Qed.

Lemma existsb_false {A} (p : A -> bool) (l : list A) :
  existsb p l = false <-> Forall (fun x => p x = false) l.
Proof.
  induction l as [|x l IH]; [by split; [constructor|]|].
  cbn [existsb]. rewrite Forall_cons, orb_false_iff, IH. done.
Qed.

Lemma overflows_negative (v : json) (indent : Z) :
  (indent < 0)%Z -> overflows v indent = false.
Proof.
  intros Hneg%Z.leb_gt. by destruct v; cbn [overflows]; rewrite ?Hneg.
Qed.

(** With [indent >= 0], an increment of [to_string(out, indent)]
    overflows exactly when [indent] and the depth to which the containers
    of the value are nested add up to more than [INT_MAX]. *)
Lemma overflows_nesting (v : json) (indent : Z) :
  (0 <= indent <= INT_MAX)%Z ->
  overflows v indent = false
  <-> (indent + Z.of_nat (nesting v) <= INT_MAX)%Z.
Proof.
  revert indent.
  induction v as [|b|d|s|a IH|o IH] using json_tree_ind; intros indent Hi;
    cbn [overflows nesting]; try (split; [lia|done]).
  - destruct (Z.leb_spec 0 indent); [|lia]. cbn [andb].
    destruct (Z.leb_spec INT_MAX indent); cbn [orb]; [split; [done|lia]|].
    rewrite existsb_false.
    transitivity (max_list_with nesting a
                  <= Z.to_nat (INT_MAX - indent - 1)).
    + rewrite max_list_with_le. rewrite !Forall_forall.
      split; intros H' x Hx; specialize (H' x Hx);
        rewrite Forall_forall in IH;
        [apply (IH x Hx (indent + 1)%Z) in H'
        |apply (IH x Hx (indent + 1)%Z)]; lia.
    + lia.
  - destruct (Z.leb_spec 0 indent); [|lia]. cbn [andb].
    destruct (Z.leb_spec INT_MAX indent); cbn [orb]; [split; [done|lia]|].
    rewrite existsb_false.
    transitivity (max_list (map_to_list (nesting <$> o)).*2
                  <= Z.to_nat (INT_MAX - indent - 1)); [|lia].
    rewrite max_list_with_le, !Forall_forall. split.
    + intros H' n (kn & -> & Hkn)%list_elem_of_fmap. destruct kn as [k n].
      apply elem_of_map_to_list in Hkn. rewrite lookup_fmap in Hkn.
      destruct (o !! k) as [x|] eqn:Hk; [|done]. injection Hkn as <-.
      cbn [snd id].
      assert ((k, overflows x (indent + 1))
              ∈ map_to_list ((fun x => overflows x (indent + 1)) <$> o))
        as Hin by (apply elem_of_map_to_list; by rewrite lookup_fmap, Hk).
      apply H' in Hin. cbn [snd] in Hin.
      apply (IH k x Hk (indent + 1)%Z) in Hin; lia.
    + intros H' [k b] Hkb. apply elem_of_map_to_list in Hkb.
      rewrite lookup_fmap in Hkb.
      destruct (o !! k) as [x|] eqn:Hk; [|done]. injection Hkb as <-.
      cbn [snd]. apply (IH k x Hk (indent + 1)%Z); [lia|].
      assert (nesting x ∈ (map_to_list (nesting <$> o)).*2) as Hin.
      { apply list_elem_of_fmap. exists (k, nesting x). split; [done|].
        apply elem_of_map_to_list. by rewrite lookup_fmap, Hk. }
      apply H' in Hin. unfold id in Hin. lia.
Qed.

(** When no increment overflows, [to_string] returns the text. *)
Lemma to_string_int_Ok {It : Iteration} (v : json) (indent : Z) :
  (indent < 0 \/ indent + Z.of_nat (nesting v) <= INT_MAX)%Z ->
  to_string_int v indent = Ok (to_string v indent).
Proof.
  intros Hi. unfold to_string_int.
  destruct (Z.ltb_spec indent 0);
    [by rewrite overflows_negative|].
  destruct Hi as [|Hi]; [lia|].
  by rewrite (proj2 (overflows_nesting v indent ltac:(lia)) Hi).
Qed.

(** When one does, the run is undefined. *)
Lemma to_string_int_Undefined {It : Iteration} (v : json) (indent : Z) :
  (0 <= indent <= INT_MAX)%Z ->
  (INT_MAX < indent + Z.of_nat (nesting v))%Z ->
  to_string_int v indent = Undefined.
Proof.
  intros Hi Hn. unfold to_string_int.
  destruct (overflows v indent) eqn:Ho; [done|].
  apply overflows_nesting in Ho; lia.
Qed.

(** X16.  [parse] gives back the value whose text it reads at every
    indentation at which [to_string] writes the text, that of
    [operator<<] included: at every [indent < 0], and at every
    [indent >= 0] that the nesting of the value does not take past
    [INT_MAX] in the [++indent] of [to_string].  The value is to be an
    array or an object in which no array is empty, the elements of every
    array are of one variant, no string and no key has a double quote, and
    every number is printed by [%f] as a text that starts with a digit and
    that [std::stod] reads back as the same double: the line breaks and
    the tabs of the indented text are skipped as white space. *)
Theorem parse_reads_indented_text {It : Iteration} (v : json) (indent : Z) :
  is_container v = true -> roundtrips v = true ->
  (indent < 0 \/ indent + Z.of_nat (nesting v) <= INT_MAX)%Z ->
  (exists txt, to_string_int v indent = Ok txt /\ parse txt = Ok v)
  /\ ((Z.of_nat (nesting v) <= INT_MAX)%Z ->
      exists txt, operator_shl_int v = Ok txt /\ parse txt = Ok v).
Proof.
  intros Hc Hv Hi. split.
  - exists (to_string v indent).
    split; [by apply to_string_int_Ok | by apply parse_to_string_Ok].
  - intros Hn. exists (to_string v 0).
    split; [apply to_string_int_Ok; by right | by apply parse_to_string_Ok].
Qed.

Lemma parse_reads_indented_text_witness :
  (exists txt,
     to_string_int (It := listing_order) demo 2 = Ok txt
     /\ parse txt = Ok demo)
  /\ (exists txt,
        operator_shl_int (It := listing_order) demo = Ok txt
        /\ parse txt = Ok demo).
Proof.
  destruct (parse_reads_indented_text (It := listing_order) demo 2)
    as [H1 H2]; [by vm_compute | by vm_compute | right; by vm_compute |].
  split; [exact H1 | apply H2; by vm_compute].
Defined.

(** ** Strings are written as they are *)

(** X17.  [to_string] writes a string payload between two double quotes with
    nothing escaped, so that a string that holds [","] between quotes has
    the compact text of two strings, and this is what [parse] reads it
    as: the text of a value with a double quote in a string parses, but to
    another value. *)
Theorem to_string_escapes_nothing {It : Iteration} (s1 s2 : std_string)
    (indent : Z) :
  (indent < 0)%Z -> no_dquote s1 = true -> no_dquote s2 = true ->
  to_string (Array [String (s1 ++ dquote :: ","%char :: dquote :: s2)]) indent
  = to_string (Array [String s1; String s2]) indent
  /\ parse (to_string
              (Array [String (s1 ++ dquote :: ","%char :: dquote :: s2)])
              indent)
     = Ok (Array [String s1; String s2])
  /\ Array [String (s1 ++ dquote :: ","%char :: dquote :: s2)]
     <> Array [String s1; String s2].
Proof.
  intros Hneg%Z.ltb_lt Hs1 Hs2.
  assert (to_string
            (Array [String (s1 ++ dquote :: ","%char :: dquote :: s2)]) indent
          = to_string (Array [String s1; String s2]) indent) as Heq.
  { cbn [to_string fmap list_fmap]. rewrite !Hneg. cbn [array_items app].
    rewrite !app_nil_r. f_equal.
    repeat (rewrite <- app_assoc; cbn [app]). reflexivity. }
  split; [done|]. split; [|done].
  rewrite Heq. apply parse_to_string_Ok; [done|].
  cbn [roundtrips forallb lead]. rewrite Hs1, Hs2.
  by rewrite bool_decide_true.
Qed.

Lemma to_string_escapes_nothing_witness :
  to_string (It := listing_order)
    (Array [String (str "a" ++ dquote :: ","%char :: dquote :: str "b")])
    (-1)
  = to_string (It := listing_order)
      (Array [String (str "a"); String (str "b")]) (-1)
  /\ parse (to_string (It := listing_order)
              (Array [String (str "a" ++ dquote :: ","%char :: dquote
                                :: str "b")])
              (-1))
     = Ok (Array [String (str "a"); String (str "b")])
  /\ Array [String (str "a" ++ dquote :: ","%char :: dquote :: str "b")]
     <> Array [String (str "a"); String (str "b")].
Proof. by apply to_string_escapes_nothing. Defined.

(** ** What the indentation adds *)

Global Instance listing_order_keys : KeyOrder listing_order.
Proof. intros A B f m. apply map_to_list_fmap. Qed.

Lemma unindent_app (s t : std_string) :
  unindent (s ++ t) = unindent s ++ unindent t.
Proof. apply List.filter_app. Qed.

Lemma unindent_tabs (n : Z) : unindent (tabs n) = [].
Proof. unfold tabs. by induction (Z.to_nat n). Qed.

Lemma unindent_cons (c : ascii) (s : std_string) :
  unindent (c :: s) = (if layout c then [] else [c]) ++ unindent s.
Proof. cbn. by destruct (layout c). Qed.

Lemma unindent_array_items (it lb : std_string)
    (items items' : list std_string) :
  unindent it = [] -> unindent lb = [] ->
  Forall2 (fun x y => unindent x = unindent y) items items' ->
  unindent (array_items it lb items) = unindent (array_items [] [] items').
Proof.
  intros Hit Hlb. induction 1 as [|x y items items' Hxy Hrest IH]; [done|].
  destruct Hrest as [|x' y' items items' Hxy' Hrest].
  - cbn [array_items app].
    by rewrite !unindent_app, Hit, Hlb, Hxy, !app_nil_r.
  - change (array_items it lb (x :: x' :: items))
      with (it ++ x ++ ","%char :: lb ++ array_items it lb (x' :: items)).
    change (array_items [] [] (y :: y' :: items'))
      with (y ++ ","%char :: array_items [] [] (y' :: items')).
    rewrite !unindent_app, !(unindent_cons ","), unindent_app.
    by rewrite Hit, Hlb, Hxy, IH.
Qed.

Section indentation.
Context {It : Iteration} {keys : KeyOrder It}.

Lemma unindent_to_string (v : json) (indent : Z) :
  unindent (to_string v indent) = unindent (to_string v (-1)).
Proof.
  revert indent.
  induction v as [| | | |a IH|o IH] using json_tree_ind; intros indent;
    try done.
  - cbn [to_string]. change (-1 <? 0)%Z with true. cbn [app].
    set (indent' := if (indent <? 0)%Z then indent else (indent + 1)%Z).
    rewrite !(unindent_cons "["), !unindent_app. f_equal.
    f_equal; [|f_equal; [|f_equal]].
    + by destruct (indent' <? 0)%Z.
    + apply unindent_array_items.
      * destruct (indent <? 0)%Z; [done|apply unindent_tabs].
      * by destruct (indent' <? 0)%Z.
      * apply Forall2_fmap, Forall_Forall2_diag.
        eapply Forall_impl; [exact IH|]. intros x Hx. apply Hx.
    + destruct (indent' <? 0)%Z; [done|]. by rewrite unindent_tabs.
  - cbn [to_string]. change (-1 <? 0)%Z with true. cbn [app].
    set (indent' := if (indent <? 0)%Z then indent else (indent + 1)%Z).
    rewrite !object_items_array, !iterate_fmap, <- !list_fmap_compose.
    rewrite !(unindent_cons "{"), !unindent_app. f_equal.
    f_equal; [|f_equal; [|f_equal]].
    + by destruct (indent' <? 0)%Z.
    + apply unindent_array_items.
      * destruct (indent <? 0)%Z; [done|apply unindent_tabs].
      * by destruct (indent' <? 0)%Z.
      * apply Forall2_fmap, Forall_Forall2_diag, Forall_forall.
        intros [k x] Hkx. rewrite iterate_perm in Hkx.
        apply elem_of_map_to_list in Hkx. cbn [compose prod_map fst snd].
        unfold entry. cbn [fst snd id].
        rewrite !(unindent_cons dquote), !unindent_app.
        rewrite !(unindent_cons dquote), !unindent_app.
        do 4 f_equal. apply (IH k x Hkx).
    + destruct (indent' <? 0)%Z; [done|]. by rewrite unindent_tabs.
Qed.

(** X18.  The indentation adds tabs and line breaks and nothing else: at
    every indentation at which [to_string] writes the text (every
    [indent < 0], and every [indent >= 0] that the nesting of the value
    does not take past [INT_MAX]), that of [operator<<] included, the text
    without its tabs and line breaks is the compact text without its
    own, those of the strings and the keys. *)
Theorem indentation_adds_layout_only (v : json) (indent : Z) :
  (indent < 0 \/ indent + Z.of_nat (nesting v) <= INT_MAX)%Z ->
  (exists txt,
     to_string_int v indent = Ok txt
     /\ unindent txt = unindent (to_string v (-1)))
  /\ ((Z.of_nat (nesting v) <= INT_MAX)%Z ->
      exists txt,
        operator_shl_int v = Ok txt
        /\ unindent txt = unindent (to_string v (-1))).
Proof.
  intros Hi. split.
  - exists (to_string v indent).
    split; [by apply to_string_int_Ok | apply unindent_to_string].
  - intros Hn. exists (to_string v 0).
    split; [apply to_string_int_Ok; by right | apply unindent_to_string].
Qed.

End indentation.

Lemma indentation_adds_layout_only_witness :
  (exists txt,
     to_string_int (It := listing_order) demo 3 = Ok txt
     /\ unindent txt = unindent (to_string (It := listing_order) demo (-1)))
  /\ (exists txt,
        operator_shl_int (It := listing_order) demo = Ok txt
        /\ unindent txt
           = unindent (to_string (It := listing_order) demo (-1))).
Proof.
  destruct (indentation_adds_layout_only (keys := listing_order_keys) demo 3)
    as [H1 H2]; [right; by vm_compute|].
  split; [exact H1 | apply H2; by vm_compute].
Defined.

(** ** Numbers that are written and not read *)

Lemma to_string_first_number {It : Iteration} (d : std.double)
    (xs : list json) (indent : Z) :
  exists ws rest,
    forallb isspace ws = true
    /\ to_string (Array (Number d :: xs)) indent
       = "["%char :: ws ++ std.to_string d ++ rest.
Proof.
  destruct (to_string_layout indent)
    as (indent' & it & lb & cl & Hit & Hlb & _ & HA & _).
  rewrite HA, fmap_cons. cbn [to_string].
  rewrite (array_items_tail it lb). eexists (lb ++ it), _.
  split; [by rewrite forallb_app, Hlb|].
  by rewrite <- (app_assoc lb it).
Qed.

(** X19.  [to_string] writes every number, but [parse] does not read back one
    whose sign bit is set (a negative number, the negative zero, the
    negative infinity) nor the positive infinity: the minus sign and the
    [i] of [inf] are characters [getParser] does not know.  An array that
    starts with such a number makes [parse] throw, at every indentation at
    which [to_string] writes the text. *)
Theorem parse_rejects_signed_and_infinite_numbers {It : Iteration}
    (d : std.double) (xs : list json) (indent : Z) :
  (indent < 0
   \/ indent + Z.of_nat (nesting (Array (Number d :: xs))) <= INT_MAX)%Z ->
  exists txt,
    to_string_int (Array (Number d :: xs)) indent = Ok txt
    /\ (signbit d = true ->
        parse txt = Throw (runtime_error (str "Invalid symbole begin: -")))
    /\ (d = S754_infinity false ->
        parse txt = Throw (runtime_error (str "Invalid symbole begin: i"))).
Proof.
  intros Hi. exists (to_string (Array (Number d :: xs)) indent).
  split; [by apply to_string_int_Ok|].
  destruct (to_string_first_number d xs indent) as (ws & rest & Hws & ->).
  split.
  - intros Hd.
    assert (exists t, std.to_string d = "-"%char :: t) as [t ->].
    { destruct d as [[]|[]| |[] m e]; try done; by eexists. }
    by apply parse_array_first.
  - intros ->. by apply parse_array_first.
Qed.

Lemma parse_rejects_signed_and_infinite_numbers_witness :
  exists txt,
    to_string_int (It := listing_order)
      (Array [Number (std.nearest true 5 2); Number (dbl 1 1)]) 1 = Ok txt
    /\ parse txt = Throw (runtime_error (str "Invalid symbole begin: -")).
Proof.
  destruct (parse_rejects_signed_and_infinite_numbers (It := listing_order)
              (std.nearest true 5 2) [Number (dbl 1 1)] 1)
    as (txt & Ht & Hs & _); [right; by vm_compute|].
  exists txt. split; [exact Ht | apply Hs; by vm_compute].
Defined.

(** ** The first character of the text *)

Section first_character.
Variables c0 c0' : ascii.
Variable rest : std_string.

Lemma at_tail (i : nat) :
  1 <= i -> at_ (c0 :: rest) i = at_ (c0' :: rest) i.
Proof. intros Hi. unfold at_. destruct i as [|i]; [lia|done]. Qed.

Lemma drop_tail (i : nat) :
  1 <= i -> drop i (c0 :: rest) = drop i (c0' :: rest).
Proof. intros Hi. destruct i as [|i]; [lia|done]. Qed.

Lemma skipSpaces_tail (i : nat) :
  skipSpaces (c0 :: rest) i = skipSpaces (c0' :: rest) i.
Proof. done. Qed.

Lemma parsingError_tail {A} (i : nat) :
  1 <= i -> @parsingError A (c0 :: rest) i = parsingError (c0' :: rest) i.
Proof. intros Hi. unfold parsingError. by rewrite at_tail. Qed.

Lemma parseString_loop_tail (r : std_string) (index : nat)
    (data : std_string) :
  parseString_loop (c0 :: rest) r index data
  = parseString_loop (c0' :: rest) r index data.
Proof.
  revert index data. induction r as [|c r IH]; intros index data;
    cbn [parseString_loop].
  - apply parsingError_tail. lia.
  - destruct (Ascii.eqb c dquote); [done|]. cbn [length].
    destruct (_ <=? _); [apply parsingError_tail; lia|apply IH].
Qed.

Section loops.
Variables callf callf' : parser -> std_string -> nat -> outcome (json * nat).
Hypothesis callf_tail :
  forall f i, 1 <= i -> callf f (c0 :: rest) i = callf' f (c0' :: rest) i.

Lemma parseArray_loop_tail (n : nat) (f : parser) (index : nat)
    (data : list json) :
  parseArray_loop callf n f (c0 :: rest) index data
  = parseArray_loop callf' n f (c0' :: rest) index data.
Proof.
  revert index data. induction n as [|n IH]; intros index data; [done|].
  cbn [parseArray_loop]. rewrite !skipSpaces_tail.
  rewrite callf_tail by (pose proof (skipSpaces_gt (c0' :: rest) index); lia).
  destruct (callf' f (c0' :: rest) (skipSpaces (c0' :: rest) index))
    as [[x i2]| | |]; try done.
  cbn [mbind outcome_bind]. rewrite !skipSpaces_tail.
  rewrite at_tail by (pose proof (skipSpaces_gt (c0' :: rest) i2); lia).
  destruct (at_ _ _) as [c| | |]; try done.
  cbn [mbind outcome_bind length]. by rewrite IH.
Qed.

Lemma parseObject_loop_tail (n : nat) (index : nat)
    (data : gmap std_string json) :
  parseObject_loop callf n (c0 :: rest) index data
  = parseObject_loop callf' n (c0' :: rest) index data.
Proof.
  revert index data. induction n as [|n IH]; intros index data; [done|].
  cbn [parseObject_loop]. rewrite !skipSpaces_tail.
  rewrite at_tail by (pose proof (skipSpaces_gt (c0' :: rest) index); lia).
  destruct (at_ _ _) as [c| | |]; try done.
  cbn [mbind outcome_bind]. destruct (Ascii.eqb c "}"); [done|].
  cbn [drop]. destruct (scan_name _ _ _) as [name i2].
  rewrite !skipSpaces_tail.
  pose proof (skipSpaces_gt (c0' :: rest)
                (skipSpaces (c0' :: rest) i2)) as Hi2.
  rewrite at_tail by lia.
  destruct (at_ _ _) as [c'| | |]; try done.
  cbn [mbind outcome_bind]. destruct (getParser c') as [f| | |]; try done.
  cbn [mbind outcome_bind]. rewrite callf_tail by lia.
  destruct (callf' f _ _) as [[x i4]| | |]; try done.
  cbn [mbind outcome_bind]. rewrite !skipSpaces_tail.
  rewrite at_tail by (pose proof (skipSpaces_gt (c0' :: rest) i4); lia).
  destruct (at_ _ _) as [c''| | |]; try done.
  cbn [mbind outcome_bind length]. by rewrite IH.
Qed.

End loops.

Lemma call_tail (fuel : nat) (f : parser) (i : nat) :
  1 <= i -> call fuel f (c0 :: rest) i = call fuel f (c0' :: rest) i.
Proof.
  revert f i. induction fuel as [|fuel IH]; intros f i Hi; [done|].
  cbn [call]. destruct f.
  - by apply parseObject_loop_tail.
  - unfold parseArray. rewrite !skipSpaces_tail.
    rewrite at_tail by (pose proof (skipSpaces_gt (c0' :: rest) i); lia).
    destruct (at_ _ _) as [c| | |]; try done.
    cbn [mbind outcome_bind]. destruct (getParser c) as [f| | |]; try done.
    cbn [mbind outcome_bind]. by apply parseArray_loop_tail.
  - unfold parseString. cbn [length drop].
    destruct (_ <? _); [done|]. apply parseString_loop_tail.
  - unfold parseBoolean. rewrite drop_tail, parsingError_tail by done. done.
  - unfold parseNumber, substr. by rewrite drop_tail.
  - unfold parseNull. rewrite drop_tail, parsingError_tail by done. done.
Qed.

(** X20.  [parse] looks at the first character of the text for a bracket and
    for nothing else: when it is neither [{] nor [[] it is dropped,
    whatever it is, and the text is read from the second character on as
    if a space stood before it. *)
Theorem parse_drops_first_character :
  c0 ∉ ["{"; "["]%char -> c0' ∉ ["{"; "["]%char ->
  parse_cursor (c0 :: rest) = parse_cursor (c0' :: rest)
  /\ parse (c0 :: rest) = parse (c0' :: rest).
Proof.
  intros H0 H0'.
  assert (parse_cursor (c0 :: rest) = parse_cursor (c0' :: rest)) as H.
  { unfold parse_cursor. cbn [length]. destruct (_ <? _); [done|].
    cbn [at_ lookup list_lookup mbind outcome_bind].
    assert (forall c, c ∉ ["{"; "["]%char ->
              negb (Ascii.eqb c "{") && negb (Ascii.eqb c "[") = true) as Hb.
    { intros c Hc. destruct (Ascii.eqb_spec c "{") as [->|_];
        [exfalso; apply Hc; left|].
      destruct (Ascii.eqb_spec c "[") as [->|_]; [|done].
      exfalso. apply Hc. right. left. }
    rewrite !Hb by done. rewrite !skipSpaces_tail.
    pose proof (skipSpaces_gt (c0' :: rest) 0) as Hgt.
    fold (at_ (c0 :: rest) (skipSpaces (c0' :: rest) 0)).
    fold (at_ (c0' :: rest) (skipSpaces (c0' :: rest) 0)).
    rewrite at_tail by lia.
    destruct (at_ _ _) as [c| | |]; try done.
    cbn [mbind outcome_bind]. by rewrite !call_tail by lia. }
  split; [done|]. unfold parse. by rewrite H.
Qed.

End first_character.

Lemma parse_drops_first_character_witness :
  parse_cursor ("x"%char :: str "[null]")
  = parse_cursor (" "%char :: str "[null]")
  /\ parse ("x"%char :: str "[null]") = parse (" "%char :: str "[null]").
Proof.
  apply parse_drops_first_character;
    (apply (bool_decide_unpack _); vm_compute; exact I).
Defined.

(** ** What the container rules do not check *)

Section unchecked.
Context {It : Iteration}.

(** X21.  [parseObject] does not look at the character it takes for the opening
    quote of a key, nor at the one after the closing quote: any character
    that is not white space may stand for the quote (a closing brace
    apart) and for the colon. *)
Theorem parseObject_checks_no_quote_no_colon (c1 c2 : ascii)
    (k : std_string) (v : json) (rest : std_string) (indent : Z) :
  isspace c1 = false -> c1 <> "}"%char -> isspace c2 = false ->
  no_dquote k = true -> roundtrips v = true ->
  parse ("{"%char :: c1 :: k ++ dquote :: c2 :: to_string v indent
         ++ "}"%char :: rest)
  = Ok (Object {[ k := v ]}).
Proof.
  intros Hc1 Hne Hc2 Hk Hv.
  set (txt := "{"%char :: c1 :: k ++ dquote :: c2 :: to_string v indent
              ++ "}"%char :: rest).
  destruct (to_string_head v indent Hv) as (c & s & Hhead & Hc & Hf).
  assert (drop 1 txt = c1 :: k ++ dquote :: c2 :: to_string v indent
                       ++ "}"%char :: rest) as Hd1 by done.
  assert (drop 2 txt = k ++ dquote :: c2 :: to_string v indent
                       ++ "}"%char :: rest) as Hd2 by done.
  pose proof (drop_app_inv _ _ _ _ Hd2) as Hq.
  destruct (drop_cons_inv _ _ _ _ Hq) as (_ & Hcolon & _).
  destruct (drop_cons_inv _ _ _ _ Hcolon) as (_ & Hval & _).
  pose proof (drop_app_inv _ _ _ _ Hval) as Hclose.
  pose proof (length_of_drop _ _ _ _ Hclose) as Hlen.
  assert (0 < length (to_string v indent)) as Hpos
    by (rewrite Hhead; cbn; lia).
  assert (call (length txt + 2) p_parseObject txt 0
          = Ok (Object {[ k := v ]}, length txt - S (length rest))) as Hcall.
  { replace (length txt + 2) with (S (S (length txt))) by lia.
    change (call (S (S (length txt))) p_parseObject txt 0)
      with (parseObject (call (S (length txt))) (S (length txt)) txt 0).
    unfold parseObject. cbn [parseObject_loop].
    rewrite (skipSpaces_next _ _ _ _ Hd1 Hc1), (at_drop _ _ _ _ Hd1).
    cbn [mbind outcome_bind].
    destruct (Ascii.eqb_spec c1 "}") as [?|_]; [done|].
    rewrite Hd2, (scan_name_text _ _ _ _ Hk). cbn [app].
    rewrite (skipSpaces_next _ _ _ _ Hcolon Hc2).
    pose proof Hval as Hval'. rewrite Hhead in Hval'. cbn [app] in Hval'.
    rewrite (skipSpaces_next _ _ _ _ Hval' Hc), (at_drop _ _ _ _ Hval').
    cbn [mbind outcome_bind]. rewrite Hf. cbn [mbind outcome_bind].
    rewrite (call_to_string v Hv indent _ txt _ ("}"%char :: rest) Hval);
      [|right; exists [], ("}"%char :: rest);
        split; [done|]; split; [done|]; exists "}"%char, rest; auto
       |lia].
    cbn [mbind outcome_bind length].
    replace (S (S (2 + length k)) + length (to_string v indent))
      with (S (length txt - S (S (length rest)))) in Hclose by lia.
    rewrite (skipSpaces_next _ _ _ _ Hclose eq_refl),
      (at_drop _ _ _ _ Hclose).
    cbn [mbind outcome_bind Ascii.eqb Bool.eqb andb].
    unfold insert_pair. rewrite lookup_empty, insert_empty.
    do 2 f_equal. lia. }
  unfold parse.
  by rewrite (parse_cursor_intro txt "{" "{" p_parseObject _
                ltac:(lia) eq_refl eq_refl eq_refl Hcall).
Qed.

(** A container, [null], [true] and [false] are read whatever follows
    them. *)
Lemma call_to_string_any_post (v : json) (indent : Z) (fuel : nat)
    (txt : std_string) (i : nat) (post : std_string) :
  roundtrips v = true ->
  is_container v = true \/ v = Null \/ (exists b, v = Boolean b) ->
  drop i txt = to_string v indent ++ post ->
  length txt <= fuel + i ->
  call fuel (lead v) txt i = Ok (v, length txt - S (length post)).
Proof.
  intros Hv [Hc|Hs] Hd Hfuel; [by eapply call_to_string; eauto|].
  assert (length txt = i + length (to_string v indent ++ post)) as Hlen.
  { apply (length_of_drop_ne _ _ _ Hd). by destruct Hs as [->|[[] ->]]. }
  destruct fuel as [|fuel].
  { destruct Hs as [->|[[] ->]]; cbn in Hlen; lia. }
  destruct Hs as [->|[b ->]]; cbn [call lead to_string] in *.
  - rewrite (parseNull_text _ _ _ Hd). cbn in Hlen. do 2 f_equal. lia.
  - rewrite (parseBoolean_text _ _ _ _ Hd).
    do 2 f_equal. destruct b; cbn in Hlen |- *; lia.
Qed.

(** X22.  Neither [parseArray] nor [parseObject] asks for its closing bracket:
    after an element, any character that is not a comma ends the
    container, a closing bracket of the other kind or a letter as well. *)
Theorem containers_end_on_any_character (x : json) (k : std_string)
    (c : ascii) (rest : std_string) (indent : Z) :
  roundtrips x = true ->
  is_container x = true \/ x = Null \/ (exists b, x = Boolean b) ->
  no_dquote k = true -> isspace c = false -> c <> ","%char ->
  parse ("["%char :: to_string x indent ++ c :: rest) = Ok (Array [x])
  /\ parse ("{"%char :: dquote :: k ++ dquote :: ":"%char
            :: to_string x indent ++ c :: rest)
     = Ok (Object {[ k := x ]}).
Proof.
  intros Hx Hkind Hk Hc Hcomma.
  destruct (to_string_head x indent Hx) as (h & s & Hhead & Hh & Hf).
  assert (0 < length (to_string x indent)) as Hpos
    by (rewrite Hhead; cbn; lia).
  assert (Ascii.eqb c "," = false) as Hcf by (by apply Ascii.eqb_neq).
  split.
  - set (txt := "["%char :: to_string x indent ++ c :: rest).
    assert (drop 1 txt = to_string x indent ++ c :: rest) as Hd1 by done.
    pose proof (drop_app_inv _ _ _ _ Hd1) as Hclose.
    pose proof (length_of_drop _ _ _ _ Hclose) as Hlen.
    assert (call (length txt + 2) p_parseArray txt 0
            = Ok (Array [x], length txt - S (length rest))) as Hcall.
    { replace (length txt + 2) with (S (S (length txt))) by lia.
      change (call (S (S (length txt))) p_parseArray txt 0)
        with (parseArray (call (S (length txt))) (S (length txt)) txt 0).
      unfold parseArray. pose proof Hd1 as Hd1'. rewrite Hhead in Hd1'.
      rewrite (skipSpaces_next _ _ _ _ Hd1' Hh), (at_drop _ _ _ _ Hd1').
      cbn [mbind outcome_bind]. rewrite Hf.
      cbn [mbind outcome_bind parseArray_loop Nat.sub].
      rewrite (skipSpaces_next _ _ _ _ Hd1' Hh).
      rewrite (call_to_string_any_post x indent _ txt 1 (c :: rest));
        [|done..|lia].
      cbn [mbind outcome_bind length].
      replace (1 + length (to_string x indent))
        with (S (length txt - S (S (length rest)))) in Hclose by lia.
      rewrite (skipSpaces_next _ _ _ _ Hclose Hc), (at_drop _ _ _ _ Hclose).
      cbn [mbind outcome_bind app]. rewrite Hcf. cbn [andb].
      do 2 f_equal. lia. }
    unfold parse.
    by rewrite (parse_cursor_intro txt "[" "[" p_parseArray _
                  ltac:(lia) eq_refl eq_refl (conj eq_refl eq_refl) Hcall).
  - set (txt := "{"%char :: dquote :: k ++ dquote :: ":"%char
                :: to_string x indent ++ c :: rest).
    assert (drop 1 txt = dquote :: k ++ dquote :: ":"%char
                         :: to_string x indent ++ c :: rest) as Hd1 by done.
    assert (drop 2 txt = k ++ dquote :: ":"%char
                         :: to_string x indent ++ c :: rest) as Hd2 by done.
    pose proof (drop_app_inv _ _ _ _ Hd2) as Hq.
    destruct (drop_cons_inv _ _ _ _ Hq) as (_ & Hcolon & _).
    destruct (drop_cons_inv _ _ _ _ Hcolon) as (_ & Hval & _).
    pose proof (drop_app_inv _ _ _ _ Hval) as Hclose.
    pose proof (length_of_drop _ _ _ _ Hclose) as Hlen.
    assert (call (length txt + 2) p_parseObject txt 0
            = Ok (Object {[ k := x ]}, length txt - S (length rest)))
      as Hcall.
    { replace (length txt + 2) with (S (S (length txt))) by lia.
      change (call (S (S (length txt))) p_parseObject txt 0)
        with (parseObject (call (S (length txt))) (S (length txt)) txt 0).
      unfold parseObject. cbn [parseObject_loop].
      rewrite (skipSpaces_next _ _ _ _ Hd1 eq_refl), (at_drop _ _ _ _ Hd1).
      cbn [mbind outcome_bind]. change (Ascii.eqb dquote "}") with false.
      cbn [negb]. rewrite Hd2, (scan_name_text _ _ _ _ Hk). cbn [app].
      rewrite (skipSpaces_next _ _ _ _ Hcolon eq_refl).
      pose proof Hval as Hval'. rewrite Hhead in Hval'. cbn [app] in Hval'.
      rewrite (skipSpaces_next _ _ _ _ Hval' Hh), (at_drop _ _ _ _ Hval').
      cbn [mbind outcome_bind]. rewrite Hf. cbn [mbind outcome_bind].
      rewrite (call_to_string_any_post x indent _ txt _ (c :: rest));
        [|done..|lia].
      cbn [mbind outcome_bind length].
      replace (S (S (2 + length k)) + length (to_string x indent))
        with (S (length txt - S (S (length rest)))) in Hclose by lia.
      rewrite (skipSpaces_next _ _ _ _ Hclose Hc), (at_drop _ _ _ _ Hclose).
      cbn [mbind outcome_bind]. rewrite Hcf. cbn [andb].
      unfold insert_pair. rewrite lookup_empty, insert_empty.
      do 2 f_equal. lia. }
    unfold parse.
    by rewrite (parse_cursor_intro txt "{" "{" p_parseObject _
                  ltac:(lia) eq_refl eq_refl eq_refl Hcall).
Qed.

End unchecked.

Lemma containers_end_on_any_character_witness :
  parse ("["%char :: to_string (It := listing_order) (Array [Null]) 0
         ++ "}"%char :: str "x")
  = Ok (Array [Array [Null]])
  /\ parse ("{"%char :: dquote :: str "key" ++ dquote :: ":"%char
            :: to_string (It := listing_order) (Array [Null]) 0
            ++ "}"%char :: str "x")
     = Ok (Object {[ str "key" := Array [Null] ]}).
Proof.
  apply containers_end_on_any_character; try done. by left.
Defined.

Lemma parseObject_checks_no_quote_no_colon_witness :
  parse ("{"%char :: "x"%char :: str "key" ++ dquote :: "="%char
         :: to_string (It := listing_order) (Array [Null]) (-1)
         ++ "}"%char :: [])
  = Ok (Object {[ str "key" := Array [Null] ]}).
Proof. by apply parseObject_checks_no_quote_no_colon. Defined.

(** ** Reading, writing and reading again *)

Lemma numbers_survive_Object (o : gmap std_string json) (k : std_string)
    (x : json) :
  numbers_survive (Object o) = true -> o !! k = Some x ->
  numbers_survive x = true.
Proof.
  cbn [numbers_survive]. rewrite forallb_forall. intros H Hk.
  apply (H (k, numbers_survive x)).
  apply list_elem_of_In, elem_of_map_to_list. by rewrite lookup_fmap, Hk.
Qed.

Lemma roundtrips_of_readable (v : json) :
  readable v = true -> numbers_survive v = true -> roundtrips v = true.
Proof.
  induction v as [|b|d|s|a IH|o IH] using json_tree_ind; try done.
  - destruct a as [|x a]; [done|]. cbn [readable numbers_survive roundtrips].
    rewrite !forallb_forall. intros Hr Hn y Hy.
    destruct (andb_prop _ _ (Hr y Hy)) as [Hry Hly].
    rewrite Forall_forall in IH.
    rewrite (IH y); [done|by apply list_elem_of_In|done|by apply Hn].
  - intros Hr Hn. rewrite readable_Object in Hr.
    cbn [roundtrips]. apply forallb_forall. intros [k b] Hin.
    apply list_elem_of_In, elem_of_map_to_list in Hin.
    rewrite lookup_fmap in Hin. destruct (o !! k) as [x|] eqn:Hk; [|done].
    injection Hin as <-. destruct (Hr k x Hk) as [Hq Hx]. cbn [fst snd].
    rewrite Hq, (IH k x Hk); [done..|].
    by eapply numbers_survive_Object.
Qed.

(** X23.  What [parse] has read from any text it reads again from the text
    that [to_string] writes for it, at every indentation at which
    [to_string] writes the text, provided every number of it is printed by
    [%f] as a text that starts with a digit and that [std::stod] reads
    back as the same double: the value has the shape, and its strings and
    keys are free of the double quotes, that the round trip needs. *)
Theorem parse_result_is_read_back {It : Iteration} (txt : std_string)
    (v : json) (indent : Z) :
  parse txt = Ok v -> numbers_survive v = true ->
  (indent < 0 \/ indent + Z.of_nat (nesting v) <= INT_MAX)%Z ->
  exists txt', to_string_int v indent = Ok txt' /\ parse txt' = Ok v.
Proof.
  intros (_ & Hc & Hr)%parse_readable Hn Hi. exists (to_string v indent).
  split; [by apply to_string_int_Ok|].
  apply parse_to_string_Ok; [done|]. by apply roundtrips_of_readable.
Qed.

Lemma parse_result_is_read_back_witness :
  exists txt',
    to_string_int (It := listing_order)
      (Object {[ str "k" := Array [Array [Number (dbl 1 1);
                                          Number (dbl 5 2)];
                                   Array [Number (dbl 3 1)]] ]}) 0
    = Ok txt'
    /\ parse txt'
       = Ok (Object {[ str "k" := Array [Array [Number (dbl 1 1);
                                                Number (dbl 5 2)];
                                         Array [Number (dbl 3 1)]] ]}).
Proof.
  apply (parse_result_is_read_back (json_text "{ 'k' : [[1, 2.5 ],[3]]}"));
    [by vm_compute..|]. right. by vm_compute.
Defined.
